(** * FlowForge: a shallow embedding of the execution plane

  The development follows the Go packages of the repository:
  - [Database]  : [pkg/database/database.go] (the pagination scope);
  - [Scripts]   : [pkg/scripts/scripts.go] (the two stream readers of [Execute]);
  - [SSH]       : the [ssh] package ([GenerateKeyPair]);
  - [Scheduler] : [pkg/scheduler/scheduler.go] over a model of the cron registry;
  - [Pipeline]  : [pkg/pipeline/engine.go], the run store, the live registry
                  and the per-run log channel.

  Go's [int] is modelled as a 64-bit two's complement integer carried in [Z],
  Go maps as stdpp's [gmap], Go channels as a buffer with a closed flag, and
  goroutines as explicit interleavings of atomic actions. *)

From Stdlib Require Import ZArith Lia Bool.
From stdpp Require Import gmap strings list fin_maps pretty.

#[local] Set Warnings "-register-all".
#[local] Open Scope Z_scope.

(** A Go call that returns [(T, error)]: either the value or the error. *)
Inductive result (A : Type) : Type :=
  | Ok (a : A)
  | Err (msg : string).
Arguments Ok {A} a.
Arguments Err {A} msg.

Definition is_ok {A} (r : result A) : bool :=
  match r with Ok _ => true | Err _ => false end.

(* ===================================================================== *)
(** ** pkg/database: the pagination scope                                 *)
(* ===================================================================== *)

Module Database.

(** Go [int] on the supported platforms: 64 bits, two's complement. *)
Definition int_min : Z := - 2 ^ 63.
Definition int_max : Z := 2 ^ 63 - 1.
Definition is_int (z : Z) : Prop := int_min <= z <= int_max.
Definition int_wrap (z : Z) : Z := (z + 2 ^ 63) mod 2 ^ 64 - 2 ^ 63.

(** gorm's [clause.Limit] (gorm v1.25): the [Limit] field, a [*int] with
    [None] for nil, and the [Offset] field. *)
Record clause_Limit : Type := mkLimit {
  lim_Limit : option Z;
  lim_Offset : Z
}.

(** [clause.Limit.MergeClause]: the expression a statement holds after
    [limit] is added to one that holds [existing] ([None]: the statement has
    no limit clause yet, and [limit] is stored as it is). A nil or zero limit
    keeps the earlier limit; an offset of 0 keeps an earlier positive offset,
    and a negative offset added to an existing clause is stored as 0. *)
Definition MergeClause (limit : clause_Limit) (existing : option clause_Limit)
    : clause_Limit :=
  match existing with
  | None => limit
  | Some v =>
      let l :=
        if decide ((lim_Limit limit = None \/ lim_Limit limit = Some 0) /\ lim_Limit v <> None)
        then lim_Limit v else lim_Limit limit in
      let o :=
        if decide (lim_Offset limit = 0 /\ lim_Offset v > 0) then lim_Offset v
        else if decide (lim_Offset limit < 0) then 0
        else lim_Offset limit in
      mkLimit l o
  end.

(** The part of a [*gorm.DB] statement that the scope touches: the table and
    the expression of the statement's limit clause, if it has one. *)
Record DB : Type := mkDB {
  Table : string;
  LimitExpr : option clause_Limit
}.

(** [Statement.AddClause] for a [clause.Limit]. *)
Definition AddClause (limit : clause_Limit) (db : DB) : DB :=
  mkDB (Table db) (Some (MergeClause limit (LimitExpr db))).

(** [db.Offset(n)] and [db.Limit(n)]. *)
Definition Offset (n : Z) (db : DB) : DB := AddClause (mkLimit None n) db.
Definition Limit (n : Z) (db : DB) : DB := AddClause (mkLimit (Some n) 0) db.

(** The limit and the offset that the statement's clause holds; [None] when
    there is none. *)
Definition LimitClause (db : DB) : option Z := LimitExpr db ≫= lim_Limit.
Definition OffsetClause (db : DB) : option Z := lim_Offset <$> LimitExpr db.

(** The three guards of [Paginate], in source order. *)
Definition effPage (page : Z) : Z := if page <=? 0 then 1 else page.
Definition effPageSize (pageSize : Z) : Z :=
  let pageSize := if pageSize <=? 0 then 10 else pageSize in
  if pageSize >? 100 then 100 else pageSize.

Definition Paginate (page pageSize : Z) : DB -> DB := fun db =>
  let page := if page <=? 0 then 1 else page in
  let pageSize := if pageSize <=? 0 then 10 else pageSize in
  let pageSize := if pageSize >? 100 then 100 else pageSize in
  let offset := int_wrap ((page - 1) * pageSize) in
  Limit pageSize (Offset offset db).

(** The spec's wording: the page size clamped to the interval [1, 100]. *)
Definition clamp_1_100 (pageSize : Z) : Z := Z.max 1 (Z.min 100 pageSize).

Lemma int_wrap_id z : is_int z -> int_wrap z = z.
Proof.
  unfold is_int, int_min, int_max, int_wrap. intros H.
  rewrite Z.mod_small; lia.
Qed.

Lemma effPageSize_range pageSize : 1 <= effPageSize pageSize <= 100.
Proof.
  unfold effPageSize.
  destruct (Z.leb_spec pageSize 0); simpl.
  - lia.
  - destruct (Z.gtb_spec pageSize 100); lia.
Qed.

Lemma effPageSize_cases pageSize :
  effPageSize pageSize =
    if decide (pageSize <= 0) then 10
    else if decide (100 < pageSize) then 100 else pageSize.
Proof.
  unfold effPageSize.
  destruct (Z.leb_spec pageSize 0); simpl.
  - destruct (decide (pageSize <= 0)); [reflexivity | lia].
  - destruct (decide (pageSize <= 0)); [lia |].
    destruct (Z.gtb_spec pageSize 100); destruct (decide (100 < pageSize)); lia.
Qed.

(** The offset a statement holds after [Offset asked] and then a [Limit] of
    at least 1 have been added to [db]: [asked] when it is positive; for 0
    the positive offset that [db] already had, if any; and 0 for a negative
    [asked]. *)
Definition carried_offset (asked : Z) (db : DB) : Z :=
  if decide (0 < asked) then asked
  else if decide (asked = 0) then Z.max 0 (default 0 (OffsetClause db))
  else 0.

Lemma Limit_Offset_clauses asked limit db :
  1 <= limit ->
  LimitClause (Limit limit (Offset asked db)) = Some limit /\
  OffsetClause (Limit limit (Offset asked db)) = Some (carried_offset asked db) /\
  Table (Limit limit (Offset asked db)) = Table db.
Proof.
  intros Hl.
  assert (Hkeep : forall v : option Z,
            (if decide ((Some limit = None \/ Some limit = Some 0) /\ v <> None)
             then v else Some limit) = Some limit).
  { intros v. apply decide_False. intros [[H | H] _]; [discriminate | inversion H; lia]. }
  unfold carried_offset.
  destruct db as [table [[l0 o0] |]];
    unfold Limit, Offset, AddClause, LimitClause, OffsetClause;
    cbn [LimitExpr Table MergeClause lim_Limit lim_Offset mbind option_bind fmap option_fmap
         option_map default]; unfold id; rewrite ?Hkeep;
    (split; [reflexivity |]); (split; [| reflexivity]); f_equal.
  - destruct (decide (asked = 0 /\ o0 > 0)) as [[Ha Ho] | Hn];
      destruct (decide (asked < 0));
      repeat match goal with |- context [decide ?P] => destruct (decide P) end; lia.
  - repeat match goal with |- context [decide ?P] => destruct (decide P) end; lia.
Qed.

Lemma Paginate_clauses page pageSize db :
  LimitClause (Paginate page pageSize db) = Some (effPageSize pageSize) /\
  OffsetClause (Paginate page pageSize db)
    = Some (carried_offset (int_wrap ((effPage page - 1) * effPageSize pageSize)) db) /\
  Table (Paginate page pageSize db) = Table db.
Proof.
  pose proof (effPageSize_range pageSize) as Hr.
  change (Paginate page pageSize db)
    with (Limit (effPageSize pageSize)
            (Offset (int_wrap ((effPage page - 1) * effPageSize pageSize)) db)).
  apply Limit_Offset_clauses. lia.
Qed.

(** C7, as the claim states it, fails: a page size of 0 (or any page size
    below 1) is replaced by the default 10, not by the lower bound 1. *)
Lemma Paginate_zero_size_not_clamped :
  LimitClause (Paginate 1 0 (mkDB "ssh_keys" None)) = Some 10 /\
  clamp_1_100 0 = 1 /\
  LimitClause (Paginate 1 0 (mkDB "ssh_keys" None)) <> Some (clamp_1_100 0).
Proof. repeat split; try reflexivity. discriminate. Qed.

(** C7, amended: for every pair of Go ints [(page, pageSize)] the scope
    adds a limit that lies in [1, 100]: it is 10 when [pageSize <= 0], 100
    when [pageSize > 100] and [pageSize] itself otherwise (so it agrees with
    the clamp exactly when [pageSize >= 1]). Before that it adds the offset
    [(page' - 1) * limit] computed in Go's wrapping [int] arithmetic, where
    [page'] is 1 when [page <= 0] and [page] otherwise; this is the exact
    product whenever the product fits an [int]. The statement then holds
    that limit, and as its offset the one asked for when that is positive,
    the positive offset it already had (else 0) when 0 is asked for, and 0
    when the product has wrapped to a negative number. *)
Theorem Paginate_page_size page pageSize db
    (Hpage : is_int page) (Hsize : is_int pageSize) :
  let limit := if decide (pageSize <= 0) then 10
               else if decide (100 < pageSize) then 100 else pageSize in
  let page' := if decide (page <= 0) then 1 else page in
  let asked := int_wrap ((page' - 1) * limit) in
  Paginate page pageSize db = Limit limit (Offset asked db) /\
  1 <= limit <= 100 /\
  (1 <= pageSize -> limit = clamp_1_100 pageSize) /\
  (is_int ((page' - 1) * limit) -> asked = (page' - 1) * limit) /\
  LimitClause (Paginate page pageSize db) = Some limit /\
  OffsetClause (Paginate page pageSize db) =
    Some (if decide (0 < asked) then asked
          else if decide (asked = 0) then Z.max 0 (default 0 (OffsetClause db))
          else 0).
Proof.
  intros limit page' asked.
  destruct (Paginate_clauses page pageSize db) as (HL & HO & _).
  assert (El : effPageSize pageSize = limit) by apply effPageSize_cases.
  assert (Ep : effPage page = page').
  { unfold effPage, page'. destruct (Z.leb_spec page 0); destruct (decide (page <= 0)); lia. }
  pose proof (effPageSize_range pageSize) as Hr. rewrite El in Hr.
  split.
  { change (Paginate page pageSize db)
      with (Limit (effPageSize pageSize)
              (Offset (int_wrap ((effPage page - 1) * effPageSize pageSize)) db)).
    unfold asked. now rewrite El, Ep. }
  split; [exact Hr |]. split.
  { intros H1. unfold limit, clamp_1_100.
    destruct (decide (pageSize <= 0)); [lia |].
    destruct (decide (100 < pageSize)); lia. }
  split; [intros Hfit; apply int_wrap_id, Hfit |].
  split; [now rewrite <- El |].
  rewrite HO, El, Ep. reflexivity.
Qed.

Lemma Paginate_page_size_witness :
  LimitClause (Paginate 3 250 (mkDB "ssh_keys" None)) = Some 100 /\
  OffsetClause (Paginate 3 250 (mkDB "ssh_keys" None)) = Some 200.
Proof.
  assert (H3 : is_int 3) by (unfold is_int, int_min, int_max; lia).
  assert (H250 : is_int 250) by (unfold is_int, int_min, int_max; lia).
  destruct (Paginate_page_size 3 250 (mkDB "ssh_keys" None) H3 H250)
    as (_ & _ & _ & _ & HL & HO).
  split; [exact HL | exact HO].
Defined.

(** *** Pages, ordering and search *)

Lemma str_app_assoc (a b c : string) : (a +:+ b) +:+ c = a +:+ (b +:+ c).
Proof.
  induction a as [| x a IH]; [reflexivity |].
  change (String x ((a +:+ b) +:+ c) = String x (a +:+ (b +:+ c))). now rewrite IH.
Qed.

Lemma str_app_nil_r (a : string) : a +:+ "" = a.
Proof.
  induction a as [| x a IH]; [reflexivity |].
  change (String x (a +:+ "") = String x a). now rewrite IH.
Qed.



(** A statement with the clauses that [OrderBy] and [Search] add: the
    arguments of the [Order] calls and of the [Where] calls (the condition and
    its values), oldest first. *)
Record Query : Type := mkQuery {
  page_of : DB;
  Orders : list string;
  Wheres : list (string * list string)
}.

Definition Order (clause : string) (q : Query) : Query :=
  mkQuery (page_of q) (Orders q ++ [clause]) (Wheres q).
Definition Where (query : string) (values : list string) (q : Query) : Query :=
  mkQuery (page_of q) (Orders q) (Wheres q ++ [(query, values)]).

Definition OrderBy (sort order : string) : Query -> Query := fun db =>
  let sort := if decide (sort = "") then "id" else sort in
  let order := if decide (order = "") then "desc" else order in
  let order := if decide (order <> "asc" /\ order <> "desc") then "desc" else order in
  Order (sort +:+ " " +:+ order) db.

(** The loop of [Search] that extends [query] by the conditions from index 1
    on. *)
Fixpoint or_conditions (query : string) (conditions : list string) : string :=
  match conditions with
  | [] => query
  | c :: more => or_conditions (query +:+ (" OR (" +:+ c +:+ ")")) more
  end.

Definition Search (fields : list string) (keyword : string) : Query -> Query := fun db =>
  if decide (keyword = "") then db
  else
    let conditions := map (fun field => field +:+ " LIKE ?") fields in
    let values := map (fun _ : string => "%" +:+ keyword +:+ "%") fields in
    match conditions with
    | first :: more => Where (or_conditions ("(" +:+ first +:+ ")") more) values db
    | [] => db
    end.

(** [OrderBy] adds one clause, "column direction". The direction is "asc"
    only when the caller passed exactly "asc" and "desc" in every other case;
    the column is the caller's text, unchecked, or "id" when it is empty. *)
Theorem OrderBy_direction sort order db :
  exists column direction,
    OrderBy sort order db = Order (column +:+ " " +:+ direction) db /\
    (direction = "asc" \/ direction = "desc") /\
    (direction = "asc" <-> order = "asc") /\
    (sort <> "" -> column = sort) /\ (sort = "" -> column = "id").
Proof.
  unfold OrderBy.
  exists (if decide (sort = "") then "id" else sort).
  destruct (decide (order = "")) as [-> | Hne].
  - exists "desc". split.
    + destruct (decide ("desc" <> "asc" /\ "desc" <> "desc")) as [[_ H] |]; [congruence | reflexivity].
    + split; [now right |]. split; [split; discriminate |].
      destruct (decide (sort = "")); split; congruence.
  - destruct (decide (order = "asc")) as [-> | Hasc].
    + exists "asc". split.
      * destruct (decide ("asc" <> "asc" /\ "asc" <> "desc")) as [[H _] |]; [congruence | reflexivity].
      * split; [now left |]. split; [tauto |].
        destruct (decide (sort = "")); split; congruence.
    + exists "desc". split.
      * destruct (decide (order <> "asc" /\ order <> "desc")) as [_ | Hn]; [reflexivity |].
        destruct (decide (order = "desc")) as [-> | Hd]; [reflexivity | tauto].
      * split; [now right |]. split; [split; [discriminate | congruence] |].
        destruct (decide (sort = "")); split; congruence.
Qed.

(** The tail of the condition: one " OR (c)" per further condition. *)
Lemma OrderBy_direction_witness :
  Orders (OrderBy "created_at" "ASC" (mkQuery (mkDB "projects" None) [] []))
    = ["created_at desc"].
Proof.
  destruct (OrderBy_direction "created_at" "ASC" (mkQuery (mkDB "projects" None) [] []))
    as (column & direction & Hcall & Hdir & Hasc & Hcolumn & _).
  rewrite Hcall, (Hcolumn ltac:(discriminate)).
  destruct Hdir as [Hd | Hd].
  - apply Hasc in Hd. discriminate.
  - rewrite Hd. reflexivity.
Defined.

Definition or_tail (conditions : list string) : string :=
  foldr (fun c acc => (" OR (" +:+ c +:+ ")") +:+ acc) "" conditions.

Lemma or_conditions_tail conditions : forall query,
  or_conditions query conditions = query +:+ or_tail conditions.
Proof.
  induction conditions as [| c more IH]; intros query; simpl.
  - symmetry. apply str_app_nil_r.
  - rewrite IH. apply str_app_assoc.
Qed.

(** [Search] leaves the statement alone when the keyword is empty or there
    is no field. Otherwise it adds exactly one [Where]: its condition is
    "(f1 LIKE ?) OR (f2 LIKE ?) ...", one parenthesised test per field in
    field order, and it carries one value "%keyword%" per field, so
    placeholders and values match in number. *)
Theorem Search_where fields keyword db :
  (keyword = "" \/ fields = [] -> Search fields keyword db = db) /\
  (keyword <> "" -> forall first more, fields = first :: more ->
     exists query values,
       Search fields keyword db = Where query values db /\
       query = ("(" +:+ first +:+ " LIKE ?" +:+ ")")
                 +:+ or_tail (map (fun field => field +:+ " LIKE ?") more) /\
       values = replicate (length fields) ("%" +:+ keyword +:+ "%")).
Proof.
  split.
  - intros [-> | ->]; unfold Search.
    + reflexivity.
    + destruct (decide (keyword = "")); reflexivity.
  - intros Hk first more ->. unfold Search.
    destruct (decide (keyword = "")) as [E | _]; [contradiction |].
    simpl. eexists _, _. split; [reflexivity |]. split.
    + rewrite or_conditions_tail. rewrite !str_app_assoc. reflexivity.
    + f_equal. clear. induction more as [| f more IH]; simpl; [reflexivity | now rewrite IH].
Qed.

Lemma Search_where_witness :
  Wheres (Search ["name"; "description"] "api" (mkQuery (mkDB "projects" None) [] []))
    = [("(name LIKE ?) OR (description LIKE ?)", ["%api%"; "%api%"])].
Proof.
  destruct (Search_where ["name"; "description"] "api"
              (mkQuery (mkDB "projects" None) [] [])) as [_ H].
  destruct (H ltac:(discriminate) "name" ["description"] eq_refl) as (q & vs & Hs & Hq & Hv).
  rewrite Hs, Hq, Hv. reflexivity.
Defined.

(** *** The caller of the pagination scope *)

(** What [GetSSHKeys] answers for a query that matched [total] rows: the
    page and page size as received and the page count computed from them.
    The division is Go's: it truncates, and a zero divisor panics ([None]). *)
Record PaginationResponse : Type := mkPagination {
  Total : Z;
  Page : Z;
  PageSize : Z;
  TotalPages : Z
}.

Definition GetSSHKeys_response (page pageSize total : Z) : option PaginationResponse :=
  if decide (pageSize = 0) then None
  else Some (mkPagination total page pageSize
               (int_wrap (Z.quot (int_wrap (int_wrap (total + pageSize) - 1)) pageSize))).

(** The statement [GetSSHKeys] runs for the listing. *)
Definition GetSSHKeys_query (page pageSize : Z) (db : DB) : DB := Paginate page pageSize db.

(** For a page size between 1 and 100 the handler reports the page size the
    scope applied, and its page count is the number of pages of that size
    needed for [total] rows. *)
Theorem GetSSHKeys_pages_in_range page pageSize total db :
  1 <= pageSize <= 100 -> 0 <= total < 2 ^ 62 ->
  exists r,
    GetSSHKeys_response page pageSize total = Some r /\
    LimitClause (GetSSHKeys_query page pageSize db) = Some (PageSize r) /\
    (TotalPages r - 1) * PageSize r < total <= TotalPages r * PageSize r.
Proof.
  intros Hs Ht. unfold GetSSHKeys_response.
  destruct (decide (pageSize = 0)) as [E | _]; [lia |].
  assert (H1 : is_int (total + pageSize)) by (unfold is_int, int_min, int_max; lia).
  rewrite (int_wrap_id _ H1).
  assert (H2 : is_int (total + pageSize - 1)) by (unfold is_int, int_min, int_max; lia).
  rewrite (int_wrap_id _ H2).
  rewrite Z.quot_div_nonneg by lia.
  pose proof (Z.div_mod (total + pageSize - 1) pageSize ltac:(lia)) as Hdm.
  pose proof (Z.mod_pos_bound (total + pageSize - 1) pageSize ltac:(lia)) as Hmb.
  set (n := (total + pageSize - 1) / pageSize) in *.
  assert (Hn0 : 0 <= n) by (apply Z.div_pos; lia).
  assert (Hn1 : n <= total + pageSize) by nia.
  assert (H3 : is_int n) by (unfold is_int, int_min, int_max; lia).
  rewrite (int_wrap_id _ H3).
  eexists. split; [reflexivity |]. simpl.
  destruct (Paginate_clauses page pageSize db) as (HL & _ & _).
  assert (El : effPageSize pageSize = pageSize).
  { rewrite effPageSize_cases.
    destruct (decide (pageSize <= 0)); [lia |]. destruct (decide (100 < pageSize)); lia. }
  rewrite El in HL. unfold GetSSHKeys_query.
  split; [exact HL |]. nia.
Qed.

Lemma GetSSHKeys_pages_in_range_witness :
  GetSSHKeys_response 1 20 45 = Some (mkPagination 45 1 20 3).
Proof.
  destruct (GetSSHKeys_pages_in_range 1 20 45 (mkDB "ssh_keys" None))
    as (r & Hr & _ & _); [lia | lia |].
  reflexivity.
Defined.

(** Outside that range the answer and the query disagree: with a page size
    of 0 the query is run with the default limit 10 and the page count then
    divides by zero; with any other page size below 1 or above 100 the
    handler reports a page size that is not the limit it applied. *)
Theorem GetSSHKeys_pages_out_of_range page pageSize total db :
  pageSize < 1 \/ 100 < pageSize ->
  (pageSize = 0 ->
     GetSSHKeys_response page pageSize total = None /\
     LimitClause (GetSSHKeys_query page pageSize db) = Some 10) /\
  (forall r, GetSSHKeys_response page pageSize total = Some r ->
     LimitClause (GetSSHKeys_query page pageSize db) <> Some (PageSize r)).
Proof.
  intros Hr. destruct (Paginate_clauses page pageSize db) as (HL & _ & _).
  pose proof (effPageSize_range pageSize) as Hrange.
  unfold GetSSHKeys_query, GetSSHKeys_response. split.
  - intros ->. split; [reflexivity | exact HL].
  - intros r. destruct (decide (pageSize = 0)); [discriminate |].
    intros Heq. inversion Heq; subst r. cbn [PageSize]. rewrite HL.
    intros Hc. inversion Hc. lia.
Qed.

Lemma GetSSHKeys_pages_out_of_range_witness :
  GetSSHKeys_response 1 0 45 = None /\
  LimitClause (GetSSHKeys_query 1 500 (mkDB "ssh_keys" None)) = Some 100 /\
  (PageSize <$> GetSSHKeys_response 1 500 45) = Some 500.
Proof.
  destruct (GetSSHKeys_pages_out_of_range 1 0 45 (mkDB "ssh_keys" None)) as [H0 _];
    [lia |].
  destruct (H0 eq_refl) as [Hnone _].
  split; [exact Hnone |]. split; reflexivity.
Defined.

End Database.

(* ===================================================================== *)
(** ** pkg/scripts: the stream readers of [Execute]                       *)
(* ===================================================================== *)

Module Scripts.


Lemma append_cons (x : Ascii.ascii) (a b : string) :
  String x a +:+ b = String x (a +:+ b).
Proof. reflexivity. Qed.

Lemma append_assoc (a b c : string) : (a +:+ b) +:+ c = a +:+ (b +:+ c).
Proof.
  induction a as [| x a IH]; [reflexivity |].
  rewrite !append_cons. now rewrite IH.
Qed.

Lemma append_nil_r (a : string) : a +:+ "" = a.
Proof.
  induction a as [| x a IH]; [reflexivity |].
  rewrite append_cons. now rewrite IH.
Qed.

(** The line feed character, Go's ["\n"]. *)
Definition newline : string := String (Ascii.ascii_of_nat 10) "".

(** [ExecuteResult], with the duration in nanoseconds. *)
Record ExecuteResult : Type := mkResult {
  ExitCode : Z;
  Output : string;
  Error : string;
  Duration : Z
}.

(** What [cmd.Wait] reports: no error, an [*exec.ExitError] with its exit
    code, or any other error. *)
Inductive WaitResult : Type :=
  | WaitOk
  | WaitExitError (code : Z)
  | WaitOtherError (msg : string).

(** *** The line scanner *)

(** [bufio.MaxScanTokenSize]: the size a scanner's buffer may grow to. *)
Definition MaxScanTokenSize : nat := 64 * 1024.

Definition LF : Ascii.ascii := Ascii.ascii_of_nat 10.
Definition CR : Ascii.ascii := Ascii.ascii_of_nat 13.

(** [dropCR] on the bytes of a token, given last byte first. *)
Definition dropCR (token : list Ascii.ascii) : string :=
  match token with
  | c :: more =>
      if decide (c = CR) then String.string_of_list_ascii (reverse more)
      else String.string_of_list_ascii (reverse token)
  | [] => ""
  end.

(** The tokens that the calls of [Scan] of a [bufio.Scanner] with the split
    function [ScanLines] yield on the bytes [data] its reader delivers before
    it fails or ends; [token] holds the bytes of the current token, last byte
    first. A token ends at a line feed, or at the end of the data when bytes
    are left. A token is yielded only if it fits the buffer together with
    its line feed: once [MaxScanTokenSize] bytes without a line feed are
    buffered, [Scan] returns false with [ErrTooLong] and yields nothing
    more. *)
Fixpoint scan (data : string) (token : list Ascii.ascii) : list string :=
  match data with
  | EmptyString =>
      match token with
      | [] => []
      | _ :: _ => if decide (length token < MaxScanTokenSize)%nat then [dropCR token] else []
      end
  | String c data' =>
      if decide (c = LF) then
        if decide (length token < MaxScanTokenSize)%nat then dropCR token :: scan data' []
        else []
      else scan data' (c :: token)
  end.

Definition Scanner_lines (data : string) : list string := scan data [].

(** The complete lines of [data]: the lines that end in a line feed, without
    the line feed and an optional carriage return before it. *)
Fixpoint complete (data : string) (token : list Ascii.ascii) : list string :=
  match data with
  | EmptyString => []
  | String c data' =>
      if decide (c = LF) then dropCR token :: complete data' []
      else complete data' (c :: token)
  end.

Definition complete_lines (data : string) : list string := complete data [].

(** *** The child process *)

(** The started child process as [Execute] observes it: the bytes it writes
    to each pipe; how many of them the reader of the pipe obtains before
    [cmd.Wait], which [Execute] calls while the readers are at work, sees the
    process exit and closes the pipe (the reader obtains all of them when it
    meets the end of the stream first); what [cmd.Wait] returns; and the
    elapsed wall time. *)
Record Process : Type := mkProcess {
  stdout_written : string;
  stderr_written : string;
  stdout_read : nat;
  stderr_read : nat;
  wait : WaitResult;
  elapsed : Z
}.

(** The lines that the scanner on each pipe yields: the tokens of the bytes
    its reader obtained. A read that fails on the closed pipe ends the scan
    like the end of the stream does, and [scanner.Err] is never looked at. *)
Definition stdout_lines (p : Process) : list string :=
  Scanner_lines (String.substring 0 (stdout_read p) (stdout_written p)).
Definition stderr_lines (p : Process) : list string :=
  Scanner_lines (String.substring 0 (stderr_read p) (stderr_written p)).

Arguments stdout_lines : simpl never.
Arguments stderr_lines : simpl never.

Inductive Stream : Type := Stdout | Stderr.

#[global] Instance Stream_eq_dec : EqDecision Stream.
Proof. solve_decision. Defined.

(** One reader goroutine: the lines its scanner has not yielded yet, the
    line of the current iteration that was appended to the builder and is
    not yet handed to the callback, and its [strings.Builder]. *)
Record Reader : Type := mkReader {
  rest : list string;
  pending : option string;
  builder : string
}.

(** The two goroutines and the calls made to [opts.LogCallback] so far, oldest
    first, each tagged with the goroutine that made it. *)
Record Readers : Type := mkReaders {
  outR : Reader;
  errR : Reader;
  calls : list (Stream * string)
}.

Definition start_readers (p : Process) : Readers :=
  {| outR := mkReader (stdout_lines p) None "";
     errR := mkReader (stderr_lines p) None "";
     calls := [] |}.

(** What a reader passes to the callback for [line]. *)
Definition callback_arg (who : Stream) (line : string) : string :=
  match who with
  | Stdout => line
  | Stderr => "ERROR: " +:+ line
  end.

(** One atomic action of a reader: either [scanner.Scan] yields a line, which
    is appended with a newline to the builder, or the pending line is handed
    to the callback when [opts.LogCallback != nil]. A reader whose scanner is
    exhausted has left its loop and does nothing. *)
Definition reader_action (hasCallback : bool) (who : Stream) (r : Reader)
    (cs : list (Stream * string)) : Reader * list (Stream * string) :=
  match pending r with
  | Some line =>
      (mkReader (rest r) None (builder r),
       if hasCallback then cs ++ [(who, callback_arg who line)] else cs)
  | None =>
      match rest r with
      | line :: more => (mkReader more (Some line) (builder r +:+ (line +:+ newline)), cs)
      | [] => (r, cs)
      end
  end.

Definition step (hasCallback : bool) (who : Stream) (st : Readers) : Readers :=
  match who with
  | Stdout =>
      let '(r, cs) := reader_action hasCallback Stdout (outR st) (calls st) in
      mkReaders r (errR st) cs
  | Stderr =>
      let '(r, cs) := reader_action hasCallback Stderr (errR st) (calls st) in
      mkReaders (outR st) r cs
  end.

(** A schedule names the goroutine that moves next. *)
Fixpoint run (hasCallback : bool) (sched : list Stream) (st : Readers) : Readers :=
  match sched with
  | [] => st
  | who :: sched' => run hasCallback sched' (step hasCallback who st)
  end.

Definition reader_done (r : Reader) : bool :=
  match rest r, pending r with
  | [], None => true
  | _, _ => false
  end.

(** [wg.Wait] returns once both readers have left their loops. *)
Definition finished (st : Readers) : bool := reader_done (outR st) && reader_done (errR st).

(** The arguments of the callback calls made by [who], in call order. *)
Fixpoint delivered_by (who : Stream) (cs : list (Stream * string)) : list string :=
  match cs with
  | [] => []
  | (w, s) :: cs' =>
      if decide (w = who) then s :: delivered_by who cs' else delivered_by who cs'
  end.

(** Every line followed by a newline, concatenated. *)
Fixpoint blob (lines : list string) : string :=
  match lines with
  | [] => ""
  | l :: ls => (l +:+ newline) +:+ blob ls
  end.

(** The tail of [Execute] after [cmd.Start] succeeded: wait for the process
    and the readers, then build the result. [None] is the error return for a
    [Wait] error that is not an exit error. *)
Definition Execute_collect (p : Process) (st : Readers) : option ExecuteResult :=
  match wait p with
  | WaitOk => Some (mkResult 0 (builder (outR st)) (builder (errR st)) (elapsed p))
  | WaitExitError code =>
      Some (mkResult code (builder (outR st)) (builder (errR st)) (elapsed p))
  | WaitOtherError _ => None
  end.

Definition opt_list (o : option string) : list string :=
  match o with Some l => [l] | None => [] end.

(** What a reader has consumed is in its builder; what it has consumed and
    not kept pending has been delivered. *)
Definition reader_inv (hasCallback : bool) (who : Stream) (lines : list string)
    (r : Reader) (cs : list (Stream * string)) : Prop :=
  builder r +:+ blob (rest r) = blob lines /\
  (hasCallback = true ->
     delivered_by who cs ++ map (callback_arg who) (opt_list (pending r) ++ rest r)
       = map (callback_arg who) lines) /\
  (hasCallback = false -> delivered_by who cs = []).

Definition readers_inv (hasCallback : bool) (p : Process) (st : Readers) : Prop :=
  reader_inv hasCallback Stdout (stdout_lines p) (outR st) (calls st) /\
  reader_inv hasCallback Stderr (stderr_lines p) (errR st) (calls st).

Lemma delivered_by_app who cs cs' :
  delivered_by who (cs ++ cs') = delivered_by who cs ++ delivered_by who cs'.
Proof.
  induction cs as [| [w s] cs IH]; simpl; [reflexivity |].
  destruct (decide (w = who)); simpl; now rewrite IH.
Qed.

Lemma reader_action_self hasCallback who lines r cs :
  reader_inv hasCallback who lines r cs ->
  reader_inv hasCallback who lines
    (fst (reader_action hasCallback who r cs)) (snd (reader_action hasCallback who r cs)).
Proof.
  intros (Hb & Hc & Hn). unfold reader_action.
  destruct r as [rs [line |] b]; simpl in *.
  - repeat split; simpl; [exact Hb | |].
    + intros ->. specialize (Hc eq_refl). rewrite delivered_by_app. simpl.
      destruct (decide (who = who)); [| congruence].
      rewrite <- app_assoc. exact Hc.
    + intros ->. auto.
  - destruct rs as [| line more]; simpl.
    + repeat split; assumption.
    + repeat split; simpl; [| exact Hc | exact Hn].
      rewrite append_assoc. exact Hb.
Qed.

Lemma reader_action_other hasCallback who other lines r r' cs :
  who <> other ->
  reader_inv hasCallback other lines r' cs ->
  reader_inv hasCallback other lines r' (snd (reader_action hasCallback who r cs)).
Proof.
  intros Hne (Hb & Hc & Hn). unfold reader_action.
  destruct (pending r) as [line |]; simpl.
  - destruct hasCallback; simpl; [| repeat split; assumption].
    repeat split; [exact Hb | | intros; discriminate].
    intros _. rewrite delivered_by_app. simpl.
    destruct (decide (who = other)); [congruence |].
    rewrite app_nil_r. auto.
  - destruct (rest r); simpl; repeat split; assumption.
Qed.

Lemma readers_step_inv hasCallback p who st :
  readers_inv hasCallback p st -> readers_inv hasCallback p (step hasCallback who st).
Proof.
  intros [Ho He]. unfold step.
  destruct who.
  - pose proof (reader_action_self _ _ _ _ _ Ho) as H1.
    pose proof (reader_action_other hasCallback Stdout Stderr _ (outR st) _ _
                  ltac:(discriminate) He) as H2.
    destruct (reader_action hasCallback Stdout (outR st) (calls st)); split; assumption.
  - pose proof (reader_action_self _ _ _ _ _ He) as H1.
    pose proof (reader_action_other hasCallback Stderr Stdout _ (errR st) _ _
                  ltac:(discriminate) Ho) as H2.
    destruct (reader_action hasCallback Stderr (errR st) (calls st)); split; assumption.
Qed.

Lemma start_inv hasCallback p : readers_inv hasCallback p (start_readers p).
Proof.
  split; repeat split; simpl; auto; intros _; now rewrite ?app_nil_r.
Qed.

Lemma run_inv hasCallback p sched : forall st,
  readers_inv hasCallback p st -> readers_inv hasCallback p (run hasCallback sched st).
Proof.
  induction sched as [| who sched IH]; simpl; intros st H; [exact H |].
  apply IH, readers_step_inv, H.
Qed.

Lemma reader_done_inv hasCallback who lines r cs :
  reader_inv hasCallback who lines r cs -> reader_done r = true ->
  builder r = blob lines /\
  (hasCallback = true -> delivered_by who cs = map (callback_arg who) lines) /\
  (hasCallback = false -> delivered_by who cs = []).
Proof.
  intros (Hb & Hc & Hn) Hd. unfold reader_done in Hd.
  destruct r as [[| ? ?] [? |] b]; simpl in *; try discriminate.
  rewrite append_nil_r in Hb. repeat split; [exact Hb | | exact Hn].
  intros Ht. specialize (Hc Ht). now rewrite app_nil_r in Hc.
Qed.

(** Actions a reader still has to take before it leaves its loop. *)
Definition remaining (r : Reader) : nat :=
  (2 * length (rest r) + length (opt_list (pending r)))%nat.

Definition reader_of (who : Stream) (st : Readers) : Reader :=
  match who with Stdout => outR st | Stderr => errR st end.

Fixpoint turns (who : Stream) (sched : list Stream) : nat :=
  match sched with
  | [] => 0%nat
  | w :: sched' => ((if decide (w = who) then 1 else 0) + turns who sched')%nat
  end.

Lemma reader_action_remaining hasCallback who r cs :
  remaining (fst (reader_action hasCallback who r cs)) = Nat.pred (remaining r).
Proof.
  unfold reader_action, remaining.
  destruct r as [rs [line |] b]; simpl; [lia |].
  destruct rs as [| line more]; simpl; lia.
Qed.

Lemma step_remaining hasCallback w who st :
  remaining (reader_of who (step hasCallback w st)) =
    if decide (w = who) then Nat.pred (remaining (reader_of who st))
    else remaining (reader_of who st).
Proof.
  unfold step. destruct w, who; simpl;
    try (pose proof (reader_action_remaining hasCallback Stdout (outR st) (calls st)) as H;
         destruct (reader_action hasCallback Stdout (outR st) (calls st)); simpl in *; now auto);
    try (pose proof (reader_action_remaining hasCallback Stderr (errR st) (calls st)) as H;
         destruct (reader_action hasCallback Stderr (errR st) (calls st)); simpl in *; now auto).
Qed.

Lemma run_remaining hasCallback who sched : forall st,
  remaining (reader_of who (run hasCallback sched st)) =
    (remaining (reader_of who st) - turns who sched)%nat.
Proof.
  induction sched as [| w sched IH]; simpl; intros st; [lia |].
  rewrite IH, step_remaining. destruct (decide (w = who)); lia.
Qed.

Lemma reader_done_remaining r : reader_done r = true <-> remaining r = 0%nat.
Proof.
  unfold reader_done, remaining.
  destruct r as [[| ? ?] [? |] b]; simpl; split; intros; (discriminate || lia || reflexivity).
Qed.

(** The readers always come to an end: a schedule that gives each goroutine
    two turns per line of its stream leaves both loops finished. *)
Lemma run_finishes hasCallback p sched :
  (2 * length (stdout_lines p) <= turns Stdout sched)%nat ->
  (2 * length (stderr_lines p) <= turns Stderr sched)%nat ->
  finished (run hasCallback sched (start_readers p)) = true.
Proof.
  intros Ho He. unfold finished. apply andb_true_iff. split.
  - apply reader_done_remaining.
    change (outR ?s) with (reader_of Stdout s).
    rewrite run_remaining. unfold remaining. simpl. lia.
  - apply reader_done_remaining.
    change (errR ?s) with (reader_of Stderr s).
    rewrite run_remaining. unfold remaining. simpl. lia.
Qed.

Lemma delivered_by_length cs :
  length cs = (length (delivered_by Stdout cs) + length (delivered_by Stderr cs))%nat.
Proof.
  induction cs as [| [w s] cs IH]; simpl; [reflexivity |].
  destruct w; simpl; lia.
Qed.

(** Under every interleaving of the two reader goroutines, once both have
    finished, the callback has received exactly the lines that the scanner of
    stderr yielded, each prefixed with "ERROR: ", and exactly the lines that
    the scanner of stdout yielded, verbatim, each stream in order and nothing
    else; the [Output] and [Error] blobs of the result hold the unprefixed
    lines, each followed by a newline. *)
Lemma Execute_delivers_scanned_lines (p : Process) (sched : list Stream)
    (res : ExecuteResult) :
  finished (run true sched (start_readers p)) = true ->
  Execute_collect p (run true sched (start_readers p)) = Some res ->
  delivered_by Stderr (calls (run true sched (start_readers p)))
    = map (fun line => "ERROR: " +:+ line) (stderr_lines p) /\
  delivered_by Stdout (calls (run true sched (start_readers p))) = stdout_lines p /\
  length (calls (run true sched (start_readers p)))
    = (length (stdout_lines p) + length (stderr_lines p))%nat /\
  Output res = blob (stdout_lines p) /\
  Error res = blob (stderr_lines p).
Proof.
  intros Hfin Hres.
  destruct (run_inv true p sched _ (start_inv true p)) as [Ho He].
  apply andb_true_iff in Hfin as [Hdo Hde].
  destruct (reader_done_inv _ _ _ _ _ Ho Hdo) as (Hbo & Hco & _).
  destruct (reader_done_inv _ _ _ _ _ He Hde) as (Hbe & Hce & _).
  specialize (Hco eq_refl). specialize (Hce eq_refl).
  assert (Hid : map (callback_arg Stdout) (stdout_lines p) = stdout_lines p).
  { clear. induction (stdout_lines p) as [| l ls IH]; simpl; [reflexivity | now rewrite IH]. }
  rewrite Hid in Hco.
  split; [exact Hce |]. split; [exact Hco |]. split.
  - rewrite delivered_by_length, Hco, Hce. now rewrite length_map.
  - unfold Execute_collect in Hres.
    destruct (wait p); inversion Hres; subst; simpl; auto.
Qed.

(** When the process writes less than the scanner's buffer holds and the
    reader obtains all of it, the scanner yields every complete line of the
    output, in order, followed at most by the bytes after the last line
    feed. *)
Lemma scan_short_output (data : string) : forall token,
  (String.length data + length token < MaxScanTokenSize)%nat ->
  exists tail, scan data token = complete data token ++ tail.
Proof.
  induction data as [| c data IH]; intros token Hlen.
  - eexists. simpl. reflexivity.
  - cbn [scan complete]. cbn [String.length] in Hlen.
    destruct (decide (c = LF)).
    + rewrite decide_True by lia.
      destruct (IH [] ltac:(cbn [length]; lia)) as [tail Htail].
      exists tail. now rewrite Htail.
    + apply IH. cbn [length]. lia.
Qed.

(** A token that has outgrown the buffer ends the scan. *)
Lemma scan_too_long (data : string) : forall token,
  (MaxScanTokenSize <= length token)%nat -> scan data token = [].
Proof.
  induction data as [| c data IH]; intros token Hlen; cbn [scan].
  - destruct token; [reflexivity |]. now rewrite decide_False by lia.
  - destruct (decide (c = LF)).
    + now rewrite decide_False by lia.
    + apply IH. cbn [length]. lia.
Qed.

(** A script that prints one line of [MaxScanTokenSize] characters and then
    the line "done", for instance
    [head -c 65536 /dev/zero | tr '\0' x; echo; echo done]. *)
Definition long_line : string :=
  String.string_of_list_ascii (replicate MaxScanTokenSize (Ascii.ascii_of_nat 120)).

Definition long_output : string := long_line +:+ newline +:+ "done" +:+ newline.

(** The process of that script, whose readers obtain everything it wrote. *)
Definition long_process : Process :=
  {| stdout_written := long_output;
     stderr_written := "";
     stdout_read := String.length long_output;
     stderr_read := 0;
     wait := WaitOk;
     elapsed := 1000 |}.

(** A process that writes two short lines and exits; [cmd.Wait] closes the
    pipe when the reader of stdout has obtained the first four bytes. *)
Definition cut_process : Process :=
  {| stdout_written := "one" +:+ newline +:+ "two" +:+ newline;
     stderr_written := "";
     stdout_read := 4;
     stderr_read := 0;
     wait := WaitOk;
     elapsed := 1000 |}.

Lemma run_nothing_to_read hasCallback (p : Process) (sched : list Stream) :
  stdout_lines p = [] -> stderr_lines p = [] ->
  run hasCallback sched (start_readers p) = start_readers p.
Proof.
  intros Ho He. unfold start_readers. rewrite Ho, He.
  induction sched as [| [|] sched IH]; [reflexivity | exact IH | exact IH].
Qed.

Lemma substring_all (s : string) : String.substring 0 (String.length s) s = s.
Proof. induction s as [| c s IH]; simpl; [reflexivity | now rewrite IH]. Qed.

Lemma scan_plain (l : list Ascii.ascii) (data : string) : forall token,
  LF ∉ l ->
  scan (String.string_of_list_ascii l +:+ data) token = scan data (reverse l ++ token).
Proof.
  induction l as [| c l IH]; intros token Hl; [reflexivity |].
  cbn [String.string_of_list_ascii]. rewrite append_cons. cbn [scan].
  rewrite decide_False by (intros ->; apply Hl; left).
  rewrite IH by (intros Hin; apply Hl; now right).
  now rewrite reverse_cons, <- app_assoc.
Qed.

Lemma complete_plain (l : list Ascii.ascii) (data : string) : forall token,
  LF ∉ l ->
  complete (String.string_of_list_ascii l +:+ data) token
    = complete data (reverse l ++ token).
Proof.
  induction l as [| c l IH]; intros token Hl; [reflexivity |].
  cbn [String.string_of_list_ascii]. rewrite append_cons. cbn [complete].
  rewrite decide_False by (intros ->; apply Hl; left).
  rewrite IH by (intros Hin; apply Hl; now right).
  now rewrite reverse_cons, <- app_assoc.
Qed.

Lemma dropCR_replicate (n : nat) (x : Ascii.ascii) :
  x <> CR -> dropCR (replicate n x) = String.string_of_list_ascii (replicate n x).
Proof.
  intros Hx. destruct n as [| n]; [reflexivity |].
  cbn [replicate dropCR]. rewrite decide_False by exact Hx.
  change (x :: replicate n x) with (replicate (S n) x).
  now rewrite reverse_replicate.
Qed.

Lemma long_line_plain : LF ∉ replicate MaxScanTokenSize (Ascii.ascii_of_nat 120).
Proof. intros [E _]%elem_of_replicate. discriminate E. Qed.

(** C8: a script prints a line of 65536 characters and then the line "done",
    and the readers obtain all of it. Both are complete lines of stdout, yet
    under every interleaving of the readers the callback is never called,
    the [Output] blob is empty, and [Execute] reports success with exit
    code 0: the scanner gave up at the long line and its error is never
    read. *)
Theorem Execute_drops_long_line (sched : list Stream) :
  complete_lines (stdout_written long_process) = [long_line; "done"] /\
  stdout_read long_process = String.length (stdout_written long_process) /\
  finished (run true sched (start_readers long_process)) = true /\
  calls (run true sched (start_readers long_process)) = [] /\
  Execute_collect long_process (run true sched (start_readers long_process))
    = Some (mkResult 0 "" "" 1000).
Proof.
  assert (Ho : stdout_lines long_process = []).
  { unfold stdout_lines, long_process. cbn [stdout_read stdout_written].
    rewrite substring_all. unfold Scanner_lines, long_output, long_line.
    rewrite scan_plain by exact long_line_plain.
    apply scan_too_long.
    rewrite length_app, length_reverse, length_replicate. lia. }
  assert (He : stderr_lines long_process = []).
  { unfold stderr_lines, long_process. cbn [stderr_read stderr_written]. reflexivity. }
  rewrite (run_nothing_to_read true _ sched Ho He).
  split.
  { unfold long_process. cbn [stdout_written].
    unfold complete_lines, long_output, long_line.
    rewrite complete_plain by exact long_line_plain.
    unfold newline at 1. rewrite append_cons. cbn [complete].
    rewrite decide_True by reflexivity.
    rewrite app_nil_r, reverse_replicate, dropCR_replicate by discriminate.
    f_equal. }
  split; [unfold long_process; cbn [stdout_read stdout_written]; reflexivity |].
  unfold start_readers. rewrite Ho, He.
  split; [reflexivity |]. split; reflexivity.
Qed.

(** The readers race with [cmd.Wait]: when the pipe is closed after four
    bytes, the complete line "two" is delivered to nobody. *)
Lemma Execute_loses_unread_tail (sched : list Stream) :
  finished (run true sched (start_readers cut_process)) = true ->
  complete_lines (stdout_written cut_process) = ["one"; "two"] /\
  delivered_by Stdout (calls (run true sched (start_readers cut_process))) = ["one"] /\
  builder (outR (run true sched (start_readers cut_process))) = "one" +:+ newline.
Proof.
  intros Hfin.
  destruct (run_inv true cut_process sched _ (start_inv true cut_process)) as [Ho _].
  apply andb_true_iff in Hfin as [Hdo _].
  destruct (reader_done_inv _ _ _ _ _ Ho Hdo) as (Hb & Hc & _).
  split; [vm_compute; reflexivity |].
  split; [rewrite (Hc eq_refl); vm_compute; reflexivity |].
  rewrite Hb. vm_compute. reflexivity.
Qed.

(** Without a callback nothing is delivered and the blobs are the same. *)
Lemma Execute_no_callback (p : Process) (sched : list Stream) :
  finished (run false sched (start_readers p)) = true ->
  calls (run false sched (start_readers p)) = [] /\
  builder (outR (run false sched (start_readers p))) = blob (stdout_lines p) /\
  builder (errR (run false sched (start_readers p))) = blob (stderr_lines p).
Proof.
  intros Hfin.
  destruct (run_inv false p sched _ (start_inv false p)) as [Ho He].
  apply andb_true_iff in Hfin as [Hdo Hde].
  destruct (reader_done_inv _ _ _ _ _ Ho Hdo) as (Hbo & _ & Hno).
  destruct (reader_done_inv _ _ _ _ _ He Hde) as (Hbe & _ & Hne).
  repeat split; try assumption.
  pose proof (delivered_by_length (calls (run false sched (start_readers p)))) as Hl.
  rewrite (Hno eq_refl), (Hne eq_refl) in Hl. simpl in Hl.
  destruct (calls (run false sched (start_readers p))); [reflexivity | discriminate].
Qed.

(** *** The readers at any point of a run *)

(** What a reader has consumed so far: it is in the builder, and all of it
    except a pending line has been delivered. *)
Definition reader_progress (hasCallback : bool) (who : Stream) (lines : list string)
    (r : Reader) (cs : list (Stream * string)) : Prop :=
  exists consumed,
    lines = consumed ++ rest r /\
    builder r = blob consumed /\
    (hasCallback = true ->
       delivered_by who cs ++ map (callback_arg who) (opt_list (pending r))
         = map (callback_arg who) consumed).

Lemma blob_app (a b : list string) : blob (a ++ b) = blob a +:+ blob b.
Proof.
  induction a as [| l a IH]; simpl; [reflexivity |].
  rewrite IH. symmetry. apply append_assoc.
Qed.

Lemma reader_action_progress_self hasCallback who lines r cs :
  reader_progress hasCallback who lines r cs ->
  reader_progress hasCallback who lines
    (fst (reader_action hasCallback who r cs)) (snd (reader_action hasCallback who r cs)).
Proof.
  intros (consumed & Hl & Hb & Hc). unfold reader_action.
  destruct r as [rs [line |] b]; simpl in *.
  - exists consumed. split; [exact Hl |]. split; [exact Hb |].
    intros ->. specialize (Hc eq_refl). rewrite delivered_by_app. simpl.
    destruct (decide (who = who)); [| congruence].
    rewrite app_nil_r. exact Hc.
  - destruct rs as [| line more]; simpl.
    + exists consumed. split; [exact Hl |]. split; [exact Hb |]. exact Hc.
    + exists (consumed ++ [line]). split; [rewrite <- app_assoc; exact Hl |].
      split.
      * rewrite blob_app, Hb. simpl. now rewrite append_nil_r.
      * intros Ht. specialize (Hc Ht). rewrite app_nil_r in Hc.
        rewrite map_app, Hc. reflexivity.
Qed.

Lemma reader_action_progress_other hasCallback who other lines r r' cs :
  who <> other ->
  reader_progress hasCallback other lines r' cs ->
  reader_progress hasCallback other lines r' (snd (reader_action hasCallback who r cs)).
Proof.
  intros Hne (consumed & Hl & Hb & Hc). exists consumed.
  split; [exact Hl |]. split; [exact Hb |].
  intros Ht. specialize (Hc Ht). unfold reader_action.
  destruct (pending r) as [line |]; simpl.
  - subst hasCallback. rewrite delivered_by_app. simpl.
    destruct (decide (who = other)); [congruence |].
    rewrite app_nil_r. exact Hc.
  - destruct (rest r); simpl; exact Hc.
Qed.

Lemma run_progress hasCallback p sched : forall st,
  reader_progress hasCallback Stdout (stdout_lines p) (outR st) (calls st) ->
  reader_progress hasCallback Stderr (stderr_lines p) (errR st) (calls st) ->
  reader_progress hasCallback Stdout (stdout_lines p)
    (outR (run hasCallback sched st)) (calls (run hasCallback sched st)) /\
  reader_progress hasCallback Stderr (stderr_lines p)
    (errR (run hasCallback sched st)) (calls (run hasCallback sched st)).
Proof.
  induction sched as [| who sched IH]; simpl; intros st Ho He; [split; assumption |].
  apply IH; unfold step; destruct who.
  - pose proof (reader_action_progress_self _ _ _ _ _ Ho) as H1.
    destruct (reader_action hasCallback Stdout (outR st) (calls st)); exact H1.
  - pose proof (reader_action_progress_other hasCallback Stderr Stdout _ (errR st) _ _
                  ltac:(discriminate) Ho) as H2.
    destruct (reader_action hasCallback Stderr (errR st) (calls st)); exact H2.
  - pose proof (reader_action_progress_other hasCallback Stdout Stderr _ (outR st) _ _
                  ltac:(discriminate) He) as H2.
    destruct (reader_action hasCallback Stdout (outR st) (calls st)); exact H2.
  - pose proof (reader_action_progress_self _ _ _ _ _ He) as H1.
    destruct (reader_action hasCallback Stderr (errR st) (calls st)); exact H1.
Qed.

Lemma map_callback_Stdout lines : map (callback_arg Stdout) lines = lines.
Proof. induction lines as [| l ls IH]; simpl; [reflexivity | now rewrite IH]. Qed.


(** *** The interpreter of a temporary script *)

(** [strings.HasSuffix]. *)
Definition HasSuffix (s suffix : string) : bool :=
  (String.length suffix <=? String.length s)%nat &&
  bool_decide (String.substring (String.length s - String.length suffix)
                 (String.length suffix) s = suffix).

(** The name [createTempScript] returns: [os.CreateTemp] puts a random string
    in place of the star of "script_*.sh" or "script_*.ps1"; the extension is
    ".ps1" when the OS variable names Windows. *)
Definition tempScriptName (windows : bool) (prefix random : string) : string :=
  prefix +:+ "script_" +:+ random +:+ (if windows then ".ps1" else ".sh").

(** How [Execute] and [StreamExecute] start the script file. *)
Inductive Interpreter : Type := Bash | PowerShell | Direct.

Definition interpreterFor (scriptFile : string) : Interpreter :=
  if HasSuffix scriptFile ".sh" then Bash
  else if HasSuffix scriptFile ".ps1" then PowerShell
  else Direct.

Lemma length_append (a b : string) :
  String.length (a +:+ b) = (String.length a + String.length b)%nat.
Proof.
  induction a as [| x a IH]; [reflexivity |].
  rewrite append_cons. simpl. now rewrite IH.
Qed.

Lemma substring_skip (a b : string) (k n : nat) :
  String.substring (String.length a + k) n (a +:+ b) = String.substring k n b.
Proof.
  induction a as [| x a IH]; [reflexivity |].
  rewrite append_cons. simpl. exact IH.
Qed.

Lemma HasSuffix_ext (a ext suffix : string) :
  (String.length suffix <= String.length ext)%nat ->
  HasSuffix (a +:+ ext) suffix = HasSuffix ext suffix.
Proof.
  intros Hlen. unfold HasSuffix. rewrite length_append.
  assert (Hle : (String.length suffix <=? String.length ext)%nat = true)
    by (apply Nat.leb_le; lia).
  assert (Hle' : (String.length suffix <=? String.length a + String.length ext)%nat = true)
    by (apply Nat.leb_le; lia).
  rewrite Hle, Hle'. simpl.
  replace (String.length a + String.length ext - String.length suffix)%nat
    with (String.length a + (String.length ext - String.length suffix))%nat by lia.
  now rewrite substring_skip.
Qed.

(** A script written by [createTempScript] is never started directly: it is
    run by PowerShell when the file was created on Windows and by bash
    otherwise, whatever the directory and the random part of its name. *)
Theorem temp_script_interpreter (windows : bool) (prefix random : string) :
  interpreterFor (tempScriptName windows prefix random)
    = if windows then PowerShell else Bash.
Proof.
  unfold interpreterFor, tempScriptName.
  rewrite <- !append_assoc.
  destruct windows.
  - rewrite (HasSuffix_ext _ ".ps1" ".sh") by (simpl; lia).
    rewrite (HasSuffix_ext _ ".ps1" ".ps1") by (simpl; lia). reflexivity.
  - rewrite (HasSuffix_ext _ ".sh" ".sh") by (simpl; lia). reflexivity.
Qed.

End Scripts.

(* ===================================================================== *)
(** ** pkg/scheduler: the job registry over the cron engine               *)
(* ===================================================================== *)

Module Scheduler.

(** Go's [error]: [None] is [nil]. *)
Definition error : Type := option string.

Section WithCron.

(** The job functions ([func()]) and the cron expression parser belong to
    the caller and to the cron library; the scheduler only passes them on. *)
Context {Cmd : Type}.
Variable parse_error : string -> error.

(** An expression is a cron spec when the parser accepts it. *)
Definition parses (spec : string) : Prop := parse_error spec = None.

(** [cron.EntryID] is a Go [int] that the cron engine increments once per
    registration; it is kept unbounded here. *)
Definition EntryID : Type := Z.

Record Entry : Type := mkEntry {
  ID : EntryID;
  Spec : string;
  Job : Cmd
}.

(** The cron engine ([cron.Cron]) as the scheduler uses it: the active
    entries, the running flag and the last entry id handed out. *)
Record Cron : Type := mkCron {
  entries : list Entry;
  cronRunning : bool;
  nextID : EntryID
}.

Definition cron_New : Cron := mkCron [] false 0.

Definition cron_Start (c : Cron) : Cron := mkCron (entries c) true (nextID c).
Definition cron_Stop (c : Cron) : Cron := mkCron (entries c) false (nextID c).

(** [Remove] drops the entry with the given id, if any. *)
Definition cron_Remove (id : EntryID) (c : Cron) : Cron :=
  mkCron (filter (fun e => ID e <> id) (entries c)) (cronRunning c) (nextID c).

(** [AddFunc] parses the expression first; on a parse error nothing is
    registered, otherwise the entry gets the next id. *)
Definition cron_AddFunc (spec : string) (cmd : Cmd) (c : Cron)
    : (EntryID * error) * Cron :=
  match parse_error spec with
  | Some err => ((0, Some err), c)
  | None =>
      let id := nextID c + 1 in
      ((id, None), mkCron (entries c ++ [mkEntry id spec cmd]) (cronRunning c) id)
  end.

(** [Entry] looks an id up; the zero entry of the library is [None] here. *)
Definition cron_Entry (id : EntryID) (c : Cron) : option Entry :=
  head (filter (fun e => ID e = id) (entries c)).

Record Scheduler : Type := mkScheduler {
  cron : Cron;
  ctxCancelled : bool;
  running : bool;
  jobs : gmap string EntryID
}.

Definition NewScheduler : Scheduler := mkScheduler cron_New false false ∅.

Definition Start (s : Scheduler) : error * Scheduler :=
  if running s then (Some "scheduler is already running", s)
  else (None, mkScheduler (cron_Start (cron s)) (ctxCancelled s) true (jobs s)).

Definition Stop (s : Scheduler) : error * Scheduler :=
  if negb (running s) then (Some "scheduler is not running", s)
  else (None, mkScheduler (cron_Stop (cron s)) true false (jobs s)).

Definition AddJob (jobID spec : string) (cmd : Cmd) (s : Scheduler) : error * Scheduler :=
  let c :=
    match jobs s !! jobID with
    | Some entryID => cron_Remove entryID (cron s)
    | None => cron s
    end in
  match cron_AddFunc spec cmd c with
  | ((_, Some err), c') =>
      (Some ("failed to add job " +:+ jobID +:+ ": " +:+ err),
       mkScheduler c' (ctxCancelled s) (running s) (jobs s))
  | ((entryID, None), c') =>
      (None, mkScheduler c' (ctxCancelled s) (running s) (<[jobID := entryID]> (jobs s)))
  end.

Definition RemoveJob (jobID : string) (s : Scheduler) : error * Scheduler :=
  match jobs s !! jobID with
  | None => (Some ("job " +:+ jobID +:+ " not found"), s)
  | Some entryID =>
      (None, mkScheduler (cron_Remove entryID (cron s)) (ctxCancelled s) (running s)
               (delete jobID (jobs s)))
  end.

Definition IsRunning (s : Scheduler) : bool := running s.
Definition GetJobCount (s : Scheduler) : nat := size (jobs s).

(** The active cron entries that the registry holds under [jobID]. *)
Definition entries_of (jobID : string) (s : Scheduler) : list Entry :=
  filter (fun e => jobs s !! jobID = Some (ID e)) (entries (cron s)).

(** The calls of the scheduler's interface that change it. *)
Inductive Call : Type :=
  | CallStart
  | CallStop
  | CallAddJob (jobID spec : string) (cmd : Cmd)
  | CallRemoveJob (jobID : string).

Definition call (c : Call) (s : Scheduler) : error * Scheduler :=
  match c with
  | CallStart => Start s
  | CallStop => Stop s
  | CallAddJob jobID spec cmd => AddJob jobID spec cmd s
  | CallRemoveJob jobID => RemoveJob jobID s
  end.

Inductive reachable : Scheduler -> Prop :=
  | reach_new : reachable NewScheduler
  | reach_call c s : reachable s -> reachable (snd (call c s)).

(** Every active entry is held by some job, no two jobs hold the same entry,
    and entry ids are distinct and already handed out. *)
Record sched_inv (s : Scheduler) : Prop := mkInv {
  inv_nodup : NoDup (ID <$> entries (cron s));
  inv_entries_old : forall e, e ∈ entries (cron s) -> ID e <= nextID (cron s);
  inv_jobs_old : forall j id, jobs s !! j = Some id -> id <= nextID (cron s);
  inv_owned : forall e, e ∈ entries (cron s) -> exists j, jobs s !! j = Some (ID e);
  inv_inj : forall j1 j2 id, jobs s !! j1 = Some id -> jobs s !! j2 = Some id -> j1 = j2
}.

(** *** The registry invariant *)

Lemma elem_of_cron_Remove e id c :
  e ∈ entries (cron_Remove id c) <-> ID e <> id /\ e ∈ entries c.
Proof.
  unfold cron_Remove. simpl.
  apply (list_elem_of_filter (fun e => ID e <> id)).
Qed.

Lemma cron_Remove_nodup id c :
  NoDup (ID <$> entries c) -> NoDup (ID <$> entries (cron_Remove id c)).
Proof.
  intros H. eapply sublist_NoDup; [exact H |].
  unfold cron_Remove. simpl. apply fmap_sublist, sublist_filter.
Qed.

Lemma NewScheduler_inv : sched_inv NewScheduler.
Proof.
  split; simpl.
  - constructor.
  - intros e He. inversion He.
  - intros j id H. rewrite lookup_empty in H. discriminate.
  - intros e He. inversion He.
  - intros j1 j2 id H. rewrite lookup_empty in H. discriminate.
Qed.

Lemma Start_inv s : sched_inv s -> sched_inv (snd (Start s)).
Proof.
  intros [H1 H2 H3 H4 H5]. unfold Start.
  destruct (running s); simpl; split; simpl; assumption.
Qed.

Lemma Stop_inv s : sched_inv s -> sched_inv (snd (Stop s)).
Proof.
  intros [H1 H2 H3 H4 H5]. unfold Stop.
  destruct (running s); simpl; split; simpl; assumption.
Qed.

Lemma RemoveJob_inv jobID s : sched_inv s -> sched_inv (snd (RemoveJob jobID s)).
Proof.
  intros [H1 H2 H3 H4 H5]. unfold RemoveJob.
  destruct (jobs s !! jobID) as [id |] eqn:Hj; simpl; [| split; assumption].
  split; simpl.
  - apply cron_Remove_nodup, H1.
  - intros e He. apply list_elem_of_filter in He as [_ He]. auto.
  - intros j id' Hl. apply lookup_delete_Some in Hl as [_ Hl]. eauto.
  - intros e He. apply list_elem_of_filter in He as [Hne He].
    destruct (H4 e He) as [j Hl]. exists j.
    rewrite lookup_delete_ne; [exact Hl |].
    intros ->. rewrite Hj in Hl. congruence.
  - intros j1 j2 id' Hl1 Hl2.
    apply lookup_delete_Some in Hl1 as [_ Hl1].
    apply lookup_delete_Some in Hl2 as [_ Hl2]. eauto.
Qed.

(** The cron state in which [AddJob] registers the new function. *)
Definition without_job (jobID : string) (s : Scheduler) : Cron :=
  match jobs s !! jobID with
  | Some entryID => cron_Remove entryID (cron s)
  | None => cron s
  end.

Lemma without_job_nextID jobID s : nextID (without_job jobID s) = nextID (cron s).
Proof. unfold without_job. destruct (jobs s !! jobID); reflexivity. Qed.

Lemma elem_of_without_job jobID s e :
  e ∈ entries (without_job jobID s) <->
  e ∈ entries (cron s) /\ jobs s !! jobID <> Some (ID e).
Proof.
  unfold without_job. destruct (jobs s !! jobID) as [id |] eqn:Hj.
  - rewrite elem_of_cron_Remove. split.
    + intros [Hne He]. split; [exact He | congruence].
    + intros [He Hne]. split; [congruence | exact He].
  - split; [intros He; split; [exact He | discriminate] | tauto].
Qed.

Lemma without_job_nodup jobID s :
  NoDup (ID <$> entries (cron s)) -> NoDup (ID <$> entries (without_job jobID s)).
Proof.
  unfold without_job. destruct (jobs s !! jobID); [apply cron_Remove_nodup | auto].
Qed.

Lemma AddJob_ok jobID spec cmd s :
  parses spec ->
  AddJob jobID spec cmd s =
    (None,
     mkScheduler
       (mkCron (entries (without_job jobID s) ++ [mkEntry (nextID (cron s) + 1) spec cmd])
               (cronRunning (without_job jobID s)) (nextID (cron s) + 1))
       (ctxCancelled s) (running s)
       (<[jobID := nextID (cron s) + 1]> (jobs s))).
Proof.
  intros Hp. unfold AddJob. fold (without_job jobID s).
  unfold cron_AddFunc. rewrite Hp. rewrite without_job_nextID. reflexivity.
Qed.

Lemma AddJob_err jobID spec cmd s err :
  parse_error spec = Some err ->
  AddJob jobID spec cmd s =
    (Some ("failed to add job " +:+ jobID +:+ ": " +:+ err),
     mkScheduler (without_job jobID s) (ctxCancelled s) (running s) (jobs s)).
Proof.
  intros Hp. unfold AddJob. fold (without_job jobID s).
  unfold cron_AddFunc. rewrite Hp. reflexivity.
Qed.

Lemma AddJob_inv jobID spec cmd s : sched_inv s -> sched_inv (snd (AddJob jobID spec cmd s)).
Proof.
  intros [H1 H2 H3 H4 H5].
  destruct (parse_error spec) as [err |] eqn:Hp.
  - rewrite (AddJob_err _ _ _ _ _ Hp). simpl. split; simpl.
    + apply without_job_nodup, H1.
    + intros e He. rewrite without_job_nextID.
      apply elem_of_without_job in He as [He _]. auto.
    + intros j id. rewrite without_job_nextID. apply H3.
    + intros e He. apply elem_of_without_job in He as [He _]. auto.
    + exact H5.
  - rewrite (AddJob_ok _ _ _ _ Hp). simpl. split; simpl.
    + rewrite fmap_app. apply NoDup_app. split; [apply without_job_nodup, H1 |].
      split; [| simpl; apply NoDup_singleton].
      intros id Hid Hin. simpl in Hin. apply list_elem_of_singleton in Hin. subst id.
      apply list_elem_of_fmap in Hid as (e & He1 & He2).
      apply elem_of_without_job in He2 as [He2 _].
      specialize (H2 e He2). lia.
    + intros e He. apply elem_of_app in He as [He | He].
      * apply elem_of_without_job in He as [He _]. specialize (H2 e He). lia.
      * apply list_elem_of_singleton in He. subst e. simpl. lia.
    + intros j id Hl. destruct (decide (jobID = j)) as [-> | Hne].
      * rewrite lookup_insert_eq in Hl. inversion Hl. lia.
      * rewrite lookup_insert_ne in Hl by exact Hne. specialize (H3 j id Hl). lia.
    + intros e He. apply elem_of_app in He as [He | He].
      * apply elem_of_without_job in He as [He Hne].
        destruct (H4 e He) as [j Hl]. exists j.
        rewrite lookup_insert_ne; [exact Hl |]. intros ->. contradiction.
      * apply list_elem_of_singleton in He. subst e. simpl.
        exists jobID. apply lookup_insert_eq.
    + intros j1 j2 id Hl1 Hl2.
      destruct (decide (jobID = j1)) as [-> | Hn1];
        destruct (decide (j1 = j2)) as [E2 | Hn2]; try (subst; congruence).
      * rewrite lookup_insert_eq in Hl1. inversion Hl1; subst id.
        rewrite lookup_insert_ne in Hl2 by exact Hn2.
        specialize (H3 _ _ Hl2). lia.
      * rewrite lookup_insert_ne in Hl1 by exact Hn1.
        destruct (decide (jobID = j2)) as [-> | Hn3].
        -- rewrite lookup_insert_eq in Hl2. inversion Hl2; subst id.
           specialize (H3 _ _ Hl1). lia.
        -- rewrite lookup_insert_ne in Hl2 by exact Hn3. eauto.
Qed.

Lemma call_inv c s : sched_inv s -> sched_inv (snd (call c s)).
Proof.
  destruct c; simpl;
    [apply Start_inv | apply Stop_inv | apply AddJob_inv | apply RemoveJob_inv].
Qed.

Lemma sched_reachable_inv s : reachable s -> sched_inv s.
Proof.
  induction 1 as [| c s _ IH]; [apply NewScheduler_inv | apply call_inv, IH].
Qed.

Lemma filter_none {A} (P : A -> Prop) `{forall x, Decision (P x)} (l : list A) :
  (forall x, x ∈ l -> ~ P x) -> filter P l = [].
Proof.
  induction l as [| x l IH]; intros Hl; [reflexivity |].
  rewrite filter_cons_False by (apply Hl; left).
  apply IH. intros y Hy. apply Hl. now right.
Qed.

(** *** Replacing a job *)

(** C5: in every state of the scheduler that satisfies the registry
    invariant (in particular in every reachable state), for every job id,
    every [spec] and every cron spec [spec'] (an expression the parser
    accepts), [AddJob id spec fn] followed by [AddJob id spec' fn'] succeeds
    and leaves exactly one active cron entry registered under [id]; that
    entry carries [spec'] and [fn']. Every other active entry is held by
    another job id, whose registration is untouched. Each call is one atomic
    transition of the scheduler state (it runs under [s.mu]). *)
Theorem AddJob_twice_one_entry (jobID spec spec' : string) (cmd cmd' : Cmd) (s : Scheduler) :
  sched_inv s ->
  parses spec' ->
  let s1 := snd (AddJob jobID spec cmd s) in
  let r := AddJob jobID spec' cmd' s1 in
  fst r = None /\
  exists id,
    jobs (snd r) !! jobID = Some id /\
    entries_of jobID (snd r) = [mkEntry id spec' cmd'] /\
    cron_Entry id (cron (snd r)) = Some (mkEntry id spec' cmd') /\
    (forall e, e ∈ entries (cron (snd r)) -> e <> mkEntry id spec' cmd' ->
       exists j, j <> jobID /\ jobs (snd r) !! j = Some (ID e) /\ jobs s !! j = Some (ID e)) /\
    (forall j, j <> jobID -> jobs (snd r) !! j = jobs s !! j).
Proof.
  intros Hinv Hp s1 r.
  assert (Hinv1 : sched_inv s1) by (apply AddJob_inv, Hinv).
  assert (Hjobs1 : forall j, j <> jobID -> jobs s1 !! j = jobs s !! j).
  { intros j Hj. unfold s1. destruct (parse_error spec) as [err |] eqn:Hps.
    - rewrite (AddJob_err _ _ _ _ _ Hps). reflexivity.
    - rewrite (AddJob_ok _ _ _ _ Hps). simpl. now rewrite lookup_insert_ne. }
  unfold r. rewrite (AddJob_ok _ _ _ _ Hp). simpl.
  split; [reflexivity |].
  exists (nextID (cron s1) + 1).
  assert (Hold : forall e, e ∈ entries (without_job jobID s1) -> ID e <> nextID (cron s1) + 1).
  { intros e He. apply elem_of_without_job in He as [He _].
    pose proof (inv_entries_old _ Hinv1 e He). lia. }
  split; [apply lookup_insert_eq |]. split; [| split; [| split]].
  - unfold entries_of. simpl. rewrite filter_app, lookup_insert_eq.
    rewrite filter_none.
    + simpl. rewrite filter_cons_True by reflexivity. reflexivity.
    + intros e He Heq. apply (Hold e He). congruence.
  - unfold cron_Entry. simpl. rewrite filter_app.
    rewrite filter_none by exact Hold.
    simpl. rewrite filter_cons_True by reflexivity. reflexivity.
  - intros e He Hne. apply elem_of_app in He as [He | He].
    + apply elem_of_without_job in He as [He Hnj].
      destruct (inv_owned _ Hinv1 e He) as [j Hl].
      assert (Hj : j <> jobID) by (intros ->; contradiction).
      exists j. split; [exact Hj |]. split.
      * rewrite lookup_insert_ne by auto. exact Hl.
      * rewrite <- Hjobs1 by exact Hj. exact Hl.
    + apply list_elem_of_singleton in He. contradiction.
  - intros j Hj. rewrite lookup_insert_ne by auto. apply Hjobs1, Hj.
Qed.

(** What the registry looks like when the replacement is refused: the call
    returns the parser's error, the old entry has already been removed from
    the cron engine, and the registry still lists the job under the removed
    entry's id. *)
Lemma AddJob_refused_replacement jobID spec' cmd' id err s :
  jobs s !! jobID = Some id ->
  parse_error spec' = Some err ->
  fst (AddJob jobID spec' cmd' s) = Some ("failed to add job " +:+ jobID +:+ ": " +:+ err) /\
  jobs (snd (AddJob jobID spec' cmd' s)) !! jobID = Some id /\
  entries_of jobID (snd (AddJob jobID spec' cmd' s)) = [].
Proof.
  intros Hj Hp. rewrite (AddJob_err _ _ _ _ _ Hp). simpl.
  split; [reflexivity |]. split; [exact Hj |].
  unfold entries_of. simpl. apply filter_none.
  intros e He Heq. apply elem_of_without_job in He as [_ Hne]. contradiction.
Qed.

(** *** Start and Stop *)

(** C10: [Start] returns an error exactly when the scheduler is already
    running and [Stop] exactly when it is not; a call that returns an error
    leaves the whole scheduler (running flag, registry, cron engine)
    unchanged; a successful call flips the running flag and leaves the job
    registry and the cron entries as they were (the cron engine is started or
    stopped along with the flag, and [Stop] cancels the scheduler's context). *)
Theorem Start_Stop_running_flag (s : Scheduler) :
  (is_Some (fst (Start s)) <-> running s = true) /\
  (is_Some (fst (Stop s)) <-> running s = false) /\
  (is_Some (fst (Start s)) -> snd (Start s) = s) /\
  (is_Some (fst (Stop s)) -> snd (Stop s) = s) /\
  (fst (Start s) = None ->
     running (snd (Start s)) = negb (running s) /\
     jobs (snd (Start s)) = jobs s /\
     entries (cron (snd (Start s))) = entries (cron s) /\
     nextID (cron (snd (Start s))) = nextID (cron s) /\
     ctxCancelled (snd (Start s)) = ctxCancelled s /\
     cronRunning (cron (snd (Start s))) = true) /\
  (fst (Stop s) = None ->
     running (snd (Stop s)) = negb (running s) /\
     jobs (snd (Stop s)) = jobs s /\
     entries (cron (snd (Stop s))) = entries (cron s) /\
     nextID (cron (snd (Stop s))) = nextID (cron s) /\
     ctxCancelled (snd (Stop s)) = true /\
     cronRunning (cron (snd (Stop s))) = false).
Proof.
  unfold Start, Stop.
  destruct (running s) eqn:Hr; simpl; repeat split;
    try reflexivity; try discriminate; try (intros [? ?]; discriminate);
    try (intros; eexists; reflexivity); try (intros; assumption).
Qed.

(** *** Removing jobs, and jobs under other ids *)

Lemma entries_of_without_job jobID j s :
  sched_inv s -> j <> jobID ->
  filter (fun e => jobs s !! j = Some (ID e)) (entries (without_job jobID s))
    = entries_of j s.
Proof.
  intros Hinv Hne. unfold without_job, entries_of.
  destruct (jobs s !! jobID) as [id |] eqn:Hj; [| reflexivity].
  unfold cron_Remove. simpl. apply list_filter_filter_l.
  intros e He Hid. apply Hne. apply (inv_inj _ Hinv j jobID id); congruence.
Qed.

Lemma AddJob_other_job jobID spec cmd j s :
  sched_inv s -> j <> jobID ->
  jobs (snd (AddJob jobID spec cmd s)) !! j = jobs s !! j /\
  entries_of j (snd (AddJob jobID spec cmd s)) = entries_of j s.
Proof.
  intros Hinv Hne. destruct (parse_error spec) as [err |] eqn:Hp.
  - rewrite (AddJob_err _ _ _ _ _ Hp). simpl. split; [reflexivity |].
    unfold entries_of at 1. simpl. apply entries_of_without_job; assumption.
  - rewrite (AddJob_ok _ _ _ _ Hp). simpl.
    split; [apply lookup_insert_ne; congruence |].
    unfold entries_of at 1. simpl.
    rewrite lookup_insert_ne by congruence.
    rewrite filter_app, entries_of_without_job by assumption.
    rewrite filter_cons_False, filter_nil; [apply app_nil_r |].
    simpl. intros Hj. pose proof (inv_jobs_old _ Hinv _ _ Hj). lia.
Qed.

Lemma RemoveJob_other_job jobID j s :
  sched_inv s -> j <> jobID ->
  jobs (snd (RemoveJob jobID s)) !! j = jobs s !! j /\
  entries_of j (snd (RemoveJob jobID s)) = entries_of j s.
Proof.
  intros Hinv Hne. unfold RemoveJob.
  destruct (jobs s !! jobID) as [id |] eqn:Hj; simpl; [| split; reflexivity].
  split; [apply lookup_delete_ne; congruence |].
  unfold entries_of at 1. simpl. rewrite lookup_delete_ne by congruence.
  pose proof (entries_of_without_job jobID j s Hinv Hne) as H.
  unfold without_job in H. rewrite Hj in H. exact H.
Qed.

(** In every reachable state, adding, replacing (also when the new
    expression is refused) or removing the job of one id leaves the
    registration and the active cron entries of every other id as they
    were. *)
Theorem jobs_are_isolated (c : Call) (jobID j : string) (s : Scheduler) :
  reachable s -> j <> jobID ->
  (exists spec cmd, c = CallAddJob jobID spec cmd) \/ c = CallRemoveJob jobID ->
  jobs (snd (call c s)) !! j = jobs s !! j /\
  entries_of j (snd (call c s)) = entries_of j s.
Proof.
  intros Hreach Hne Hc. pose proof (sched_reachable_inv _ Hreach) as Hinv.
  destruct Hc as [(spec & cmd & ->) | ->]; simpl.
  - apply AddJob_other_job; assumption.
  - apply RemoveJob_other_job; assumption.
Qed.

(** [RemoveJob] returns an error exactly when nothing is registered under
    the id, and then changes nothing. Otherwise, in a reachable state, the id
    is unregistered, none of the active cron entries belonged to it any more,
    and its former entry id no longer names an entry. *)
Theorem RemoveJob_unregisters (jobID : string) (s : Scheduler) :
  reachable s ->
  (is_Some (fst (RemoveJob jobID s)) <-> jobs s !! jobID = None) /\
  (jobs s !! jobID = None -> snd (RemoveJob jobID s) = s) /\
  (forall id, jobs s !! jobID = Some id ->
     jobs (snd (RemoveJob jobID s)) !! jobID = None /\
     cron_Entry id (cron (snd (RemoveJob jobID s))) = None /\
     (forall e, e ∈ entries (cron (snd (RemoveJob jobID s))) ->
        exists j, j <> jobID /\ jobs (snd (RemoveJob jobID s)) !! j = Some (ID e))).
Proof.
  intros Hreach. pose proof (sched_reachable_inv _ Hreach) as Hinv.
  unfold RemoveJob. destruct (jobs s !! jobID) as [id |] eqn:Hj; simpl.
  - split; [split; [intros [? ?]; discriminate | discriminate] |].
    split; [discriminate |].
    intros id' Hid. inversion Hid; subst id'.
    split; [apply lookup_delete_eq |]. split.
    + unfold cron_Entry, cron_Remove. simpl.
      rewrite filter_none; [reflexivity |].
      intros e He Heq. apply list_elem_of_filter in He as [Hne _]. contradiction.
    + intros e He. apply list_elem_of_filter in He as [Hne He].
      destruct (inv_owned _ Hinv e He) as [j Hl]. exists j.
      assert (Hjne : j <> jobID) by (intros ->; congruence).
      split; [exact Hjne |]. rewrite lookup_delete_ne by congruence. exact Hl.
  - split; [split; [reflexivity | intros _; eexists; reflexivity] |].
    split; [reflexivity | discriminate].
Qed.

(** Registering a job under a free id and removing it again restores the
    registry and the active cron entries; only the entry id counter has
    advanced. *)
Theorem AddJob_RemoveJob_round_trip (jobID spec : string) (cmd : Cmd) (s : Scheduler) :
  reachable s -> parses spec -> jobs s !! jobID = None ->
  fst (AddJob jobID spec cmd s) = None /\
  fst (RemoveJob jobID (snd (AddJob jobID spec cmd s))) = None /\
  jobs (snd (RemoveJob jobID (snd (AddJob jobID spec cmd s)))) = jobs s /\
  entries (cron (snd (RemoveJob jobID (snd (AddJob jobID spec cmd s))))) = entries (cron s) /\
  nextID (cron (snd (RemoveJob jobID (snd (AddJob jobID spec cmd s))))) = nextID (cron s) + 1 /\
  running (snd (RemoveJob jobID (snd (AddJob jobID spec cmd s)))) = running s.
Proof.
  intros Hreach Hp Hfree. pose proof (sched_reachable_inv _ Hreach) as Hinv.
  rewrite (AddJob_ok _ _ _ _ Hp). simpl.
  split; [reflexivity |].
  unfold RemoveJob. simpl. rewrite lookup_insert_eq. simpl.
  split; [reflexivity |].
  split; [rewrite delete_insert_eq; apply delete_id; exact Hfree |].
  split; [| split; reflexivity].
  unfold without_job. rewrite Hfree.
  rewrite filter_app, filter_cons_False, filter_nil by (simpl; lia).
  rewrite app_nil_r.
  clear -Hinv. pose proof (inv_entries_old _ Hinv) as Hold.
  induction (entries (cron s)) as [| e l IH]; [reflexivity |].
  rewrite filter_cons_True.
  - f_equal. apply IH. intros e' He'. apply Hold. now right.
  - pose proof (Hold e ltac:(left)). lia.
Qed.

(** In every reachable state no active cron entry is orphaned: there are at
    most as many active entries as registered job ids (fewer when a refused
    replacement has left an id registered without an entry). *)
Theorem entries_at_most_jobs (s : Scheduler) :
  reachable s -> (length (entries (cron s)) <= GetJobCount s)%nat.
Proof.
  intros Hreach. pose proof (sched_reachable_inv _ Hreach) as Hinv.
  unfold GetJobCount.
  rewrite <- (length_fmap ID (entries (cron s))).
  replace (size (jobs s)) with (length ((map_to_list (jobs s)).*2))
    by (rewrite length_fmap; apply length_map_to_list).
  apply submseteq_length, NoDup_submseteq; [apply (inv_nodup _ Hinv) |].
  intros id Hid. apply list_elem_of_fmap in Hid as (e & -> & He).
  destruct (inv_owned _ Hinv e He) as [j Hj].
  apply list_elem_of_fmap. exists (j, ID e). split; [reflexivity |].
  apply elem_of_map_to_list. exact Hj.
Qed.

(** *** The running flag, the cron engine and the context *)

Fixpoint run_calls (cs : list Call) (s : Scheduler) : Scheduler :=
  match cs with
  | [] => s
  | c :: cs' => run_calls cs' (snd (call c s))
  end.

Lemma call_cancelled c s : ctxCancelled s = true -> ctxCancelled (snd (call c s)) = true.
Proof.
  intros H. destruct c as [| | jobID spec cmd | jobID]; simpl.
  - unfold Start. destruct (running s); exact H.
  - unfold Stop. destruct (running s); simpl; [reflexivity | exact H].
  - unfold AddJob. destruct (cron_AddFunc _ _ _) as [[id [err |]] c']; exact H.
  - unfold RemoveJob. destruct (jobs s !! jobID); exact H.
Qed.

(** The scheduler's context is cancelled by the first successful [Stop] and
    never renewed: whatever is called afterwards, also a successful [Start],
    the scheduler keeps a cancelled context. *)
Theorem stopped_context_stays_cancelled (cs : list Call) (s : Scheduler) :
  fst (Stop s) = None ->
  ctxCancelled (run_calls cs (snd (Stop s))) = true /\
  fst (Start (snd (Stop s))) = None /\
  running (snd (Start (snd (Stop s)))) = true /\
  ctxCancelled (snd (Start (snd (Stop s)))) = true.
Proof.
  intros Hstop. unfold Stop in *. destruct (running s); simpl in *; [| discriminate].
  split; [| repeat split].
  set (s1 := mkScheduler _ _ _ _).
  assert (H1 : ctxCancelled s1 = true) by reflexivity.
  revert H1. generalize s1. clear.
  induction cs as [| c cs IH]; simpl; intros s1 H1; [exact H1 |].
  apply IH, call_cancelled, H1.
Qed.

(** In every reachable state the scheduler's running flag and the cron
    engine's agree. *)
Theorem running_flags_agree (s : Scheduler) :
  reachable s -> cronRunning (cron s) = running s.
Proof.
  induction 1 as [| c s _ IH]; [reflexivity |].
  destruct c as [| | jobID spec cmd | jobID]; simpl.
  - unfold Start. destruct (running s) eqn:E; simpl; [congruence | reflexivity].
  - unfold Stop. destruct (running s) eqn:E; simpl; [reflexivity | congruence].
  - destruct (parse_error spec) as [err |] eqn:Hp.
    + rewrite (AddJob_err _ _ _ _ _ Hp). simpl.
      unfold without_job. destruct (jobs s !! jobID); exact IH.
    + rewrite (AddJob_ok _ _ _ _ Hp). simpl.
      unfold without_job. destruct (jobs s !! jobID); exact IH.
  - unfold RemoveJob. destruct (jobs s !! jobID); exact IH.
Qed.

Lemma run_calls_reachable cs : forall s, reachable s -> reachable (run_calls cs s).
Proof.
  induction cs as [| c cs IH]; simpl; intros s Hs; [exact Hs |].
  apply IH. now apply reach_call.
Qed.

(** *** Pipeline jobs and the job listing *)

(** The fields of a pipeline that [AddPipelineJob] reads. *)
Record ScheduledPipeline : Type := mkScheduled {
  sp_ID : N;
  sp_Name : string;
  sp_CronExpr : string
}.

(** The function [AddPipelineJob] registers for a pipeline. *)
Variable pipelineFunc : ScheduledPipeline -> Cmd.

(** The times the cron engine keeps for an active entry: [Prev] and [Next],
    [None] when the time is zero. *)
Variable entry_Prev : Entry -> option Z.
Variable entry_Next : Entry -> option Z.

Definition pipelineJobID (pipelineID : N) : string := "pipeline_" +:+ pretty pipelineID.

Definition AddPipelineJob (pipeline : ScheduledPipeline) (s : Scheduler) : error * Scheduler :=
  if decide (sp_CronExpr pipeline = "") then (Some "pipeline cron expression is empty", s)
  else
    let jobID := pipelineJobID (sp_ID pipeline) in
    AddJob jobID (sp_CronExpr pipeline) (pipelineFunc pipeline) s.

Definition RemovePipelineJob (pipelineID : N) (s : Scheduler) : error * Scheduler :=
  RemoveJob (pipelineJobID pipelineID) s.

(** The scheduler's [Job] record, as [GetJobs] fills it. *)
Record JobInfo : Type := mkJobInfo {
  job_ID : string;
  job_Name : string;
  job_Spec : string;
  job_Func : option Cmd;
  job_Enabled : bool;
  job_LastRun : option Z;
  job_NextRun : option Z
}.

(** [GetJobs]: one record per registered id, in the iteration order of the
    map. [cron.Entry] of an id without an entry is the zero entry. *)
Definition GetJobs (s : Scheduler) : list JobInfo :=
  (fun kv : string * EntryID =>
     let entry := cron_Entry (snd kv) (cron s) in
     mkJobInfo (fst kv) (fst kv) "" None true (entry ≫= entry_Prev) (entry ≫= entry_Next))
  <$> map_to_list (jobs s).

Lemma pipelineJobID_inj a b : pipelineJobID a = pipelineJobID b -> a = b.
Proof.
  unfold pipelineJobID. intros H.
  apply (inj (String.append "pipeline_")) in H. apply (inj pretty) in H. exact H.
Qed.

Lemma pipelineJobID_not_cleanup a : pipelineJobID a <> "cleanup".
Proof. unfold pipelineJobID. intros H. inversion H. Qed.

(** Pipelines with different ids get different job ids, none of which is the
    id of the cleanup job. So, in every reachable state, scheduling or
    unscheduling a pipeline leaves the job of every other pipeline and the
    cleanup job registered as they were, with the same active entries; and a
    pipeline without a cron expression is refused without any change. *)
Theorem pipeline_jobs_do_not_collide (pipeline : ScheduledPipeline) (other : N)
    (s : Scheduler) :
  reachable s -> other <> sp_ID pipeline ->
  (forall j, j = pipelineJobID other \/ j = "cleanup" ->
     jobs (snd (AddPipelineJob pipeline s)) !! j = jobs s !! j /\
     entries_of j (snd (AddPipelineJob pipeline s)) = entries_of j s /\
     jobs (snd (RemovePipelineJob (sp_ID pipeline) s)) !! j = jobs s !! j /\
     entries_of j (snd (RemovePipelineJob (sp_ID pipeline) s)) = entries_of j s) /\
  (sp_CronExpr pipeline = "" ->
     AddPipelineJob pipeline s = (Some "pipeline cron expression is empty", s)).
Proof.
  intros Hreach Hne. pose proof (sched_reachable_inv _ Hreach) as Hinv. split.
  - intros j Hj.
    assert (Hjne : j <> pipelineJobID (sp_ID pipeline)).
    { destruct Hj as [-> | ->].
      - intros H. apply pipelineJobID_inj in H. contradiction.
      - intros H. symmetry in H. exact (pipelineJobID_not_cleanup _ H). }
    unfold AddPipelineJob, RemovePipelineJob.
    destruct (RemoveJob_other_job (pipelineJobID (sp_ID pipeline)) j s Hinv Hjne) as [R1 R2].
    destruct (decide (sp_CronExpr pipeline = "")).
    + simpl. repeat split; auto.
    + destruct (AddJob_other_job (pipelineJobID (sp_ID pipeline)) (sp_CronExpr pipeline)
                  (pipelineFunc pipeline) j s Hinv Hjne) as [A1 A2].
      repeat split; auto.
  - intros He. unfold AddPipelineJob. destruct (decide _); [reflexivity | contradiction].
Qed.

(** [GetJobs] lists every registered id exactly once and nothing else; each
    job is reported enabled, named by its id, with an empty spec and no
    function. An id whose cron entry is gone is still listed, without run
    times. *)
Theorem GetJobs_lists_registry (s : Scheduler) :
  length (GetJobs s) = GetJobCount s /\
  NoDup (job_ID <$> GetJobs s) /\
  (forall jobID, jobID ∈ (job_ID <$> GetJobs s) <-> is_Some (jobs s !! jobID)) /\
  (forall job, job ∈ GetJobs s ->
     job_Name job = job_ID job /\ job_Enabled job = true /\
     job_Spec job = "" /\ job_Func job = None /\
     (entries_of (job_ID job) s = [] ->
        job_LastRun job = None /\ job_NextRun job = None)).
Proof.
  unfold GetJobs, GetJobCount.
  assert (Hids : job_ID <$> ((fun kv : string * EntryID =>
                   mkJobInfo (fst kv) (fst kv) "" None true
                     (cron_Entry (snd kv) (cron s) ≫= entry_Prev)
                     (cron_Entry (snd kv) (cron s) ≫= entry_Next)) <$> map_to_list (jobs s))
                 = (map_to_list (jobs s)).*1).
  { rewrite <- list_fmap_compose. reflexivity. }
  split; [rewrite length_fmap; apply length_map_to_list |].
  split; [rewrite Hids; apply NoDup_fst_map_to_list |].
  split.
  - intros jobID. rewrite Hids. split.
    + intros Hin. apply list_elem_of_fmap in Hin as ([k v] & -> & Hkv).
      apply elem_of_map_to_list in Hkv. simpl. eauto.
    + intros [v Hv]. apply list_elem_of_fmap. exists (jobID, v).
      split; [reflexivity | apply elem_of_map_to_list; exact Hv].
  - intros job Hin. apply list_elem_of_fmap in Hin as ([k v] & -> & Hkv).
    apply elem_of_map_to_list in Hkv. simpl.
    repeat split.
    + unfold entries_of in H. rewrite Hkv in H. unfold cron_Entry.
      rewrite (filter_none (fun e => ID e = v)); [reflexivity |].
      intros e He Heq.
      apply (filter_nil_not_elem_of _ _ e H); [subst v; reflexivity | exact He].
    + unfold entries_of in H. rewrite Hkv in H. unfold cron_Entry.
      rewrite (filter_none (fun e => ID e = v)); [reflexivity |].
      intros e He Heq.
      apply (filter_nil_not_elem_of _ _ e H); [subst v; reflexivity | exact He].
Qed.

End WithCron.

Arguments Entry : clear implicits.
Arguments Cron : clear implicits.
Arguments Scheduler : clear implicits.
Arguments Call : clear implicits.

(** A stand-in for the six-field parser of the cron engine: it accepts the
    expressions that have exactly six blank-separated fields. *)
Definition six_fields (spec : string) : error :=
  if decide (length (String.words spec) = 6%nat) then None
  else Some "expected exactly 6 fields".

Lemma AddJob_twice_one_entry_witness :
  let s1 := snd (AddJob six_fields "cleanup" "0 0 2 * * *" "performCleanup" NewScheduler) in
  let r := AddJob six_fields "cleanup" "0 30 3 * * *" "pruneLogs" s1 in
  fst r = None /\
  entries (cron (snd r)) = [mkEntry 2 "0 30 3 * * *" "pruneLogs"] /\
  exists id,
    jobs (snd r) !! "cleanup" = Some id /\
    entries_of "cleanup" (snd r) = [mkEntry id "0 30 3 * * *" "pruneLogs"].
Proof.
  intros s1 r.
  destruct (AddJob_twice_one_entry six_fields "cleanup" "0 0 2 * * *" "0 30 3 * * *"
              "performCleanup" "pruneLogs" NewScheduler
              (NewScheduler_inv (Cmd := string)) eq_refl)
    as (Hok & id & Hid & Hent & _).
  split; [exact Hok |]. split; [reflexivity |].
  exists id. split; [exact Hid | exact Hent].
Defined.

Lemma Start_Stop_running_flag_witness :
  fst (Start (@NewScheduler string)) = None /\
  is_Some (fst (Start (snd (Start (@NewScheduler string))))) /\
  is_Some (fst (Stop (@NewScheduler string))) /\
  running (snd (Start (@NewScheduler string))) = true.
Proof.
  destruct (Start_Stop_running_flag (@NewScheduler string))
    as (_ & [_ Hstop] & _ & _ & Hstart & _).
  destruct (Start_Stop_running_flag (snd (Start (@NewScheduler string))))
    as ([_ Hagain] & _).
  split; [reflexivity |]. split; [apply Hagain; reflexivity |].
  split; [apply Hstop; reflexivity |].
  apply (Hstart eq_refl).
Defined.

(** A scheduler with the cleanup job and the job of pipeline 7, started. *)
Definition nightly : Scheduler string :=
  run_calls six_fields
    [CallAddJob "cleanup" "0 0 2 * * *" "performCleanup";
     CallAddJob "pipeline_7" "0 */5 * * * *" "run pipeline 7";
     CallStart]
    NewScheduler.

Lemma nightly_reachable : reachable six_fields nightly.
Proof. apply run_calls_reachable, reach_new. Qed.

Lemma jobs_are_isolated_witness :
  jobs (snd (call six_fields (CallRemoveJob "pipeline_7") nightly)) !! "cleanup" = Some 1 /\
  entries_of "cleanup" (snd (call six_fields (CallRemoveJob "pipeline_7") nightly))
    = [mkEntry 1 "0 0 2 * * *" "performCleanup"].
Proof.
  destruct (jobs_are_isolated six_fields (CallRemoveJob "pipeline_7") "pipeline_7" "cleanup"
              nightly nightly_reachable ltac:(discriminate) ltac:(right; reflexivity))
    as [Hj He].
  split; [exact (eq_trans Hj eq_refl) | exact (eq_trans He eq_refl)].
Defined.

Lemma RemoveJob_unregisters_witness :
  is_Some (fst (RemoveJob "deploy" nightly)) /\
  jobs (snd (RemoveJob "pipeline_7" nightly)) !! "pipeline_7" = None.
Proof.
  destruct (RemoveJob_unregisters six_fields "deploy" nightly nightly_reachable)
    as ([_ Herr] & _ & _).
  destruct (RemoveJob_unregisters six_fields "pipeline_7" nightly nightly_reachable)
    as (_ & _ & Hgone).
  split; [apply Herr; reflexivity |].
  destruct (Hgone 2 eq_refl) as [Hnone _]. exact Hnone.
Defined.

Lemma AddJob_RemoveJob_round_trip_witness :
  entries (cron (snd (RemoveJob "backup"
             (snd (AddJob six_fields "backup" "0 0 4 * * *" "dump" nightly)))))
    = entries (cron nightly).
Proof.
  destruct (AddJob_RemoveJob_round_trip six_fields "backup" "0 0 4 * * *" "dump" nightly
              nightly_reachable eq_refl eq_refl) as (_ & _ & _ & He & _).
  exact He.
Defined.

Lemma entries_at_most_jobs_witness :
  (length (entries (cron (snd (AddJob six_fields "cleanup" "every night" "x" nightly))))
     <= 2)%nat.
Proof.
  apply (entries_at_most_jobs six_fields
           (snd (call six_fields (CallAddJob "cleanup" "every night" "x") nightly))).
  apply reach_call, nightly_reachable.
Defined.

Lemma stopped_context_stays_cancelled_witness :
  ctxCancelled (run_calls six_fields [CallStart; CallAddJob "a" "0 0 1 * * *" "f"]
                  (snd (Stop nightly))) = true.
Proof.
  destruct (stopped_context_stays_cancelled six_fields
              [CallStart; CallAddJob "a" "0 0 1 * * *" "f"] nightly eq_refl) as [H _].
  exact H.
Defined.

Lemma running_flags_agree_witness : cronRunning (cron nightly) = true.
Proof.
  exact (eq_trans (running_flags_agree six_fields nightly nightly_reachable) eq_refl).
Defined.

Lemma pipeline_jobs_do_not_collide_witness :
  jobs (snd (AddPipelineJob six_fields (fun p => sp_Name p)
               (mkScheduled 8 "docs" "0 0 * * * *") nightly)) !! "pipeline_7" = Some 2 /\
  fst (AddPipelineJob six_fields (fun p => sp_Name p) (mkScheduled 8 "docs" "") nightly)
    = Some "pipeline cron expression is empty".
Proof.
  destruct (pipeline_jobs_do_not_collide six_fields (fun p => sp_Name p)
              (mkScheduled 8 "docs" "0 0 * * * *") 7 nightly nightly_reachable
              ltac:(discriminate)) as [Hother _].
  destruct (Hother "pipeline_7" ltac:(left; reflexivity)) as (Hj & _).
  destruct (pipeline_jobs_do_not_collide six_fields (fun p => sp_Name p)
              (mkScheduled 8 "docs" "") 7 nightly nightly_reachable
              ltac:(discriminate)) as [_ Hempty].
  split; [exact (eq_trans Hj eq_refl) | exact (f_equal fst (Hempty eq_refl))].
Defined.

Lemma GetJobs_lists_registry_witness :
  "cleanup" ∈ (job_ID <$> GetJobs (fun _ => None) (fun _ => Some 0%Z) nightly) /\
  length (GetJobs (fun _ => None) (fun _ => Some 0%Z) nightly) = 2%nat.
Proof.
  destruct (GetJobs_lists_registry (fun _ => None) (fun _ => Some 0%Z) nightly)
    as (Hlen & _ & Hids & _).
  split.
  - apply Hids. vm_compute. eexists. reflexivity.
  - rewrite Hlen. vm_compute. reflexivity.
Defined.

End Scheduler.

(* ===================================================================== *)
(** ** package ssh: key pair generation                                   *)
(* ===================================================================== *)

Module SSH.

(** [pem.Block]. *)
Record Block : Type := mkBlock {
  Type_ : string;
  Headers : gmap string string;
  Bytes : string
}.

(** [x509.PEMCipher]. *)
Inductive PEMCipher : Type :=
  | PEMCipherDES
  | PEMCipher3DES
  | PEMCipherAES128
  | PEMCipherAES192
  | PEMCipherAES256.

(** The name a cipher is recorded under in the [DEK-Info] header. *)
Definition cipher_name (alg : PEMCipher) : string :=
  match alg with
  | PEMCipherDES => "DES-CBC"
  | PEMCipher3DES => "DES-EDE3-CBC"
  | PEMCipherAES128 => "AES-128-CBC"
  | PEMCipherAES192 => "AES-192-CBC"
  | PEMCipherAES256 => "AES-256-CBC"
  end.

(** [x509.IsEncryptedPEMBlock]: the block has a [DEK-Info] header. *)
Definition IsEncryptedPEMBlock (b : Block) : bool :=
  bool_decide (is_Some (Headers b !! "DEK-Info")).

(** The cryptographic routines [GenerateKeyPair] calls ([crypto/rsa],
    [crypto/x509], [encoding/pem], [golang.org/x/crypto/ssh]) with the part
    of their documented behaviour the function relies on. [Rand] is the state
    of [rand.Reader]. *)
Class Crypto : Type := {
  Rand : Type;
  PrivateKey : Type;
  PublicKey : Type;
  SSHPublicKey : Type;
  rsa_GenerateKey : Rand -> Z -> result PrivateKey * Rand;
  PublicKey_of : PrivateKey -> PublicKey;
  x509_MarshalPKCS1PrivateKey : PrivateKey -> string;
  x509_EncryptPEMBlock :
    Rand -> string -> string -> string -> PEMCipher -> result Block * Rand;
  pem_Encode : Block -> result string;
  ssh_NewPublicKey : PublicKey -> result SSHPublicKey;
  ssh_MarshalAuthorizedKey : SSHPublicKey -> string;
  (** [EncryptPEMBlock] keeps the block type and records the cipher. *)
  EncryptPEMBlock_block : forall r ty data pw alg b r',
    x509_EncryptPEMBlock r ty data pw alg = (Ok b, r') ->
    Type_ b = ty /\
    exists iv, Headers b !! "DEK-Info" = Some (cipher_name alg +:+ "," +:+ iv);
  (** The SSH key made from an RSA public key has type [ssh-rsa], and
      [MarshalAuthorizedKey] writes the type, a blank, the base64 body and a
      line feed. *)
  MarshalAuthorizedKey_line : forall k pub,
    ssh_NewPublicKey k = Ok pub ->
    exists body, ssh_MarshalAuthorizedKey pub = "ssh-rsa " +:+ body +:+ Scripts.newline
}.

Section GenerateKeyPair.

Context `{Crypto}.

(** [GenerateKeyPair], with the state of [rand.Reader] threaded through. The
    three error returns carry the prefixes of the source. *)
Definition GenerateKeyPair (bits : Z) (passphrase : string) (r : Rand)
    : result (string * string) * Rand :=
  match rsa_GenerateKey r bits with
  | (Err e, r1) => (Err ("生成RSA密钥对失败: " +:+ e), r1)
  | (Ok privateKey, r1) =>
      let encoded : result string * Rand :=
        if decide (passphrase = "") then
          let privateKeyBlock :=
            mkBlock "RSA PRIVATE KEY" ∅ (x509_MarshalPKCS1PrivateKey privateKey) in
          match pem_Encode privateKeyBlock with
          | Err e => (Err ("编码私钥失败: " +:+ e), r1)
          | Ok pemText => (Ok pemText, r1)
          end
        else
          match x509_EncryptPEMBlock r1 "RSA PRIVATE KEY"
                  (x509_MarshalPKCS1PrivateKey privateKey) passphrase PEMCipherAES256 with
          | (Err e, r2) => (Err ("加密私钥失败: " +:+ e), r2)
          | (Ok privateKeyBlock, r2) =>
              match pem_Encode privateKeyBlock with
              | Err e => (Err ("编码私钥失败: " +:+ e), r2)
              | Ok pemText => (Ok pemText, r2)
              end
          end in
      match encoded with
      | (Err e, r2) => (Err e, r2)
      | (Ok privateKeyPEM, r2) =>
          match ssh_NewPublicKey (PublicKey_of privateKey) with
          | Err e => (Err ("生成公钥失败: " +:+ e), r2)
          | Ok publicKey => (Ok (privateKeyPEM, ssh_MarshalAuthorizedKey publicKey), r2)
          end
      end
  end.


(** The only error returns are those of the library calls. *)
Lemma GenerateKeyPair_succeeds (bits : Z) (passphrase : string) (r r1 r2 : Rand)
    (key : PrivateKey) (blk : Block) (pemText : string) (pub : SSHPublicKey) :
  rsa_GenerateKey r bits = (Ok key, r1) ->
  (if decide (passphrase = "")
   then blk = mkBlock "RSA PRIVATE KEY" ∅ (x509_MarshalPKCS1PrivateKey key) /\ r2 = r1
   else x509_EncryptPEMBlock r1 "RSA PRIVATE KEY" (x509_MarshalPKCS1PrivateKey key)
          passphrase PEMCipherAES256 = (Ok blk, r2)) ->
  pem_Encode blk = Ok pemText ->
  ssh_NewPublicKey (PublicKey_of key) = Ok pub ->
  GenerateKeyPair bits passphrase r = (Ok (pemText, ssh_MarshalAuthorizedKey pub), r2).
Proof.
  intros Hgen Hblk Henc Hpub. unfold GenerateKeyPair. rewrite Hgen.
  destruct (decide (passphrase = "")).
  - destruct Hblk as [-> ->]. rewrite Henc, Hpub. reflexivity.
  - rewrite Hblk, Henc, Hpub. reflexivity.
Qed.

End GenerateKeyPair.

(** A stand-in for the library, used to run [GenerateKeyPair]: keys are the
    pair of the requested size and the random state, key generation refuses
    sizes below two bits, and the cipher reverses the bytes. *)
#[local] Program Instance demo_crypto : Crypto := {|
  Rand := nat;
  PrivateKey := Z * nat;
  PublicKey := Z * nat;
  SSHPublicKey := Z * nat;
  rsa_GenerateKey := fun r bits =>
    if bits <? 2 then (Err "too few primes of given length", r)
    else (Ok (bits, r), S r);
  PublicKey_of := fun k => k;
  x509_MarshalPKCS1PrivateKey := fun k => "pkcs1/" +:+ pretty (fst k) +:+ "/" +:+ pretty (snd k);
  x509_EncryptPEMBlock := fun r ty data pw alg =>
    (Ok (mkBlock ty
           (<["Proc-Type" := "4,ENCRYPTED"]>
              (<["DEK-Info" := cipher_name alg +:+ "," +:+ pretty r]> ∅))
           (String.rev data)), S r);
  pem_Encode := fun b =>
    Ok ("-----BEGIN " +:+ Type_ b +:+ "-----" +:+ Bytes b +:+ "-----END " +:+ Type_ b +:+ "-----");
  ssh_NewPublicKey := fun k => Ok k;
  ssh_MarshalAuthorizedKey := fun k =>
    "ssh-rsa " +:+ (pretty (fst k) +:+ "/" +:+ pretty (snd k)) +:+ Scripts.newline
|}.
Next Obligation.
  intros r ty data pw alg b r' Heq. inversion Heq; subst. simpl.
  split; [reflexivity |]. exists (pretty r).
  rewrite lookup_insert_ne by discriminate. apply lookup_insert_eq.
Qed.
Next Obligation.
  intros k pub Heq. inversion Heq; subst. eexists. reflexivity.
Qed.


End SSH.

(* ===================================================================== *)
(** ** pkg/pipeline: the execution engine                                 *)
(* ===================================================================== *)

Module Pipeline.

#[local] Open Scope N_scope.

(** *** Data *)

(** A decoded JSON value held in an [interface{}]: [nil], [bool], [float64]
    (by its bit pattern), [string], [[]interface{}] or
    [map[string]interface{}]. *)
Inductive Value : Type :=
  | VNil
  | VBool (b : bool)
  | VNumber (bits : Z)
  | VString (s : string)
  | VArray (l : list Value)
  | VObject (m : gmap string Value).

(** The pipeline document as the engine reads it: stages of steps, a step
    having a name, a type and a [map[string]interface{}] configuration. *)
Record PipelineStep : Type := mkStep {
  step_Name : string;
  step_Type : string;
  step_Config : gmap string Value
}.

Record PipelineStage : Type := mkStage {
  stage_Name : string;
  stage_Steps : list PipelineStep
}.

Record PipelineConfig : Type := mkConfig {
  Stages : list PipelineStage
}.

Inductive RunStatus : Type :=
  | RunStatusPending
  | RunStatusRunning
  | RunStatusSuccess
  | RunStatusFailed
  | RunStatusCancelled.

#[global] Instance RunStatus_eq_dec : EqDecision RunStatus.
Proof. solve_decision. Defined.

(** The value of each status constant. *)
Definition status_text (st : RunStatus) : string :=
  match st with
  | RunStatusPending => "pending"
  | RunStatusRunning => "running"
  | RunStatusSuccess => "success"
  | RunStatusFailed => "failed"
  | RunStatusCancelled => "cancelled"
  end.

Definition terminal (st : RunStatus) : bool :=
  match st with
  | RunStatusSuccess | RunStatusFailed | RunStatusCancelled => true
  | RunStatusPending | RunStatusRunning => false
  end.

(** The fields of the stored records that the engine reads or writes. Ids
    are database keys ([uint], assigned by auto-increment). *)
Record Project : Type := mkProject {
  prj_ID : N;
  prj_Name : string;
  prj_RepoURL : string;
  prj_Branch : string
}.

Record Pipeline : Type := mkPipeline {
  pl_ID : N;
  pl_Name : string;
  pl_Config : string;
  pl_Project : Project
}.

Record PipelineRun : Type := mkRun {
  run_ID : N;
  run_PipelineID : N;
  run_Status : RunStatus;
  run_TriggerType : string;
  run_TriggerBy : N;
  run_StartTime : Z;
  run_EndTime : option Z;
  run_Duration : Z;
  run_Logs : string
}.

(** A buffered [chan string]: the queued lines, oldest first, and whether
    the channel has been closed. *)
Record Chan : Type := mkChan {
  buf : list string;
  closed : bool
}.

Definition logChanCap : nat := 100.

Definition make_chan : Chan := mkChan [] false.

(** The [select] with a send case and a [default]: the line is queued when
    there is room and dropped otherwise. The engine's only sender is the
    goroutine that closes the channel as its last action, so a send never
    meets a closed channel. *)
Definition chan_trysend (line : string) (c : Chan) : Chan :=
  if decide (length (buf c) < logChanCap)%nat then mkChan (buf c ++ [line]) (closed c)
  else c.

(** The [select] with a receive case and a [default]: a queued line is
    received; on an empty channel the receive fires only when the channel is
    closed, and then yields the zero value; otherwise [default] runs. *)
Definition chan_tryrecv (c : Chan) : option (string * Chan) :=
  match buf c with
  | line :: more => Some (line, mkChan more (closed c))
  | [] => if closed c then Some ("", c) else None
  end.

Definition chan_close (c : Chan) : Chan := mkChan (buf c) true.

(** [JobContext]: the run (by its id and start time), the pipeline with its
    project, whether the context has been cancelled, and the log channel.
    A Go channel is a reference: the context holds the channel's address and
    the engine's store of channels holds its state. *)
Record JobContext : Type := mkJob {
  job_RunID : N;
  job_StartTime : Z;
  job_Pipeline : Pipeline;
  job_Cancelled : bool;
  job_LogChan : N
}.

Definition job_Project (j : JobContext) : Project := pl_Project (job_Pipeline j).

(** [scripts.ExecuteOptions]; the callback is the engine's [logMessage] and
    is accounted for where the executor is called. *)
Record ExecuteOptions : Type := mkOpts {
  WorkDir : string;
  Env : gmap string string;
  Timeout : Z
}.

(** The part of [config.Config] the engine has access to. *)
Record Config : Type := mkCfg {
  DataPath : string;
  MaxConcurrent : Z
}.

(** [fmt.Sprintf("%d", n)] for an unsigned integer. *)
Definition sprint_uint (n : N) : string := pretty n.

(** *** The environment of a script step *)

(** The five variables [executeScript] synthesizes. *)
Definition wellKnownEnv (jobCtx : JobContext) : gmap string string :=
  <["BUILD_VERSION" := "v" +:+ sprint_uint (job_RunID jobCtx)]>
  (<["PIPELINE_RUN_ID" := sprint_uint (job_RunID jobCtx)]>
  (<["PIPELINE_ID" := sprint_uint (pl_ID (job_Pipeline jobCtx))]>
  (<["PROJECT_ID" := sprint_uint (prj_ID (job_Project jobCtx))]>
  (<["PROJECT_NAME" := prj_Name (job_Project jobCtx)]> ∅)))).

(** One iteration of the loop over [config.env]: a string value is stored
    under its key, any other value is skipped. *)
Definition addEnvVar (k : string) (v : Value) (env : gmap string string)
    : gmap string string :=
  match v with
  | VString str => <[k := str]> env
  | _ => env
  end.

(** The map [executeScript] passes as [opts.Env]. *)
Definition scriptEnv (jobCtx : JobContext) (step : PipelineStep) : gmap string string :=
  let env := wellKnownEnv jobCtx in
  match step_Config step !! "env" with
  | Some (VObject envVars) => map_fold addEnvVar env envVars
  | _ => env
  end.

(** The user's [config.env] of a step, when it is a JSON object. *)
Definition userEnv (step : PipelineStep) : gmap string Value :=
  match step_Config step !! "env" with
  | Some (VObject envVars) => envVars
  | _ => ∅
  end.

Definition wellKnownKeys : list string :=
  ["PROJECT_NAME"; "PROJECT_ID"; "PIPELINE_ID"; "PIPELINE_RUN_ID"; "BUILD_VERSION"].

(** What the merged environment holds under [k]. *)
Definition mergedLookup (jobCtx : JobContext) (user : gmap string Value) (k : string)
    : option string :=
  match user !! k with
  | Some (VString str) => Some str
  | _ => wellKnownEnv jobCtx !! k
  end.

Lemma map_fold_addEnvVar_lookup (env : gmap string string) (envVars : gmap string Value) k :
  map_fold addEnvVar env envVars !! k =
    match envVars !! k with
    | Some (VString str) => Some str
    | _ => env !! k
    end.
Proof.
  apply (map_fold_weak_ind
           (fun (r : gmap string string) (m : gmap string Value) =>
              r !! k = match m !! k with Some (VString str) => Some str | _ => env !! k end)).
  - rewrite lookup_empty. reflexivity.
  - intros i x m r Hi IH. destruct (decide (i = k)) as [-> | Hne].
    + rewrite lookup_insert_eq. rewrite Hi in IH.
      destruct x; simpl; try exact IH. apply lookup_insert_eq.
    + rewrite lookup_insert_ne by exact Hne.
      destruct x; simpl; try exact IH. rewrite lookup_insert_ne by exact Hne. exact IH.
Qed.

Lemma scriptEnv_lookup jobCtx step k :
  scriptEnv jobCtx step !! k = mergedLookup jobCtx (userEnv step) k.
Proof.
  unfold scriptEnv, userEnv, mergedLookup.
  destruct (step_Config step !! "env") as [[| | | | | envVars] |];
    try (rewrite lookup_empty; reflexivity).
  apply map_fold_addEnvVar_lookup.
Qed.

Lemma wellKnownEnv_values jobCtx :
  wellKnownEnv jobCtx !! "PROJECT_NAME" = Some (prj_Name (job_Project jobCtx)) /\
  wellKnownEnv jobCtx !! "PROJECT_ID" = Some (sprint_uint (prj_ID (job_Project jobCtx))) /\
  wellKnownEnv jobCtx !! "PIPELINE_ID" = Some (sprint_uint (pl_ID (job_Pipeline jobCtx))) /\
  wellKnownEnv jobCtx !! "PIPELINE_RUN_ID" = Some (sprint_uint (job_RunID jobCtx)) /\
  wellKnownEnv jobCtx !! "BUILD_VERSION" = Some ("v" +:+ sprint_uint (job_RunID jobCtx)).
Proof.
  unfold wellKnownEnv.
  repeat split;
    repeat (first [apply lookup_insert_eq | rewrite lookup_insert_ne by discriminate]).
Qed.

(** *** Executing a run *)

Section Engine.

(** What lies outside the engine: the state of the outside world (file
    system, network, child processes, clock) and the collaborators that act
    on it. The script executor reports its result together with the lines it
    handed to the log callback, in call order. Reading the clock yields the
    time and the world a moment later; each database statement may fail
    with an error that the world decides. *)
Context {Ext : Type}.
Variable cfg : Config.
Variable json_Unmarshal : string -> result PipelineConfig.
Variable scripts_Execute :
  bool -> string -> ExecuteOptions -> Ext -> (result Scripts.ExecuteResult * list string) * Ext.
Variable git_CloneOrPull : string -> string -> string -> Ext -> option string * Ext.
Variable os_Stat_ok : string -> Ext -> bool.
Variable builtinScripts : gmap string string.
Variable time_Now : Ext -> Z * Ext.
Variable time_Format : Z -> string.
Variable duration_String : Z -> string.
Variable db_First_err : Ext -> option string.
Variable db_Create_err : Ext -> option string.
Variable db_Update_err : Ext -> option string.

(** The state a run's goroutine works on: the outside world, the run's log
    channel and, as a record of what was asked of the script executor, the
    calls made so far (script and options), oldest first. *)
Record ExecState : Type := mkExec {
  ext : Ext;
  logChan : Chan;
  scriptCalls : list (string * ExecuteOptions)
}.

(** Engine code that may return an error. *)
Definition M (A : Type) : Type := ExecState -> result A * ExecState.

Definition ret {A} (a : A) : M A := fun st => (Ok a, st).
Definition fail {A} (msg : string) : M A := fun st => (Err msg, st).
Definition bind {A B} (c : M A) (k : A -> M B) : M B := fun st =>
  match c st with
  | (Ok a, st') => k a st'
  | (Err msg, st') => (Err msg, st')
  end.

(** [fmt.Errorf(prefix + "%w", err)] around a call. *)
Definition wrap_err {A} (prefix : string) (c : M A) : M A := fun st =>
  match c st with
  | (Ok a, st') => (Ok a, st')
  | (Err msg, st') => (Err (prefix +:+ msg), st')
  end.

Notation "'do' x <- c ; k" := (bind c (fun x => k))
  (at level 10, x name, c at level 100, k at level 200).
Notation "c ;; k" := (bind c (fun _ => k))
  (at level 100, k at level 200, right associativity).

(** [logMessage]: the line is stamped and offered to the log channel (the
    copy printed to the process log is not modelled). *)
Definition logMessage (message : string) : M unit := fun st =>
  let timestamp := time_Format (fst (time_Now (ext st))) in
  let logLine := "[" +:+ timestamp +:+ "] " +:+ message in
  (Ok tt, mkExec (snd (time_Now (ext st))) (chan_trysend logLine (logChan st))
                 (scriptCalls st)).

(** The calls of [logMessage] that the log callback makes for the lines a
    script prints, one call per line, each with its own reading of the
    clock. *)
Fixpoint logMessages (lines : list string) : M unit :=
  match lines with
  | [] => ret tt
  | line :: more => logMessage line ;; logMessages more
  end.

Definition workDirOf (jobCtx : JobContext) : string :=
  DataPath cfg +:+ "/workspaces/" +:+ sprint_uint (prj_ID (job_Project jobCtx)).

(** Go's map index on a missing key yields the zero value. *)
Definition builtinScript (name : string) : string := default "" (builtinScripts !! name).
Definition configValue (config : gmap string Value) (key : string) : Value :=
  default VNil (config !! key).

Definition executeGitClone (jobCtx : JobContext) (step : PipelineStep) : M unit := fun st =>
  let project := job_Project jobCtx in
  match git_CloneOrPull (prj_RepoURL project) (prj_Branch project) (workDirOf jobCtx) (ext st) with
  | (Some err, e') =>
      (Err ("代码拉取失败: " +:+ err), mkExec e' (logChan st) (scriptCalls st))
  | (None, e') =>
      logMessage "代码拉取完成" (mkExec e' (logChan st) (scriptCalls st))
  end.

(** The call of [scriptManager.Execute] with the log callback attached: while
    the script runs, each line it hands to the callback is logged by a call
    of [logMessage]; when the executor returns, the outside world is as the
    script has left it. *)
Definition callExecutor (jobCtx : JobContext) (script : string) (opts : ExecuteOptions)
    : M Scripts.ExecuteResult := fun st =>
  match scripts_Execute (job_Cancelled jobCtx) script opts (ext st) with
  | (res, lines, e') =>
      match logMessages lines
              (mkExec (ext st) (logChan st) (scriptCalls st ++ [(script, opts)])) with
      | (_, st') =>
          match res with
          | Ok r => (Ok r, mkExec e' (logChan st') (scriptCalls st'))
          | Err msg => (Err msg, mkExec e' (logChan st') (scriptCalls st'))
          end
      end
  end.

Definition executeScript (jobCtx : JobContext) (step : PipelineStep) : M unit :=
  match step_Config step !! "script" with
  | Some (VString script) =>
      let workDir := workDirOf jobCtx in
      let env := scriptEnv jobCtx step in
      let opts := mkOpts workDir env (30 * 60 * 1000000000) in
      do result <- wrap_err "脚本执行失败: " (callExecutor jobCtx script opts);
      if decide (Scripts.ExitCode result <> 0%Z)
      then fail ("脚本执行失败，退出码: " +:+ pretty (Scripts.ExitCode result))
      else ret tt
  | _ => fail "脚本内容不能为空"
  end.

(** The script step that [executeBuild] and [executeDeploy] synthesize. *)
Definition scriptStepFor (name script : string) (step : PipelineStep) : PipelineStep :=
  mkStep name "script"
    (<["script" := VString script]> (<["env" := configValue (step_Config step) "env"]> ∅)).

(** The script that [executeBuild] chooses, or the error it returns when it
    detects no build type. *)
Definition buildScript (jobCtx : JobContext) (step : PipelineStep) (e : Ext) : result string :=
  let buildType :=
    match step_Config step !! "type" with
    | Some (VString t) => t
    | _ => "auto"
    end in
  if decide (buildType = "node") then Ok (builtinScript "node_build")
  else if decide (buildType = "go") then Ok (builtinScript "go_build")
  else if decide (buildType = "docker") then Ok (builtinScript "docker_build")
  else
    let workDir := workDirOf jobCtx in
    if os_Stat_ok (workDir +:+ "/package.json") e then Ok (builtinScript "node_build")
    else if os_Stat_ok (workDir +:+ "/go.mod") e then Ok (builtinScript "go_build")
    else if os_Stat_ok (workDir +:+ "/Dockerfile") e then Ok (builtinScript "docker_build")
    else Err "无法自动检测构建类型".

Definition executeBuild (jobCtx : JobContext) (step : PipelineStep) : M unit := fun st =>
  match buildScript jobCtx step (ext st) with
  | Err msg => (Err msg, st)
  | Ok script => executeScript jobCtx (scriptStepFor "构建" script step) st
  end.

Definition executeDeploy (jobCtx : JobContext) (step : PipelineStep) : M unit :=
  let deployType :=
    match step_Config step !! "type" with
    | Some (VString t) => t
    | _ => "script"
    end in
  if decide (deployType = "script")
  then executeScript jobCtx (scriptStepFor "部署" (builtinScript "deploy_script") step)
  else fail ("不支持的部署类型: " +:+ deployType).

Definition knownStepType (t : string) : bool :=
  bool_decide (t = "git_clone" \/ t = "script" \/ t = "build" \/ t = "deploy").

Definition executeStep (jobCtx : JobContext) (step : PipelineStep) : M unit :=
  logMessage ("执行步骤: " +:+ step_Name step) ;;
  if decide (step_Type step = "git_clone") then executeGitClone jobCtx step
  else if decide (step_Type step = "script") then executeScript jobCtx step
  else if decide (step_Type step = "build") then executeBuild jobCtx step
  else if decide (step_Type step = "deploy") then executeDeploy jobCtx step
  else fail ("不支持的步骤类型: " +:+ step_Type step).

Fixpoint executeSteps (jobCtx : JobContext) (steps : list PipelineStep) : M unit :=
  match steps with
  | [] => ret tt
  | step :: more =>
      wrap_err ("步骤 " +:+ step_Name step +:+ " 执行失败: ") (executeStep jobCtx step) ;;
      executeSteps jobCtx more
  end.

Definition executeStage (jobCtx : JobContext) (stage : PipelineStage) : M unit :=
  executeSteps jobCtx (stage_Steps stage).

(** The loop of [executePipeline] over the stages, from stage number [i]. *)
Fixpoint executeStages (jobCtx : JobContext) (i : nat) (stages : list PipelineStage)
    : M unit :=
  match stages with
  | [] => ret tt
  | stage :: more =>
      logMessage ("执行阶段 " +:+ pretty (S i) +:+ ": " +:+ stage_Name stage) ;;
      wrap_err ("阶段 " +:+ stage_Name stage +:+ " 执行失败: ") (executeStage jobCtx stage) ;;
      logMessage ("阶段 " +:+ stage_Name stage +:+ " 执行完成") ;;
      executeStages jobCtx (S i) more
  end.

(** The body of [executePipeline] up to its call of [finishPipelineRun]: the
    status and message it finishes the run with. *)
Definition runOutcome (jobCtx : JobContext) (st : ExecState)
    : (RunStatus * string) * ExecState :=
  match json_Unmarshal (pl_Config (job_Pipeline jobCtx)) with
  | Err msg => ((RunStatusFailed, "解析流水线配置失败: " +:+ msg), st)
  | Ok config =>
      match (logMessage ("开始执行流水线: " +:+ pl_Name (job_Pipeline jobCtx)) ;;
             executeStages jobCtx 0 (Stages config)) st with
      | (Err msg, st') => ((RunStatusFailed, msg), st')
      | (Ok _, st') => ((RunStatusSuccess, "流水线执行成功"), st')
      end
  end.

(** *** What the script executor is asked to run *)

(** [st'] has the calls of [st] followed by calls whose environment is [E]. *)
Definition extends_with (E : gmap string string) (st st' : ExecState) : Prop :=
  exists new, scriptCalls st' = scriptCalls st ++ new /\
              Forall (fun c : string * ExecuteOptions => Env (snd c) = E) new.

Lemma extends_refl E st st' : scriptCalls st' = scriptCalls st -> extends_with E st st'.
Proof. intros Heq. exists []. rewrite app_nil_r. split; [exact Heq | constructor]. Qed.

Lemma extends_trans E st1 st2 st3 :
  extends_with E st1 st2 -> extends_with E st2 st3 -> extends_with E st1 st3.
Proof.
  intros (n1 & H1 & F1) (n2 & H2 & F2). exists (n1 ++ n2).
  split; [rewrite H2, H1; now rewrite app_assoc | now apply Forall_app].
Qed.

Lemma logMessage_calls message st :
  scriptCalls (snd (logMessage message st)) = scriptCalls st.
Proof. reflexivity. Qed.

Lemma logMessages_calls lines : forall st,
  scriptCalls (snd (logMessages lines st)) = scriptCalls st.
Proof.
  induction lines as [| line more IH]; intros st; [reflexivity |].
  simpl. unfold bind. simpl. rewrite IH. reflexivity.
Qed.

Lemma callExecutor_calls jobCtx script opts st :
  scriptCalls (snd (callExecutor jobCtx script opts st)) = scriptCalls st ++ [(script, opts)].
Proof.
  unfold callExecutor.
  destruct (scripts_Execute (job_Cancelled jobCtx) script opts (ext st)) as [[res lines] e'].
  pose proof (logMessages_calls lines
                (mkExec (ext st) (logChan st) (scriptCalls st ++ [(script, opts)]))) as Hl.
  destruct (logMessages lines _) as [u st']. simpl in Hl.
  destruct res; simpl; exact Hl.
Qed.

Lemma executeScript_calls jobCtx step st :
  scriptCalls (snd (executeScript jobCtx step st)) =
    match step_Config step !! "script" with
    | Some (VString script) =>
        scriptCalls st ++
          [(script, mkOpts (workDirOf jobCtx) (scriptEnv jobCtx step) (30 * 60 * 1000000000))]
    | _ => scriptCalls st
    end.
Proof.
  unfold executeScript.
  destruct (step_Config step !! "script") as [[| | | script | |] |]; try reflexivity.
  unfold bind, wrap_err.
  pose proof (callExecutor_calls jobCtx script
    (mkOpts (workDirOf jobCtx) (scriptEnv jobCtx step) (30 * 60 * 1000000000)) st) as Hc.
  destruct (callExecutor jobCtx script _ st) as [[r | msg] st']; simpl in *; [| exact Hc].
  destruct (decide (Scripts.ExitCode r <> 0%Z)); exact Hc.
Qed.

Lemma executeScript_extends jobCtx step st :
  extends_with (scriptEnv jobCtx step) st (snd (executeScript jobCtx step st)).
Proof.
  unfold extends_with. rewrite executeScript_calls.
  destruct (step_Config step !! "script") as [[| | | script | |] |];
    try (exists []; rewrite app_nil_r; split; [reflexivity | constructor]).
  eexists. split; [reflexivity |].
  constructor; [reflexivity | constructor].
Qed.

Lemma scriptEnv_scriptStepFor jobCtx name script step :
  scriptEnv jobCtx (scriptStepFor name script step) = scriptEnv jobCtx step.
Proof.
  unfold scriptEnv, scriptStepFor, configValue. simpl.
  rewrite lookup_insert_ne by discriminate. rewrite lookup_insert_eq.
  destruct (step_Config step !! "env") as [[| | | | |] |]; reflexivity.
Qed.

Lemma executeBuild_extends jobCtx step st :
  extends_with (scriptEnv jobCtx step) st (snd (executeBuild jobCtx step st)).
Proof.
  unfold executeBuild.
  match goal with
  | |- context [match ?c with Ok _ => _ | Err _ => _ end] => destruct c as [script | msg]
  end.
  - rewrite <- (scriptEnv_scriptStepFor jobCtx "构建" script step).
    apply executeScript_extends.
  - apply extends_refl. reflexivity.
Qed.

Lemma executeDeploy_extends jobCtx step st :
  extends_with (scriptEnv jobCtx step) st (snd (executeDeploy jobCtx step st)).
Proof.
  unfold executeDeploy.
  match goal with |- context [decide ?P] => destruct (decide P) end.
  - rewrite <- (scriptEnv_scriptStepFor jobCtx "部署" (builtinScript "deploy_script") step).
    apply executeScript_extends.
  - apply extends_refl. reflexivity.
Qed.

Lemma executeGitClone_calls jobCtx step st :
  scriptCalls (snd (executeGitClone jobCtx step st)) = scriptCalls st.
Proof.
  unfold executeGitClone.
  destruct (git_CloneOrPull _ _ _ _) as [[err |] e']; reflexivity.
Qed.

Lemma executeStep_extends jobCtx step st :
  extends_with (scriptEnv jobCtx step) st (snd (executeStep jobCtx step st)).
Proof.
  unfold executeStep, bind. simpl.
  set (st0 := mkExec _ _ _).
  assert (H0 : scriptCalls st0 = scriptCalls st) by reflexivity.
  apply (extends_trans _ st st0); [apply extends_refl, H0 |].
  repeat match goal with |- context [decide ?P] => destruct (decide P) end.
  - apply extends_refl, executeGitClone_calls.
  - apply executeScript_extends.
  - apply executeBuild_extends.
  - apply executeDeploy_extends.
  - apply extends_refl. reflexivity.
Qed.

(** C1, amended: every call of the script executor that a step makes
    (directly for [script], through the synthesized script step for [build]
    and [deploy]) receives an environment that maps each key of the step's
    [config.env] with a string value to that value, also when the key is one
    of the five well-known keys, and every other key to its entry in the
    engine-synthesized map: user entries win over the well-known variables. *)
Theorem executeStep_env_user_wins (jobCtx : JobContext) (step : PipelineStep) (st : ExecState) :
  exists new,
    scriptCalls (snd (executeStep jobCtx step st)) = scriptCalls st ++ new /\
    Forall (fun c : string * ExecuteOptions =>
              forall k, Env (snd c) !! k =
                match userEnv step !! k with
                | Some (VString str) => Some str
                | _ => wellKnownEnv jobCtx !! k
                end) new /\
    (step_Type step = "script" ->
     forall script, step_Config step !! "script" = Some (VString script) ->
     exists opts, new = [(script, opts)]).
Proof.
  destruct (executeStep_extends jobCtx step st) as (new & Hnew & Hall).
  exists new. split; [exact Hnew |]. split.
  - eapply Forall_impl; [exact Hall |].
    intros [script opts] Henv k. simpl in *. rewrite Henv.
    apply scriptEnv_lookup.
  - intros Hty script Hs. revert Hnew. unfold executeStep, bind. simpl.
    rewrite Hty. simpl.
    set (st0 := mkExec _ _ _). intros Hnew.
    rewrite (executeScript_calls jobCtx step st0), Hs in Hnew. simpl in Hnew.
    apply app_inv_head in Hnew. eexists. symmetry. exact Hnew.
Qed.
(** *** How steps and stages are sequenced *)

Lemma executeSteps_stop jobCtx post : forall steps0 st msg st',
  executeSteps jobCtx steps0 st = (Err msg, st') ->
  executeSteps jobCtx (steps0 ++ post) st = (Err msg, st').
Proof.
  induction steps0 as [| step more IH]; intros st msg st' H; [discriminate |].
  simpl in *. unfold bind, wrap_err in *.
  destruct (executeStep jobCtx step st) as [[[] | m] st1]; simpl in *.
  - apply IH, H.
  - exact H.
Qed.

Lemma executeStages_stop jobCtx post : forall stages i st msg st',
  executeStages jobCtx i stages st = (Err msg, st') ->
  executeStages jobCtx i (stages ++ post) st = (Err msg, st').
Proof.
  induction stages as [| stage more IH]; intros i st msg st' H; [discriminate |].
  simpl in *. unfold bind at 1 in H. unfold bind at 1. simpl in *.
  unfold bind at 1 in H. unfold bind at 1.
  destruct (wrap_err _ (executeStage jobCtx stage) _) as [[[] | m] st1].
  - unfold bind at 1 in H. unfold bind at 1. simpl in *. apply IH, H.
  - exact H.
Qed.

(** Execution stops at the first failure: when a list of steps (or of
    stages) ends in an error, nothing that follows it in the stage (or in the
    pipeline) is executed; the error and the state reached (log lines,
    executor calls, outside world) are those of the failing prefix. *)
Theorem execution_stops_at_first_failure (jobCtx : JobContext) :
  (forall steps0 post st msg st',
     executeSteps jobCtx steps0 st = (Err msg, st') ->
     executeSteps jobCtx (steps0 ++ post) st = (Err msg, st')) /\
  (forall stages post i st msg st',
     executeStages jobCtx i stages st = (Err msg, st') ->
     executeStages jobCtx i (stages ++ post) st = (Err msg, st')).
Proof.
  split.
  - intros steps0 post. apply executeSteps_stop.
  - intros stages post. apply executeStages_stop.
Qed.

(** A script step succeeds exactly when [config.script] is a string, the
    executor returns no error for it and the exit code is 0. When
    [config.script] is missing or not a string the step fails before
    anything is run or logged. *)
Theorem executeScript_succeeds_iff (jobCtx : JobContext) (step : PipelineStep)
    (st : ExecState) :
  (fst (executeScript jobCtx step st) = Ok tt <->
   exists script r,
     step_Config step !! "script" = Some (VString script) /\
     fst (fst (scripts_Execute (job_Cancelled jobCtx) script
                 (mkOpts (workDirOf jobCtx) (scriptEnv jobCtx step) (30 * 60 * 1000000000))
                 (ext st))) = Ok r /\
     Scripts.ExitCode r = 0%Z) /\
  ((forall script, step_Config step !! "script" <> Some (VString script)) ->
   executeScript jobCtx step st = (Err "脚本内容不能为空", st)).
Proof.
  unfold executeScript. split.
  - destruct (step_Config step !! "script") as [[| | | script | |] |] eqn:Hs;
      try (split; [discriminate | intros (s0 & r & Hc & _); discriminate]).
    unfold bind, wrap_err, callExecutor.
    destruct (scripts_Execute _ _ _ _) as [[res lines] e'] eqn:Hex. simpl.
    destruct (logMessages lines _) as [u st1].
    destruct res as [r | msg]; simpl.
    + destruct (decide (Scripts.ExitCode r <> 0%Z)) as [Hne | He]; simpl.
      * split; [discriminate |]. intros (s0 & r0 & Hs0 & Hr & Hz).
        inversion Hs0; subst s0. rewrite Hex in Hr. simpl in Hr.
        inversion Hr; subst. contradiction.
      * split; [| reflexivity]. intros _. exists script, r.
        split; [reflexivity |]. rewrite Hex. split; [reflexivity |].
        destruct (decide (Scripts.ExitCode r = 0%Z)); [assumption | contradiction].
    + split; [discriminate |]. intros (s0 & r0 & Hs0 & Hr & _).
      inversion Hs0; subst s0. rewrite Hex in Hr. discriminate.
  - intros Hno. destruct (step_Config step !! "script") as [[| | | script | |] |];
      try reflexivity. exfalso. apply (Hno script). reflexivity.
Qed.

(** The scripts a step hands to the executor. A step makes at most one
    call. A [git_clone] step makes none; a [build] step only ever runs one of
    the three builtin build scripts and a [deploy] step the builtin deploy
    script, whatever [config.script] says; only a [script] step runs the
    text of its [config.script]. *)
Theorem step_runs_at_most_one_script (jobCtx : JobContext) (step : PipelineStep)
    (st : ExecState) :
  exists new,
    scriptCalls (snd (executeStep jobCtx step st)) = scriptCalls st ++ new /\
    (length new <= 1)%nat /\
    (step_Type step = "git_clone" -> new = []) /\
    (forall script opts, (script, opts) ∈ new ->
       (step_Type step = "script" /\ step_Config step !! "script" = Some (VString script)) \/
       (step_Type step = "build" /\
        (script = builtinScript "node_build" \/ script = builtinScript "go_build" \/
         script = builtinScript "docker_build")) \/
       (step_Type step = "deploy" /\ script = builtinScript "deploy_script")).
Proof.
  unfold executeStep, bind. simpl. set (st0 := mkExec _ _ _).
  change (scriptCalls st) with (scriptCalls st0).
  destruct (decide (step_Type step = "git_clone")) as [Hg | Hng].
  { exists []. rewrite executeGitClone_calls, app_nil_r.
    split; [reflexivity |]. split; [simpl; lia |]. split; [reflexivity |].
    intros ? ? Hin. inversion Hin. }
  destruct (decide (step_Type step = "script")) as [Hs | Hns].
  { rewrite executeScript_calls.
    destruct (step_Config step !! "script") as [[| | | script | |] |] eqn:Hc;
      try (exists []; rewrite app_nil_r; split; [reflexivity |]; split; [simpl; lia |];
           split; [reflexivity |]; intros ? ? Hin; inversion Hin).
    eexists. split; [reflexivity |]. split; [simpl; lia |]. split; [congruence |].
    intros s0 o0 Hin. apply list_elem_of_singleton in Hin. inversion Hin; subst.
    left. split; [exact Hs | reflexivity]. }
  destruct (decide (step_Type step = "build")) as [Hb | Hnb].
  { unfold executeBuild.
    match goal with
    | |- context [match ?c with Ok _ => _ | Err _ => _ end] =>
        assert (Hchoice : forall script, c = Ok script ->
                  script = builtinScript "node_build" \/ script = builtinScript "go_build" \/
                  script = builtinScript "docker_build");
          [| destruct c as [script | msg]]
    end.
    - intros script. unfold buildScript.
      repeat match goal with
             | |- context [decide ?P] => destruct (decide P)
             | |- context [if os_Stat_ok ?a ?b then _ else _] => destruct (os_Stat_ok a b)
             end; intros Heq; inversion Heq; auto.
    - rewrite executeScript_calls. unfold scriptStepFor at 1. simpl.
      rewrite lookup_insert_eq.
      eexists. split; [reflexivity |]. split; [simpl; lia |]. split; [congruence |].
      intros s0 o0 Hin. apply list_elem_of_singleton in Hin. inversion Hin; subst.
      right. left. split; [exact Hb | apply Hchoice; reflexivity].
    - exists []. rewrite app_nil_r. split; [reflexivity |]. split; [simpl; lia |].
      split; [reflexivity |]. intros ? ? Hin. inversion Hin. }
  destruct (decide (step_Type step = "deploy")) as [Hd | Hnd].
  { unfold executeDeploy.
    match goal with |- context [decide ?P] => destruct (decide P) end.
    - rewrite executeScript_calls. unfold scriptStepFor at 1. simpl.
      rewrite lookup_insert_eq.
      eexists. split; [reflexivity |]. split; [simpl; lia |]. split; [congruence |].
      intros s0 o0 Hin. apply list_elem_of_singleton in Hin. inversion Hin; subst.
      right. right. split; [exact Hd | reflexivity].
    - exists []. rewrite app_nil_r. split; [reflexivity |]. split; [simpl; lia |].
      split; [reflexivity |]. intros ? ? Hin. inversion Hin. }
  exists []. rewrite app_nil_r. split; [reflexivity |]. split; [simpl; lia |].
  split; [reflexivity |]. intros ? ? Hin. inversion Hin.
Qed.
(** *** The goroutine of a run, one step at a time *)

(** A goroutine shares the log channel, the store and the outside world with
    the engine's callers and with the other goroutines, so [executePipeline]
    is also given as a machine that performs one effect per step. *)

(** The two loops of [executePipeline] and [executeStage]: the stage being
    executed, its steps that are left, its index, and the stages after it. *)
Record Frame : Type := mkFrame {
  fr_stage : PipelineStage;
  fr_steps : list PipelineStep;
  fr_index : nat;
  fr_more : list PipelineStage
}.

(** Where the goroutine stands: before [json.Unmarshal]; at the head of the
    loop over the stages; at the head of the loop over the steps; at the
    switch of [executeStep]; after a successful [CloneOrPull]; inside the
    script executor, with the lines it has yet to hand to the callback, its
    result and the world it leaves behind; at the call of
    [finishPipelineRun]; at the call of [logMessage] that ends
    [finishPipelineRun]; and at the deferred cleanup. *)
Inductive Phase : Type :=
  | AtParse
  | AtStages (i : nat) (stages : list PipelineStage)
  | AtSteps (f : Frame)
  | AtSwitch (step : PipelineStep) (f : Frame)
  | AfterClone (f : Frame)
  | InExecute (step : PipelineStep) (lines : list string)
      (res : result Scripts.ExecuteResult) (e' : Ext) (f : Frame)
  | AtFinish (status : RunStatus) (message : string)
  | AtFinishLog (status : RunStatus) (duration : Z)
  | AtCleanup.

(** The error of a step as [executeStage] and [executePipeline] wrap it, and
    the call of [finishPipelineRun] that follows. *)
Definition stepFailure (step : PipelineStep) (f : Frame) (msg : string) : Phase :=
  AtFinish RunStatusFailed
    (("阶段 " +:+ stage_Name (fr_stage f) +:+ " 执行失败: ")
       +:+ (("步骤 " +:+ step_Name step +:+ " 执行失败: ") +:+ msg)).

(** What the switch of [executeStep] hands to [executeScript] for a step that
    is not a [git_clone] step: the step itself, the script step that
    [executeBuild] or [executeDeploy] synthesizes, or the error with which
    the switch returns before [executeScript] is called. *)
Definition scriptStepOf (jobCtx : JobContext) (step : PipelineStep) (e : Ext)
    : result PipelineStep :=
  if decide (step_Type step = "script") then Ok step
  else if decide (step_Type step = "build") then
    match buildScript jobCtx step e with
    | Err msg => Err msg
    | Ok script => Ok (scriptStepFor "构建" script step)
    end
  else if decide (step_Type step = "deploy") then
    let deployType :=
      match step_Config step !! "type" with
      | Some (VString t) => t
      | _ => "script"
      end in
    if decide (deployType = "script")
    then Ok (scriptStepFor "部署" (builtinScript "deploy_script") step)
    else Err ("不支持的部署类型: " +:+ deployType)
  else Err ("不支持的步骤类型: " +:+ step_Type step).

(** One step of the goroutine before it reaches [finishPipelineRun], on the
    outside world and the log channel as they are when the step is taken. *)
Definition advance (jobCtx : JobContext) (ph : Phase) (st : ExecState) : Phase * ExecState :=
  match ph with
  | AtParse =>
      match json_Unmarshal (pl_Config (job_Pipeline jobCtx)) with
      | Err msg => (AtFinish RunStatusFailed ("解析流水线配置失败: " +:+ msg), st)
      | Ok config =>
          (AtStages 0 (Stages config),
           snd (logMessage ("开始执行流水线: " +:+ pl_Name (job_Pipeline jobCtx)) st))
      end
  | AtStages i [] => (AtFinish RunStatusSuccess "流水线执行成功", st)
  | AtStages i (stage :: more) =>
      (AtSteps (mkFrame stage (stage_Steps stage) i more),
       snd (logMessage ("执行阶段 " +:+ pretty (S i) +:+ ": " +:+ stage_Name stage) st))
  | AtSteps f =>
      match fr_steps f with
      | [] =>
          (AtStages (S (fr_index f)) (fr_more f),
           snd (logMessage ("阶段 " +:+ stage_Name (fr_stage f) +:+ " 执行完成") st))
      | step :: steps =>
          (AtSwitch step (mkFrame (fr_stage f) steps (fr_index f) (fr_more f)),
           snd (logMessage ("执行步骤: " +:+ step_Name step) st))
      end
  | AtSwitch step f =>
      if decide (step_Type step = "git_clone") then
        let project := job_Project jobCtx in
        match git_CloneOrPull (prj_RepoURL project) (prj_Branch project) (workDirOf jobCtx)
                (ext st) with
        | (Some err, e') =>
            (stepFailure step f ("代码拉取失败: " +:+ err),
             mkExec e' (logChan st) (scriptCalls st))
        | (None, e') => (AfterClone f, mkExec e' (logChan st) (scriptCalls st))
        end
      else
        match scriptStepOf jobCtx step (ext st) with
        | Err msg => (stepFailure step f msg, st)
        | Ok scriptStep =>
            match step_Config scriptStep !! "script" with
            | Some (VString script) =>
                let opts :=
                  mkOpts (workDirOf jobCtx) (scriptEnv jobCtx scriptStep)
                         (30 * 60 * 1000000000) in
                match scripts_Execute (job_Cancelled jobCtx) script opts (ext st) with
                | (res, lines, e') =>
                    (InExecute step lines res e' f,
                     mkExec (ext st) (logChan st) (scriptCalls st ++ [(script, opts)]))
                end
            | _ => (stepFailure step f "脚本内容不能为空", st)
            end
        end
  | AfterClone f => (AtSteps f, snd (logMessage "代码拉取完成" st))
  | InExecute step (line :: lines) res e' f =>
      (InExecute step lines res e' f, snd (logMessage line st))
  | InExecute step [] res e' f =>
      let st' := mkExec e' (logChan st) (scriptCalls st) in
      match res with
      | Err msg => (stepFailure step f ("脚本执行失败: " +:+ msg), st')
      | Ok r =>
          if decide (Scripts.ExitCode r <> 0%Z)
          then (stepFailure step f
                  ("脚本执行失败，退出码: " +:+ pretty (Scripts.ExitCode r)), st')
          else (AtSteps f, st')
      end
  | AtFinish _ _ | AtFinishLog _ _ | AtCleanup => (ph, st)
  end.

(** [n] steps in a row, nothing else happening in between. *)
Fixpoint advance_n (jobCtx : JobContext) (n : nat) (ph : Phase) (st : ExecState)
    : Phase * ExecState :=
  match n with
  | O => (ph, st)
  | S n' =>
      let '(ph', st') := advance jobCtx ph st in
      advance_n jobCtx n' ph' st'
  end.

(** *** The engine: store, live registry, goroutines and callers *)

(** The persistent store (pipelines, runs and the last run key handed out by
    auto-increment); the engine's [runningJobs] registry; the goroutines of
    the registered runs; the channels of the goroutines that have left the
    registry and have yet to close their channel; the log channels by
    address; the calls of [CancelPipelineRun] that have found their run in
    the registry and have not yet written to the store (by run id); the
    calls of [GetJobLogs] that have found their run in the registry and are
    in their receive loop (the channel and the lines received so far); and
    the outside world. *)
Record Engine : Type := mkEngine {
  db_pipelines : gmap N Pipeline;
  db_runs : gmap N PipelineRun;
  db_lastRunID : N;
  runningJobs : gmap N JobContext;
  goroutines : gmap N Phase;
  closing : list N;
  chans : gmap N Chan;
  cancelling : list N;
  draining : list (N * list string);
  world : Ext
}.

(** The engine that [NewEngine] returns, with an empty registry, together
    with the database as it stands when the process starts. *)
Definition NewEngine (pipelines : gmap N Pipeline) (runs : gmap N PipelineRun)
    (lastRunID : N) (e : Ext) : Engine :=
  mkEngine pipelines runs lastRunID ∅ ∅ [] ∅ [] [] e.

(** A row is stored under its primary key, and the keys in use were handed
    out by auto-increment. *)
Definition store_ok (runs : gmap N PipelineRun) (lastRunID : N) : Prop :=
  forall id run, runs !! id = Some run -> run_ID run = id /\ id <= lastRunID.

Definition with_world (e : Ext) (w : Engine) : Engine :=
  mkEngine (db_pipelines w) (db_runs w) (db_lastRunID w) (runningJobs w) (goroutines w)
           (closing w) (chans w) (cancelling w) (draining w) e.

Definition with_runs (runs : gmap N PipelineRun) (w : Engine) : Engine :=
  mkEngine (db_pipelines w) runs (db_lastRunID w) (runningJobs w) (goroutines w)
           (closing w) (chans w) (cancelling w) (draining w) (world w).

Definition with_chans (cs : gmap N Chan) (w : Engine) : Engine :=
  mkEngine (db_pipelines w) (db_runs w) (db_lastRunID w) (runningJobs w) (goroutines w)
           (closing w) cs (cancelling w) (draining w) (world w).

Definition with_goroutines (gs : gmap N Phase) (w : Engine) : Engine :=
  mkEngine (db_pipelines w) (db_runs w) (db_lastRunID w) (runningJobs w) gs
           (closing w) (chans w) (cancelling w) (draining w) (world w).

Definition with_cancelling (ids : list N) (w : Engine) : Engine :=
  mkEngine (db_pipelines w) (db_runs w) (db_lastRunID w) (runningJobs w) (goroutines w)
           (closing w) (chans w) ids (draining w) (world w).

Definition with_draining (calls : list (N * list string)) (w : Engine) : Engine :=
  mkEngine (db_pipelines w) (db_runs w) (db_lastRunID w) (runningJobs w) (goroutines w)
           (closing w) (chans w) (cancelling w) calls (world w).

(** [RunPipeline]: load the pipeline, create the run record, register the
    job context with a new channel and start the goroutine. The call
    returns at once. *)
Definition RunPipeline (pipelineID : N) (triggerType : string) (triggerBy : N) (w : Engine)
    : result PipelineRun * Engine :=
  match db_First_err (world w) with
  | Some err => (Err ("获取流水线失败: " +:+ err), w)
  | None =>
      match db_pipelines w !! pipelineID with
      | None => (Err "获取流水线失败: record not found", w)
      | Some pipeline =>
          let startTime := fst (time_Now (world w)) in
          let e1 := snd (time_Now (world w)) in
          match db_Create_err e1 with
          | Some err => (Err ("创建流水线运行记录失败: " +:+ err), with_world e1 w)
          | None =>
              let id := db_lastRunID w + 1 in
              let pipelineRun :=
                mkRun id pipelineID RunStatusRunning triggerType triggerBy startTime None 0 "" in
              let jobCtx := mkJob id startTime pipeline false id in
              (Ok pipelineRun,
               mkEngine (db_pipelines w) (<[id := pipelineRun]> (db_runs w)) id
                        (<[id := jobCtx]> (runningJobs w)) (<[id := AtParse]> (goroutines w))
                        (closing w) (<[id := make_chan]> (chans w)) (cancelling w)
                        (draining w) e1)
          end
      end
  end.

(** The update of [finishPipelineRun] on the run's row. *)
Definition finishedRun (status : RunStatus) (endTime : Z) (startTime : Z) (message : string)
    (run : PipelineRun) : PipelineRun :=
  mkRun (run_ID run) (run_PipelineID run) status (run_TriggerType run) (run_TriggerBy run)
        (run_StartTime run) (Some endTime) (Z.quot (endTime - startTime) 1000000000) message.

(** [finishPipelineRun] up to its call of [logMessage]: the clock is read and
    the row is updated; when the update fails the error is only printed.
    The result is the duration and the engine. *)
Definition finishPipelineRun_update (jobCtx : JobContext) (status : RunStatus)
    (message : string) (w : Engine) : Z * Engine :=
  let endTime := fst (time_Now (world w)) in
  let e1 := snd (time_Now (world w)) in
  let duration := (endTime - job_StartTime jobCtx)%Z in
  (duration,
   match db_Update_err e1 with
   | Some _ => with_world e1 w
   | None =>
       with_runs (alter (finishedRun status endTime (job_StartTime jobCtx) message)
                        (job_RunID jobCtx) (db_runs w))
                 (with_world e1 w)
   end).

Definition finishMessage (status : RunStatus) (duration : Z) : string :=
  "流水线执行完成，状态: " +:+ status_text status +:+ "，耗时: " +:+ duration_String duration.

Definition withCancelled (j : JobContext) : JobContext :=
  mkJob (job_RunID j) (job_StartTime j) (job_Pipeline j) true (job_LogChan j).

(** The goroutine's view of the engine, and the engine after a step of the
    goroutine on the channel at [addr]. *)
Definition exec_of (c : Chan) (w : Engine) : ExecState := mkExec (world w) c [].

Definition store_exec (addr : N) (st : ExecState) (w : Engine) : Engine :=
  with_chans (<[addr := logChan st]> (chans w)) (with_world (ext st) w).

(** The deferred function up to its call of [close]: the run leaves the
    registry. *)
Definition deregister (id : N) (addr : N) (w : Engine) : Engine :=
  mkEngine (db_pipelines w) (db_runs w) (db_lastRunID w)
           (delete id (runningJobs w)) (delete id (goroutines w))
           (addr :: closing w) (chans w) (cancelling w) (draining w) (world w).

(** The goroutine of run [id] takes its next step. *)
Definition goroutine_step (id : N) (w : Engine) : option Engine :=
  match goroutines w !! id, runningJobs w !! id with
  | Some ph, Some jobCtx =>
      match ph with
      | AtFinish status message =>
          Some (with_goroutines
                  (<[id := AtFinishLog status
                             (fst (finishPipelineRun_update jobCtx status message w))]>
                     (goroutines w))
                  (snd (finishPipelineRun_update jobCtx status message w)))
      | AtCleanup => Some (deregister id (job_LogChan jobCtx) w)
      | AtFinishLog status duration =>
          match chans w !! job_LogChan jobCtx with
          | Some c =>
              Some (with_goroutines (<[id := AtCleanup]> (goroutines w))
                      (store_exec (job_LogChan jobCtx)
                         (snd (logMessage (finishMessage status duration) (exec_of c w))) w))
          | None => None
          end
      | _ =>
          match chans w !! job_LogChan jobCtx with
          | Some c =>
              Some (with_goroutines
                      (<[id := fst (advance jobCtx ph (exec_of c w))]> (goroutines w))
                      (store_exec (job_LogChan jobCtx)
                         (snd (advance jobCtx ph (exec_of c w))) w))
          | None => None
          end
      end
  | _, _ => None
  end.

(** The script of run [id] is killed because the run's context has been
    cancelled: no further line reaches the callback, and the executor
    returns with [res] in the world [e']. *)
Definition interrupt (id : N) (res : result Scripts.ExecuteResult) (e' : Ext) (w : Engine)
    : option Engine :=
  match goroutines w !! id, runningJobs w !! id with
  | Some (InExecute step _ _ _ f), Some jobCtx =>
      if job_Cancelled jobCtx
      then Some (with_goroutines (<[id := InExecute step [] res e' f]> (goroutines w)) w)
      else None
  | _, _ => None
  end.

Fixpoint remove_one (x : N) (l : list N) : list N :=
  match l with
  | [] => []
  | y :: l' => if decide (x = y) then l' else y :: remove_one x l'
  end.

(** The end of the deferred function: [close(jobCtx.LogChan)]. *)
Definition close_chan (addr : N) (w : Engine) : option Engine :=
  if decide (addr ∈ closing w) then
    Some (mkEngine (db_pipelines w) (db_runs w) (db_lastRunID w) (runningJobs w)
            (goroutines w) (remove_one addr (closing w))
            (alter chan_close addr (chans w)) (cancelling w) (draining w) (world w))
  else None.

(** The update of [CancelPipelineRun] on the run's row. *)
Definition cancelledRun (now : Z) (run : PipelineRun) : PipelineRun :=
  mkRun (run_ID run) (run_PipelineID run) RunStatusCancelled (run_TriggerType run)
        (run_TriggerBy run) (run_StartTime run) (Some now) (run_Duration run)
        "流水线运行已被取消".

(** First half of [CancelPipelineRun]: the registry lookup under the read
    lock and, when the run is found, the cancellation of its context. *)
Definition cancel_lookup (runID : N) (w : Engine) : option string * Engine :=
  match runningJobs w !! runID with
  | None => (Some "流水线运行不存在或已完成", w)
  | Some jobCtx =>
      (None,
       mkEngine (db_pipelines w) (db_runs w) (db_lastRunID w)
                (<[runID := withCancelled jobCtx]> (runningJobs w)) (goroutines w)
                (closing w) (chans w) (runID :: cancelling w) (draining w) (world w))
  end.

(** Second half: the update of the row through the job context found by the
    lookup; its error is what the call returns. *)
Definition cancel_write (runID : N) (w : Engine) : option (option string * Engine) :=
  if decide (runID ∈ cancelling w) then
    let now := fst (time_Now (world w)) in
    let e1 := snd (time_Now (world w)) in
    let w1 := with_cancelling (remove_one runID (cancelling w)) (with_world e1 w) in
    match db_Update_err e1 with
    | Some err => Some (Some err, w1)
    | None => Some (None, with_runs (alter (cancelledRun now) runID (db_runs w)) w1)
    end
  else None.

(** [CancelPipelineRun] run without interruption. *)
Definition CancelPipelineRun (runID : N) (w : Engine) : option string * Engine :=
  match cancel_lookup runID w with
  | (Some err, w') => (Some err, w')
  | (None, w') =>
      match cancel_write runID w' with
      | Some r => r
      | None => (None, w')
      end
  end.

(** [GetJobLogs] up to its loop: the registry lookup under the read lock. A
    run that is not registered is read from the store and the call returns;
    for a registered run the call enters its loop on the run's channel. *)
Definition GetJobLogs_lookup (runID : N) (w : Engine)
    : option (result (list string)) * Engine :=
  match runningJobs w !! runID with
  | None =>
      match db_First_err (world w) with
      | Some _ => (Some (Err "流水线运行不存在"), w)
      | None =>
          match db_runs w !! runID with
          | None => (Some (Err "流水线运行不存在"), w)
          | Some pipelineRun => (Some (Ok [run_Logs pipelineRun]), w)
          end
      end
  | Some jobCtx => (None, with_draining (draining w ++ [(job_LogChan jobCtx, [])]) w)
  end.

(** One iteration of the loop of the [k]-th call in flight: a line is
    received and appended, or the [default] case returns the lines. *)
Definition GetJobLogs_receive (k : nat) (w : Engine) : option (option (list string) * Engine) :=
  match draining w !! k with
  | None => None
  | Some (addr, logs) =>
      match chans w !! addr with
      | None => None
      | Some c =>
          match chan_tryrecv c with
          | Some (line, c') =>
              Some (None,
                    with_draining (<[k := (addr, logs ++ [line])]> (draining w))
                      (with_chans (<[addr := c']> (chans w)) w))
          | None => Some (Some logs, with_draining (delete k (draining w)) w)
          end
      end
  end.

(** The loop of the [k]-th call, nothing else happening in between: [None]
    when [fuel] iterations do not reach the [default] case. *)
Fixpoint GetJobLogs_loop (fuel : nat) (k : nat) (w : Engine) : option (list string * Engine) :=
  match fuel with
  | O => None
  | S fuel' =>
      match GetJobLogs_receive k w with
      | None => None
      | Some (Some logs, w') => Some (logs, w')
      | Some (None, w') => GetJobLogs_loop fuel' k w'
      end
  end.

(** [GetJobLogs] run without interruption. *)
Definition GetJobLogs (fuel : nat) (runID : N) (w : Engine)
    : option (result (list string) * Engine) :=
  match GetJobLogs_lookup runID w with
  | (Some r, w') => Some (r, w')
  | (None, w') =>
      match GetJobLogs_loop fuel (length (draining w)) w' with
      | Some (logs, w'') => Some (Ok logs, w'')
      | None => None
      end
  end.

(** The atomic actions that the engine's callers, its goroutines and the
    outside world interleave. *)
Inductive Action : Type :=
  | ActRunPipeline (pipelineID : N) (triggerType : string) (triggerBy : N)
  | ActGo (runID : N)
  | ActInterrupt (runID : N) (res : result Scripts.ExecuteResult) (e' : Ext)
  | ActClose (addr : N)
  | ActCancelLookup (runID : N)
  | ActCancelWrite (runID : N)
  | ActLogsLookup (runID : N)
  | ActLogsReceive (k : nat)
  | ActWorld (e : Ext).

(** One action; [None] when the action cannot take place in [w]. *)
Definition step (a : Action) (w : Engine) : option Engine :=
  match a with
  | ActRunPipeline pipelineID triggerType triggerBy =>
      Some (snd (RunPipeline pipelineID triggerType triggerBy w))
  | ActGo runID => goroutine_step runID w
  | ActInterrupt runID res e' => interrupt runID res e' w
  | ActClose addr => close_chan addr w
  | ActCancelLookup runID => Some (snd (cancel_lookup runID w))
  | ActCancelWrite runID => snd <$> cancel_write runID w
  | ActLogsLookup runID => Some (snd (GetJobLogs_lookup runID w))
  | ActLogsReceive k => snd <$> GetJobLogs_receive k w
  | ActWorld e => Some (with_world e w)
  end.

Fixpoint steps (acts : list Action) (w : Engine) : option Engine :=
  match acts with
  | [] => Some w
  | a :: acts' =>
      match step a w with
      | Some w' => steps acts' w'
      | None => None
      end
  end.

Definition reachable (w : Engine) : Prop :=
  exists pipelines runs lastRunID e acts,
    store_ok runs lastRunID /\
    steps acts (NewEngine pipelines runs lastRunID e) = Some w.

Definition statusOf (w : Engine) (runID : N) : option RunStatus :=
  run_Status <$> db_runs w !! runID.

(** The number of runs whose persisted status is running. *)
Definition running_count (w : Engine) : nat :=
  size (filter (fun kv : N * PipelineRun => run_Status (snd kv) = RunStatusRunning) (db_runs w)).

(** *** The machine and [executePipeline] run in one piece *)

Lemma advance_n_app jobCtx n m : forall ph st,
  advance_n jobCtx (n + m) ph st =
    advance_n jobCtx m (fst (advance_n jobCtx n ph st)) (snd (advance_n jobCtx n ph st)).
Proof.
  induction n as [| n IH]; intros ph st; [reflexivity |].
  cbn [Nat.add advance_n]. destruct (advance jobCtx ph st) as [ph' st']. apply IH.
Qed.

Lemma advance_n_then jobCtx n m ph st ph1 st1 r :
  advance_n jobCtx n ph st = (ph1, st1) ->
  advance_n jobCtx m ph1 st1 = r ->
  advance_n jobCtx (n + m) ph st = r.
Proof. intros H1 H2. rewrite advance_n_app, H1. exact H2. Qed.

Lemma logMessages_cons line more st :
  logMessages (line :: more) st = logMessages more (snd (logMessage line st)).
Proof. reflexivity. Qed.

Lemma logMessages_ok lines : forall st, fst (logMessages lines st) = Ok tt.
Proof.
  induction lines as [| line more IH]; intros st; [reflexivity |].
  rewrite logMessages_cons. apply IH.
Qed.

Lemma advance_callbacks jobCtx step res e' f lines : forall st,
  advance_n jobCtx (length lines) (InExecute step lines res e' f) st
    = (InExecute step [] res e' f, snd (logMessages lines st)).
Proof.
  induction lines as [| line more IH]; intros st; [reflexivity |].
  cbn [length advance_n advance]. rewrite IH, logMessages_cons. reflexivity.
Qed.

(** The phase after a step that returned [r]. *)
Definition afterStep (step : PipelineStep) (f : Frame) (r : result unit) : Phase :=
  match r with
  | Ok _ => AtSteps f
  | Err msg => stepFailure step f msg
  end.

Lemma advance_executeScript jobCtx step scriptStep f st :
  step_Type step <> "git_clone" ->
  scriptStepOf jobCtx step (ext st) = Ok scriptStep ->
  exists n,
    advance_n jobCtx n (AtSwitch step f) st
      = (afterStep step f (fst (executeScript jobCtx scriptStep st)),
         snd (executeScript jobCtx scriptStep st)).
Proof.
  intros Hng Hs. unfold executeScript.
  destruct (step_Config scriptStep !! "script") as [[| | | script | |] |] eqn:Hc;
    try (exists 1%nat; cbn [advance_n advance];
         rewrite decide_False by exact Hng; rewrite Hs, Hc; reflexivity).
  unfold bind, wrap_err, callExecutor.
  destruct (scripts_Execute (job_Cancelled jobCtx) script
              (mkOpts (workDirOf jobCtx) (scriptEnv jobCtx scriptStep) (30 * 60 * 1000000000))
              (ext st)) as [[res lines] e'] eqn:Hex.
  exists (1 + (length lines + 1))%nat.
  eapply advance_n_then.
  { cbn [advance_n advance]. rewrite decide_False by exact Hng. rewrite Hs, Hc, Hex.
    reflexivity. }
  eapply advance_n_then; [apply advance_callbacks |].
  cbn [advance_n advance].
  destruct (logMessages lines _) as [u st1]. cbn [snd].
  destruct res as [r | msg]; cbn [fst snd]; [| reflexivity].
  destruct (decide (Scripts.ExitCode r <> 0%Z)); reflexivity.
Qed.

Lemma advance_executeStep jobCtx step stage steps0 i more st :
  exists n,
    advance_n jobCtx n (AtSteps (mkFrame stage (step :: steps0) i more)) st
      = (afterStep step (mkFrame stage steps0 i more) (fst (executeStep jobCtx step st)),
         snd (executeStep jobCtx step st)).
Proof.
  set (f := mkFrame stage steps0 i more).
  unfold executeStep, bind. cbn [logMessage].
  set (st0 := mkExec _ _ _).
  assert (Hfirst : advance jobCtx (AtSteps (mkFrame stage (step :: steps0) i more)) st
                   = (AtSwitch step f, st0)) by reflexivity.
  destruct (decide (step_Type step = "git_clone")) as [Hg | Hng].
  { unfold executeGitClone.
    destruct (git_CloneOrPull (prj_RepoURL (job_Project jobCtx))
                (prj_Branch (job_Project jobCtx)) (workDirOf jobCtx) (ext st0))
      as [[err |] e'] eqn:Hclone.
    - exists 2%nat. cbn [advance_n]. rewrite Hfirst. cbn [advance].
      rewrite decide_True by exact Hg. rewrite Hclone. reflexivity.
    - exists 3%nat. cbn [advance_n]. rewrite Hfirst. cbn [advance].
      rewrite decide_True by exact Hg. rewrite Hclone. reflexivity. }
  assert (Hrest : forall scriptStep r,
            scriptStepOf jobCtx step (ext st0) = Ok scriptStep ->
            r = executeScript jobCtx scriptStep st0 ->
            exists n,
              advance_n jobCtx n (AtSteps (mkFrame stage (step :: steps0) i more)) st
                = (afterStep step f (fst r), snd r)).
  { intros scriptStep r Hs ->.
    destruct (advance_executeScript jobCtx step scriptStep f st0 Hng Hs) as [n Hn].
    exists (S n). cbn [advance_n]. rewrite Hfirst. exact Hn. }
  assert (Hfail : forall msg,
            scriptStepOf jobCtx step (ext st0) = Err msg ->
            exists n,
              advance_n jobCtx n (AtSteps (mkFrame stage (step :: steps0) i more)) st
                = (stepFailure step f msg, st0)).
  { intros msg Hs. exists 2%nat. cbn [advance_n]. rewrite Hfirst. cbn [advance].
    rewrite decide_False by exact Hng. rewrite Hs. reflexivity. }
  unfold scriptStepOf in Hrest, Hfail.
  destruct (decide (step_Type step = "script")) as [Hsc | Hnsc].
  { apply (Hrest step); reflexivity. }
  destruct (decide (step_Type step = "build")) as [Hb | Hnb].
  { unfold executeBuild.
    destruct (buildScript jobCtx step (ext st0)) as [script | msg].
    - apply (Hrest (scriptStepFor "构建" script step)); reflexivity.
    - apply Hfail. reflexivity. }
  destruct (decide (step_Type step = "deploy")) as [Hd | Hnd].
  { unfold executeDeploy.
    match goal with |- context [decide ?P] => destruct (decide P) end.
    - apply (Hrest (scriptStepFor "部署" (builtinScript "deploy_script") step)); reflexivity.
    - apply Hfail. reflexivity. }
  apply Hfail. reflexivity.
Qed.

Lemma executeSteps_cons jobCtx step more st :
  executeSteps jobCtx (step :: more) st =
    match executeStep jobCtx step st with
    | (Ok _, st1) => executeSteps jobCtx more st1
    | (Err msg, st1) => (Err (("步骤 " +:+ step_Name step +:+ " 执行失败: ") +:+ msg), st1)
    end.
Proof.
  cbn [executeSteps]. unfold bind, wrap_err.
  destruct (executeStep jobCtx step st) as [[[] | msg] st1]; reflexivity.
Qed.

Lemma executeStages_cons jobCtx i stage more st :
  executeStages jobCtx i (stage :: more) st =
    match executeSteps jobCtx (stage_Steps stage)
            (snd (logMessage ("执行阶段 " +:+ pretty (S i) +:+ ": " +:+ stage_Name stage) st)) with
    | (Ok _, st1) =>
        executeStages jobCtx (S i) more
          (snd (logMessage ("阶段 " +:+ stage_Name stage +:+ " 执行完成") st1))
    | (Err msg, st1) => (Err (("阶段 " +:+ stage_Name stage +:+ " 执行失败: ") +:+ msg), st1)
    end.
Proof.
  cbn [executeStages]. unfold bind, wrap_err, executeStage. cbn [logMessage snd].
  destruct (executeSteps jobCtx (stage_Steps stage) _) as [[[] | msg] st1]; reflexivity.
Qed.

Lemma advance_executeSteps jobCtx stage i more : forall steps0 st,
  exists n,
    advance_n jobCtx n (AtSteps (mkFrame stage steps0 i more)) st
      = (match fst (executeSteps jobCtx steps0 st) with
         | Ok _ => AtSteps (mkFrame stage [] i more)
         | Err msg =>
             AtFinish RunStatusFailed (("阶段 " +:+ stage_Name stage +:+ " 执行失败: ") +:+ msg)
         end,
         snd (executeSteps jobCtx steps0 st)).
Proof.
  induction steps0 as [| step steps0 IH]; intros st.
  { exists 0%nat. reflexivity. }
  destruct (advance_executeStep jobCtx step stage steps0 i more st) as [n Hn].
  rewrite executeSteps_cons.
  destruct (executeStep jobCtx step st) as [[[] | msg] st1]; cbn [fst snd] in *.
  - destruct (IH st1) as [m Hm]. exists (n + m)%nat.
    eapply advance_n_then; [exact Hn | exact Hm].
  - exists n. exact Hn.
Qed.

Lemma advance_executeStages jobCtx : forall stages i st,
  exists n,
    advance_n jobCtx n (AtStages i stages) st
      = (match fst (executeStages jobCtx i stages st) with
         | Ok _ => AtFinish RunStatusSuccess "流水线执行成功"
         | Err msg => AtFinish RunStatusFailed msg
         end,
         snd (executeStages jobCtx i stages st)).
Proof.
  induction stages as [| stage more IH]; intros i st.
  { exists 1%nat. reflexivity. }
  rewrite executeStages_cons.
  set (st0 := snd (logMessage _ st)).
  destruct (advance_executeSteps jobCtx stage i more (stage_Steps stage) st0) as [n Hn].
  destruct (executeSteps jobCtx (stage_Steps stage) st0) as [[[] | msg] st1];
    cbn [fst snd] in *.
  - destruct (IH (S i) (snd (logMessage ("阶段 " +:+ stage_Name stage +:+ " 执行完成") st1)))
      as [m Hm].
    exists (1 + (n + (1 + m)))%nat.
    eapply advance_n_then; [reflexivity |].
    eapply advance_n_then; [exact Hn |].
    eapply advance_n_then; [reflexivity | exact Hm].
  - exists (1 + n)%nat. eapply advance_n_then; [reflexivity | exact Hn].
Qed.

(** Left to itself, the machine reaches the call of [finishPipelineRun] after
    finitely many steps, with the status and the message of
    [executePipeline], and leaves the log channel and the outside world as
    [executePipeline] does. *)
Lemma advance_runOutcome jobCtx st :
  exists n,
    advance_n jobCtx n AtParse st
      = (AtFinish (fst (fst (runOutcome jobCtx st))) (snd (fst (runOutcome jobCtx st))),
         snd (runOutcome jobCtx st)).
Proof.
  unfold runOutcome.
  destruct (json_Unmarshal (pl_Config (job_Pipeline jobCtx))) as [config | msg] eqn:Hparse.
  - unfold bind. cbn [logMessage].
    set (st0 := mkExec _ _ _).
    destruct (advance_executeStages jobCtx (Stages config) 0%nat st0) as [n Hn].
    exists (1 + n)%nat. eapply advance_n_then.
    { cbn [advance_n advance]. rewrite Hparse. reflexivity. }
    etransitivity; [exact Hn |].
    destruct (executeStages jobCtx 0 (Stages config) st0) as [[[] | m] st1]; reflexivity.
  - exists 1%nat. cbn [advance_n advance]. rewrite Hparse. reflexivity.
Qed.

(** *** The registry, the goroutines and the rows *)

Lemma is_Some_insert_iff {A B} (m1 : gmap N A) (m2 : gmap N B) k a b :
  (forall id, is_Some (m1 !! id) <-> is_Some (m2 !! id)) ->
  forall id, is_Some (<[k := a]> m1 !! id) <-> is_Some (<[k := b]> m2 !! id).
Proof.
  intros H id. destruct (decide (k = id)) as [-> | Hne].
  - rewrite !lookup_insert_eq. split; eauto.
  - rewrite !lookup_insert_ne by exact Hne. apply H.
Qed.

Lemma is_Some_insert_same {A} (m : gmap N A) k a x id :
  m !! k = Some x -> (is_Some (<[k := a]> m !! id) <-> is_Some (m !! id)).
Proof.
  intros Hk. destruct (decide (k = id)) as [-> | Hne].
  - rewrite lookup_insert_eq, Hk. split; eauto.
  - rewrite lookup_insert_ne by exact Hne. reflexivity.
Qed.

Lemma is_Some_insert_more {A} (m : gmap N A) k a id :
  is_Some (m !! id) -> is_Some (<[k := a]> m !! id).
Proof.
  intros H. destruct (decide (k = id)) as [-> | Hne].
  - rewrite lookup_insert_eq. eauto.
  - rewrite lookup_insert_ne by exact Hne. exact H.
Qed.

Lemma is_Some_alter {A} (f : A -> A) (m : gmap N A) k id :
  is_Some (alter f k m !! id) <-> is_Some (m !! id).
Proof.
  destruct (decide (k = id)) as [-> | Hne].
  - rewrite lookup_alter_eq. destruct (m !! id); cbn; split; intros [? ?]; eauto; discriminate.
  - rewrite lookup_alter_ne by exact Hne. reflexivity.
Qed.

(** What a step of a goroutine changes in the store and in the registry: at
    most the row of its own run, by the update of [finishPipelineRun]; its
    own position; and, at the cleanup, its entry in the registry. *)
Lemma goroutine_step_shape id w w' :
  goroutine_step id w = Some w' ->
  exists ph jobCtx,
    goroutines w !! id = Some ph /\ runningJobs w !! id = Some jobCtx /\
    db_pipelines w' = db_pipelines w /\ db_lastRunID w' = db_lastRunID w /\
    cancelling w' = cancelling w /\ draining w' = draining w /\
    (db_runs w' = db_runs w \/
     exists status endTime message,
       ph = AtFinish status message /\
       db_runs w' = alter (finishedRun status endTime (job_StartTime jobCtx) message)
                          (job_RunID jobCtx) (db_runs w)) /\
    ((runningJobs w' = runningJobs w /\
      exists ph', goroutines w' = <[id := ph']> (goroutines w)) \/
     (ph = AtCleanup /\ runningJobs w' = delete id (runningJobs w) /\
      goroutines w' = delete id (goroutines w))) /\
    (forall addr, is_Some (chans w' !! addr) <-> is_Some (chans w !! addr)).
Proof.
  unfold goroutine_step. intros H.
  destruct (goroutines w !! id) as [ph |] eqn:Hg; [| discriminate].
  destruct (runningJobs w !! id) as [jobCtx |] eqn:Hj; [| discriminate].
  exists ph, jobCtx. split; [reflexivity |]. split; [reflexivity |].
  destruct ph;
    try (destruct (chans w !! job_LogChan jobCtx) as [c |] eqn:Hc; [| discriminate];
         inversion H; subst w'; clear H; cbn;
         repeat (split; [reflexivity |]); split; [left; reflexivity |];
         split; [left; split; [reflexivity | eexists; reflexivity] |];
         intros addr; eapply is_Some_insert_same; eassumption).
  - inversion H; subst w'; clear H. unfold finishPipelineRun_update. cbn [fst snd].
    destruct (db_Update_err (snd (time_Now (world w)))); cbn;
      repeat (split; [reflexivity |]).
    + split; [left; reflexivity |].
      split; [left; split; [reflexivity | eexists; reflexivity] | reflexivity].
    + split; [right; eexists _, _, _; split; reflexivity |].
      split; [left; split; [reflexivity | eexists; reflexivity] | reflexivity].
  - inversion H; subst w'; clear H. cbn. repeat (split; [reflexivity |]).
    split; [left; reflexivity |]. split; [right; repeat split | reflexivity].
Qed.

(** The registry holds exactly the runs that have a registered goroutine; a
    job context is registered under the id of its run and names the run's
    channel; registered runs and pending cancellations have rows; a row
    sits under its own id, and its key was handed out by the store. *)
Record live_inv (w : Engine) : Prop := mkLiveInv {
  lv_dom : forall id, is_Some (runningJobs w !! id) <-> is_Some (goroutines w !! id);
  lv_job : forall id jobCtx, runningJobs w !! id = Some jobCtx ->
             job_RunID jobCtx = id /\ job_LogChan jobCtx = id;
  lv_live : forall id, is_Some (runningJobs w !! id) -> is_Some (db_runs w !! id);
  lv_chan : forall id, is_Some (runningJobs w !! id) -> is_Some (chans w !! id);
  lv_chans : forall addr, is_Some (chans w !! addr) -> addr <= db_lastRunID w;
  lv_cancel : forall id, id ∈ cancelling w -> is_Some (db_runs w !! id);
  lv_row : forall id run, db_runs w !! id = Some run ->
             run_ID run = id /\ id <= db_lastRunID w
}.

Lemma NewEngine_live pipelines runs lastRunID e :
  store_ok runs lastRunID -> live_inv (NewEngine pipelines runs lastRunID e).
Proof.
  intros Hok. split; cbn.
  - intros id. split; intros [x H]; rewrite lookup_empty in H; discriminate.
  - intros id jobCtx H. rewrite lookup_empty in H. discriminate.
  - intros id [x H]. rewrite lookup_empty in H. discriminate.
  - intros id [x H]. rewrite lookup_empty in H. discriminate.
  - intros id [x H]. rewrite lookup_empty in H. discriminate.
  - intros id H. inversion H.
  - exact Hok.
Qed.

Lemma elem_of_remove_one x y l : x ∈ remove_one y l -> x ∈ l.
Proof.
  induction l as [| z l IH]; simpl; [auto |].
  destruct (decide (y = z)).
  - intros H. now apply elem_of_cons; right.
  - intros H. apply elem_of_cons in H as [-> | H]; [apply elem_of_cons; now left |].
    apply elem_of_cons; right. auto.
Qed.

Lemma alter_row_ok (f : PipelineRun -> PipelineRun) (k : N) (runs : gmap N PipelineRun)
    (last : N) :
  (forall run, run_ID (f run) = run_ID run) ->
  (forall id run, runs !! id = Some run -> run_ID run = id /\ id <= last) ->
  forall id run, alter f k runs !! id = Some run -> run_ID run = id /\ id <= last.
Proof.
  intros Hf Hrow id run. destruct (decide (k = id)) as [-> | Hne].
  - rewrite lookup_alter_eq. destruct (runs !! id) as [run0 |] eqn:Hr0; [| discriminate].
    cbn. intros H. inversion H; subst run. rewrite Hf. apply (Hrow _ _ Hr0).
  - rewrite lookup_alter_ne by exact Hne. apply Hrow.
Qed.

Lemma step_live a w w' : live_inv w -> step a w = Some w' -> live_inv w'.
Proof.
  intros [Hdom Hjob Hlive Hchan Hrange Hcan Hrow] Hstep.
  destruct a as [pid tt tb | r | r res e' | addr | r | r | r | k | e]; cbn [step] in Hstep.
  - inversion Hstep; subst w'; clear Hstep. unfold RunPipeline.
    destruct (db_First_err (world w)); [split; assumption |].
    destruct (db_pipelines w !! pid) as [pipeline |]; [| split; assumption].
    destruct (db_Create_err _); [split; assumption |].
    split; cbn [snd runningJobs db_runs db_lastRunID goroutines cancelling chans].
    + apply is_Some_insert_iff, Hdom.
    + intros id jobCtx. destruct (decide (db_lastRunID w + 1 = id)) as [<- | Hne].
      * rewrite lookup_insert_eq. intros H. inversion H. split; reflexivity.
      * rewrite lookup_insert_ne by exact Hne. apply Hjob.
    + intros id. destruct (decide (db_lastRunID w + 1 = id)) as [<- | Hne].
      * rewrite !lookup_insert_eq. eauto.
      * rewrite !lookup_insert_ne by exact Hne. apply Hlive.
    + intros id. destruct (decide (db_lastRunID w + 1 = id)) as [<- | Hne].
      * rewrite !lookup_insert_eq. eauto.
      * rewrite !lookup_insert_ne by exact Hne. apply Hchan.
    + intros id. destruct (decide (db_lastRunID w + 1 = id)) as [<- | Hne]; [lia |].
      rewrite lookup_insert_ne by exact Hne. intros H. specialize (Hrange id H). lia.
    + intros id H. apply is_Some_insert_more, Hcan, H.
    + intros id run. destruct (decide (db_lastRunID w + 1 = id)) as [<- | Hne].
      * rewrite lookup_insert_eq. intros H. inversion H. cbn. lia.
      * rewrite lookup_insert_ne by exact Hne. intros H.
        destruct (Hrow id run H). split; [assumption | lia].
  - destruct (goroutine_step_shape _ _ _ Hstep)
      as (ph & jobCtx & Hg & Hj & _ & Hlast & Hcanc & _ & Hruns & Hreg & Hmono).
    assert (Hsome : forall id, is_Some (db_runs w' !! id) <-> is_Some (db_runs w !! id)).
    { intros id. destruct Hruns as [-> | (status & endTime & message & _ & ->)];
        [reflexivity | apply is_Some_alter]. }
    assert (Hsub : forall id, is_Some (runningJobs w' !! id) -> is_Some (runningJobs w !! id)).
    { intros id. destruct Hreg as [[-> _] | (_ & -> & _)]; [auto |].
      intros [x Hx]. apply lookup_delete_Some in Hx as [_ Hx]. eauto. }
    split.
    + intros id. destruct Hreg as [[-> [ph' ->]] | (_ & -> & ->)].
      * rewrite (is_Some_insert_same _ _ _ _ _ Hg). apply Hdom.
      * destruct (decide (r = id)) as [-> | Hne].
        -- rewrite !lookup_delete_eq. split; intros [? ?]; discriminate.
        -- rewrite !lookup_delete_ne by exact Hne. apply Hdom.
    + intros id j Hid. apply Hjob.
      destruct Hreg as [[E _] | (_ & E & _)]; rewrite E in Hid; [exact Hid |].
      apply lookup_delete_Some in Hid as [_ Hid]. exact Hid.
    + intros id H. apply Hsome, Hlive, Hsub, H.
    + intros id H. apply Hmono, Hchan, Hsub, H.
    + intros id H. rewrite Hlast. apply Hrange, Hmono, H.
    + intros id H. rewrite Hcanc in H. apply Hsome, Hcan, H.
    + rewrite Hlast. destruct Hruns as [-> | (status & endTime & message & _ & ->)];
        [exact Hrow |].
      apply alter_row_ok; [reflexivity | exact Hrow].
  - unfold interrupt in Hstep.
    destruct (goroutines w !! r) as [[] |] eqn:Hg; try discriminate.
    destruct (runningJobs w !! r) as [jobCtx |] eqn:Hj; try discriminate.
    destruct (job_Cancelled jobCtx); [| discriminate].
    inversion Hstep; subst w'; clear Hstep.
    split; cbn; try assumption.
    intros id. rewrite (is_Some_insert_same _ _ _ _ _ Hg). apply Hdom.
  - unfold close_chan in Hstep. destruct (decide (addr ∈ closing w)); [| discriminate].
    inversion Hstep; subst w'; clear Hstep.
    split; cbn; try assumption.
    + intros id H. apply is_Some_alter, Hchan, H.
    + intros id H. apply Hrange. eapply is_Some_alter, H.
  - inversion Hstep; subst w'; clear Hstep. unfold cancel_lookup.
    destruct (runningJobs w !! r) as [jobCtx |] eqn:Hj; [| split; assumption].
    split; cbn [snd runningJobs db_runs db_lastRunID goroutines cancelling chans];
      try assumption.
    + intros id. rewrite (is_Some_insert_same _ _ _ _ _ Hj). apply Hdom.
    + intros id j. destruct (decide (r = id)) as [<- | Hne].
      * rewrite lookup_insert_eq. intros H. inversion H. cbn. apply (Hjob _ _ Hj).
      * rewrite lookup_insert_ne by exact Hne. apply Hjob.
    + intros id. rewrite (is_Some_insert_same _ _ _ _ _ Hj). apply Hlive.
    + intros id. rewrite (is_Some_insert_same _ _ _ _ _ Hj). apply Hchan.
    + intros id Hin. apply elem_of_cons in Hin as [-> | Hin]; [| auto].
      apply Hlive. eauto.
  - unfold cancel_write in Hstep. destruct (decide (r ∈ cancelling w)); [| discriminate].
    destruct (db_Update_err _); cbn in Hstep; inversion Hstep; subst w'; clear Hstep;
      split; cbn; try assumption.
    + intros id Hin. apply Hcan. eapply elem_of_remove_one, Hin.
    + intros id H. apply is_Some_alter, Hlive, H.
    + intros id Hin. apply is_Some_alter, Hcan. eapply elem_of_remove_one, Hin.
    + apply alter_row_ok; [reflexivity | exact Hrow].
  - inversion Hstep; subst w'; clear Hstep. unfold GetJobLogs_lookup.
    destruct (runningJobs w !! r) as [jobCtx |].
    + split; assumption.
    + destruct (db_First_err (world w)); [split; assumption |].
      destruct (db_runs w !! r); split; assumption.
  - unfold GetJobLogs_receive in Hstep.
    destruct (draining w !! k) as [[addr logs] |]; [| discriminate].
    destruct (chans w !! addr) as [c |] eqn:Hc; [| discriminate].
    destruct (chan_tryrecv c) as [[line c'] |]; cbn in Hstep;
      inversion Hstep; subst w'; clear Hstep; split; cbn; try assumption.
    + intros id H. apply is_Some_insert_more, Hchan, H.
    + intros id H. apply Hrange. eapply is_Some_insert_same; eassumption.
  - inversion Hstep; subst w'. split; assumption.
Qed.

Lemma steps_live acts : forall w w', live_inv w -> steps acts w = Some w' -> live_inv w'.
Proof.
  induction acts as [| a acts IH]; simpl; intros w w' Hinv Hs.
  - inversion Hs; subst. exact Hinv.
  - destruct (step a w) as [w1 |] eqn:Ha; [| discriminate].
    eapply IH; [| exact Hs]. eapply step_live; eauto.
Qed.

Lemma reachable_live w : reachable w -> live_inv w.
Proof.
  intros (pipelines & runs & lastRunID & e & acts & Hok & Hs).
  eapply steps_live; [apply NewEngine_live, Hok | exact Hs].
Qed.

Lemma steps_app acts1 acts2 w w1 :
  steps acts1 w = Some w1 -> steps (acts1 ++ acts2) w = steps acts2 w1.
Proof.
  revert w. induction acts1 as [| a acts1 IH]; simpl; intros w H.
  - inversion H. reflexivity.
  - destruct (step a w) as [w0 |]; [apply IH, H | discriminate].
Qed.

Lemma steps_reachable acts w w' : reachable w -> steps acts w = Some w' -> reachable w'.
Proof.
  intros (pipelines & runs & lastRunID & e & acts0 & Hok & Hs) H.
  exists pipelines, runs, lastRunID, e, (acts0 ++ acts).
  split; [exact Hok |]. rewrite (steps_app _ _ _ _ Hs). exact H.
Qed.

(** In every reachable state the live registry holds exactly the runs whose
    goroutine has not yet run its deferred cleanup; each registered job
    context carries the id it is registered under and has a stored row with
    that id; and every call of [CancelPipelineRun] that is under way refers
    to a stored run. *)
Theorem live_registry_consistent (w : Engine) :
  reachable w ->
  (forall id, is_Some (runningJobs w !! id) <-> is_Some (goroutines w !! id)) /\
  (forall id jobCtx, runningJobs w !! id = Some jobCtx ->
     job_RunID jobCtx = id /\
     exists run, db_runs w !! id = Some run /\ run_ID run = id) /\
  (forall id, id ∈ cancelling w -> is_Some (db_runs w !! id)).
Proof.
  intros Hreach. pose proof (reachable_live _ Hreach) as Hlive.
  split; [apply (lv_dom _ Hlive) |]. split.
  - intros id jobCtx Hj. split; [apply (lv_job _ Hlive _ _ Hj) |].
    destruct (lv_live _ Hlive id) as [run Hrun]; [eauto |].
    exists run. split; [exact Hrun | apply (lv_row _ Hlive _ _ Hrun)].
  - apply (lv_cancel _ Hlive).
Qed.

(** *** What never changes in a row *)

(** The columns of a run's row that no engine code writes after the row is
    created. *)
Definition same_identity (a b : PipelineRun) : Prop :=
  run_ID a = run_ID b /\ run_PipelineID a = run_PipelineID b /\
  run_TriggerType a = run_TriggerType b /\ run_TriggerBy a = run_TriggerBy b /\
  run_StartTime a = run_StartTime b.

Lemma same_identity_refl a : same_identity a a.
Proof. repeat split. Qed.

Lemma same_identity_trans a b c : same_identity a b -> same_identity b c -> same_identity a c.
Proof.
  intros (H1 & H2 & H3 & H4 & H5) (G1 & G2 & G3 & G4 & G5).
  repeat split; congruence.
Qed.

Lemma alter_identity (f : PipelineRun -> PipelineRun) (k id : N) (runs : gmap N PipelineRun)
    (run : PipelineRun) :
  (forall r, same_identity (f r) r) ->
  runs !! id = Some run ->
  exists run', alter f k runs !! id = Some run' /\ same_identity run' run.
Proof.
  intros Hf Hrun. destruct (decide (k = id)) as [-> | Hne].
  - rewrite lookup_alter_eq, Hrun. cbn. eexists. split; [reflexivity | apply Hf].
  - rewrite lookup_alter_ne by exact Hne. exists run. split; [exact Hrun | apply same_identity_refl].
Qed.

Lemma step_identity a w w' id run :
  live_inv w -> step a w = Some w' -> db_runs w !! id = Some run ->
  exists run', db_runs w' !! id = Some run' /\ same_identity run' run.
Proof.
  intros Hlive Hstep Hrun.
  assert (Hsame : exists run', db_runs w !! id = Some run' /\ same_identity run' run)
    by (exists run; split; [exact Hrun | apply same_identity_refl]).
  destruct a as [pid tt tb | r | r res e' | addr | r | r | r | k | e]; cbn [step] in Hstep.
  - inversion Hstep; subst w'; clear Hstep. unfold RunPipeline.
    destruct (db_First_err (world w)); [exact Hsame |].
    destruct (db_pipelines w !! pid) as [pipeline |]; [| exact Hsame].
    destruct (db_Create_err _); [exact Hsame |].
    cbn [snd db_runs]. destruct (lv_row _ Hlive _ _ Hrun) as [_ Hrange].
    rewrite lookup_insert_ne by lia. exact Hsame.
  - destruct (goroutine_step_shape _ _ _ Hstep)
      as (ph & jobCtx & _ & _ & _ & _ & _ & _ & Hruns & _).
    destruct Hruns as [-> | (status & endTime & message & _ & ->)]; [exact Hsame |].
    apply alter_identity; [| exact Hrun]. intros r0. repeat split.
  - unfold interrupt in Hstep.
    destruct (goroutines w !! r) as [[] |]; try discriminate.
    destruct (runningJobs w !! r) as [jobCtx |]; try discriminate.
    destruct (job_Cancelled jobCtx); [| discriminate].
    inversion Hstep; subst w'. exact Hsame.
  - unfold close_chan in Hstep. destruct (decide (addr ∈ closing w)); [| discriminate].
    inversion Hstep; subst w'. exact Hsame.
  - inversion Hstep; subst w'; clear Hstep. unfold cancel_lookup.
    destruct (runningJobs w !! r) as [jobCtx |]; exact Hsame.
  - unfold cancel_write in Hstep. destruct (decide (r ∈ cancelling w)); [| discriminate].
    destruct (db_Update_err _); cbn in Hstep; inversion Hstep; subst w'; clear Hstep;
      cbn [db_runs with_runs with_cancelling with_world]; [exact Hsame |].
    apply alter_identity; [| exact Hrun]. intros r0. repeat split.
  - inversion Hstep; subst w'; clear Hstep. unfold GetJobLogs_lookup.
    destruct (runningJobs w !! r) as [jobCtx |]; [exact Hsame |].
    destruct (db_First_err (world w)); [exact Hsame |].
    destruct (db_runs w !! r); exact Hsame.
  - unfold GetJobLogs_receive in Hstep.
    destruct (draining w !! k) as [[addr logs] |]; [| discriminate].
    destruct (chans w !! addr) as [c |]; [| discriminate].
    destruct (chan_tryrecv c) as [[line c'] |]; cbn in Hstep;
      inversion Hstep; subst w'; exact Hsame.
  - inversion Hstep; subst w'. exact Hsame.
Qed.

Lemma steps_identity acts id : forall w w' run,
  live_inv w -> steps acts w = Some w' -> db_runs w !! id = Some run ->
  exists run', db_runs w' !! id = Some run' /\ same_identity run' run.
Proof.
  induction acts as [| a acts IH]; simpl; intros w w' run Hlive Hs Hrun.
  - inversion Hs; subst. exists run. split; [exact Hrun | apply same_identity_refl].
  - destruct (step a w) as [w1 |] eqn:Ha; [| discriminate].
    destruct (step_identity _ _ _ _ _ Hlive Ha Hrun) as (run1 & Hrun1 & Hid1).
    destruct (IH w1 w' run1 (step_live _ _ _ Hlive Ha) Hs Hrun1) as (run' & Hrun' & Hid').
    exists run'. split; [exact Hrun' | eapply same_identity_trans; eauto].
Qed.

(** A stored run is never deleted and never re-keyed: whatever the engine
    does after a reachable state, the row of run [id] is still there and still
    has the id, pipeline, trigger type, trigger user and start time it had.
    Only status, end time, duration and message are ever rewritten. *)
Theorem run_identity_is_permanent (acts : list Action) (w w' : Engine) (id : N)
    (run : PipelineRun) :
  reachable w -> steps acts w = Some w' -> db_runs w !! id = Some run ->
  exists run',
    db_runs w' !! id = Some run' /\
    run_ID run' = id /\
    run_PipelineID run' = run_PipelineID run /\
    run_TriggerType run' = run_TriggerType run /\
    run_TriggerBy run' = run_TriggerBy run /\
    run_StartTime run' = run_StartTime run.
Proof.
  intros Hreach Hs Hrun. pose proof (reachable_live _ Hreach) as Hlive.
  destruct (steps_identity acts id w w' run Hlive Hs Hrun)
    as (run' & Hrun' & H1 & H2 & H3 & H4 & H5).
  exists run'. split; [exact Hrun' |].
  destruct (lv_row _ Hlive _ _ Hrun) as [Hid _].
  repeat split; congruence.
Qed.

(** *** Admission of runs *)

(** Run keys come from the auto-increment counter. *)
Definition keys_handed_out (w : Engine) : Prop :=
  forall id, is_Some (db_runs w !! id) -> id <= db_lastRunID w.

(** [n] calls of [RunPipeline] in a row. *)
Fixpoint submit (n : nat) (pipelineID : N) (triggerType : string) (triggerBy : N)
    (w : Engine) : Engine :=
  match n with
  | O => w
  | S n' =>
      submit n' pipelineID triggerType triggerBy
        (snd (RunPipeline pipelineID triggerType triggerBy w))
  end.

(** The run that [RunPipeline] creates and the engine it leaves. *)
Definition newRun (pipelineID : N) (triggerType : string) (triggerBy : N) (w : Engine)
    : PipelineRun :=
  mkRun (db_lastRunID w + 1) pipelineID RunStatusRunning triggerType triggerBy
        (fst (time_Now (world w))) None 0 "".

Definition newJob (pipeline : Pipeline) (w : Engine) : JobContext :=
  mkJob (db_lastRunID w + 1) (fst (time_Now (world w))) pipeline false (db_lastRunID w + 1).

Lemma RunPipeline_found pipelineID triggerType triggerBy w pipeline :
  db_First_err (world w) = None ->
  db_pipelines w !! pipelineID = Some pipeline ->
  db_Create_err (snd (time_Now (world w))) = None ->
  RunPipeline pipelineID triggerType triggerBy w =
    (Ok (newRun pipelineID triggerType triggerBy w),
     mkEngine (db_pipelines w)
       (<[db_lastRunID w + 1 := newRun pipelineID triggerType triggerBy w]> (db_runs w))
       (db_lastRunID w + 1)
       (<[db_lastRunID w + 1 := newJob pipeline w]> (runningJobs w))
       (<[db_lastRunID w + 1 := AtParse]> (goroutines w))
       (closing w) (<[db_lastRunID w + 1 := make_chan]> (chans w)) (cancelling w)
       (draining w) (snd (time_Now (world w)))).
Proof. intros Hf Hp Hc. unfold RunPipeline. rewrite Hf, Hp, Hc. reflexivity. Qed.

(** A call that returns an error leaves the store, the registry, the
    goroutines and the channels as they were. *)
Lemma RunPipeline_failed pipelineID triggerType triggerBy w msg :
  fst (RunPipeline pipelineID triggerType triggerBy w) = Err msg ->
  exists e,
    snd (RunPipeline pipelineID triggerType triggerBy w) = with_world e w /\
    (db_First_err (world w) <> None \/ db_pipelines w !! pipelineID = None \/
     db_Create_err (snd (time_Now (world w))) <> None).
Proof.
  unfold RunPipeline.
  destruct (db_First_err (world w)) eqn:Hf.
  { intros _. exists (world w). split; [destruct w; reflexivity | left; discriminate]. }
  destruct (db_pipelines w !! pipelineID) eqn:Hp.
  2:{ intros _. exists (world w). split; [destruct w; reflexivity | right; left; reflexivity]. }
  destruct (db_Create_err _) eqn:Hc; [| discriminate].
  intros _. eexists. split; [reflexivity | right; right; discriminate].
Qed.

Lemma RunPipeline_pipelines pipelineID triggerType triggerBy w :
  db_pipelines (snd (RunPipeline pipelineID triggerType triggerBy w)) = db_pipelines w.
Proof.
  unfold RunPipeline. destruct (db_First_err (world w)); [reflexivity |].
  destruct (db_pipelines w !! pipelineID); [| reflexivity].
  destruct (db_Create_err _); reflexivity.
Qed.

Lemma RunPipeline_keys pipelineID triggerType triggerBy w :
  keys_handed_out w -> keys_handed_out (snd (RunPipeline pipelineID triggerType triggerBy w)).
Proof.
  intros Hk. unfold RunPipeline. destruct (db_First_err (world w)); [exact Hk |].
  destruct (db_pipelines w !! pipelineID); [| exact Hk].
  destruct (db_Create_err _); [exact Hk |].
  unfold keys_handed_out. cbn [snd db_runs db_lastRunID].
  intros id Hid. destruct (decide (db_lastRunID w + 1 = id)) as [<- | Hne]; [lia |].
  rewrite lookup_insert_ne in Hid by exact Hne. specialize (Hk id Hid). lia.
Qed.

Lemma RunPipeline_running_count pipelineID triggerType triggerBy w pipeline :
  keys_handed_out w ->
  db_First_err (world w) = None ->
  db_pipelines w !! pipelineID = Some pipeline ->
  db_Create_err (snd (time_Now (world w))) = None ->
  running_count (snd (RunPipeline pipelineID triggerType triggerBy w)) = S (running_count w).
Proof.
  intros Hk Hf Hp Hc. rewrite (RunPipeline_found _ _ _ _ _ Hf Hp Hc).
  unfold running_count. cbn [snd db_runs].
  rewrite map_filter_insert_True by reflexivity.
  apply map_size_insert_None. apply map_lookup_filter_None_2. left.
  destruct (db_runs w !! (db_lastRunID w + 1)) eqn:E; [| reflexivity].
  assert (db_lastRunID w + 1 <= db_lastRunID w) by (apply Hk; eauto). lia.
Qed.

Lemma submit_pipelines n pipelineID triggerType triggerBy : forall w,
  db_pipelines (submit n pipelineID triggerType triggerBy w) = db_pipelines w.
Proof.
  induction n as [| n IH]; intros w; [reflexivity |].
  simpl. rewrite IH. apply RunPipeline_pipelines.
Qed.

Lemma submit_keys n pipelineID triggerType triggerBy : forall w,
  keys_handed_out w -> keys_handed_out (submit n pipelineID triggerType triggerBy w).
Proof.
  induction n as [| n IH]; intros w Hk; [exact Hk |].
  simpl. apply IH, RunPipeline_keys, Hk.
Qed.

Lemma submit_steps n pipelineID triggerType triggerBy : forall w,
  steps (replicate n (ActRunPipeline pipelineID triggerType triggerBy)) w
    = Some (submit n pipelineID triggerType triggerBy w).
Proof. induction n as [| n IH]; intros w; [reflexivity | simpl; apply IH]. Qed.

Lemma submit_running_count_aux (n : nat) (pipelineID : N) (triggerType : string)
    (triggerBy : N) (pipeline : Pipeline) :
  (forall e, db_First_err e = None) ->
  (forall e, db_Create_err e = None) ->
  forall w,
  keys_handed_out w ->
  db_pipelines w !! pipelineID = Some pipeline ->
  running_count (submit n pipelineID triggerType triggerBy w) = (running_count w + n)%nat.
Proof.
  intros Hf Hc. induction n as [| n IH]; intros w Hk Hp; simpl; [lia |].
  rewrite IH.
  - rewrite (RunPipeline_running_count _ _ _ _ _ Hk (Hf _) Hp (Hc _)). lia.
  - apply RunPipeline_keys, Hk.
  - rewrite RunPipeline_pipelines. exact Hp.
Qed.


(** Whatever the cap, a database that serves every statement lets the engine
    reach a state with more runs in status running. *)
Lemma running_count_unbounded (pipeline : Pipeline) (e : Ext) :
  (forall e, db_First_err e = None) ->
  (forall e, db_Create_err e = None) ->
  exists w, reachable w /\ (MaxConcurrent cfg < Z.of_nat (running_count w))%Z.
Proof.
  intros Hf Hc.
  set (n := S (Z.to_nat (MaxConcurrent cfg))).
  set (w0 := NewEngine {[1 := pipeline]} ∅ 0 e).
  exists (submit n 1 "manual" 0 w0). split.
  - exists {[1 := pipeline]}, ∅, 0, e, (replicate n (ActRunPipeline 1 "manual" 0)).
    split; [| apply submit_steps].
    intros id run H. rewrite lookup_empty in H. discriminate.
  - assert (Hk : keys_handed_out w0).
    { intros id [run Hrun]. cbn in Hrun. rewrite lookup_empty in Hrun. discriminate. }
    assert (Hp : db_pipelines w0 !! 1 = Some pipeline) by apply lookup_singleton_eq.
    rewrite (submit_running_count_aux n 1 "manual" 0 pipeline Hf Hc w0 Hk Hp).
    unfold running_count at 1. cbn [db_runs w0 NewEngine].
    rewrite map_filter_empty, map_size_empty. unfold n. lia.
Qed.

(** *** Validation of the pipeline document *)

(** The spec's wording: the stored document does not parse, or it has a step
    whose type is not one of the four known types. *)
Definition invalid_spec (text : string) : Prop :=
  match json_Unmarshal text with
  | Err _ => True
  | Ok config =>
      exists stage step,
        stage ∈ Stages config /\ step ∈ stage_Steps stage /\
        knownStepType (step_Type step) = false
  end.

Lemma executeStep_unknown jobCtx step st :
  knownStepType (step_Type step) = false ->
  exists msg, fst (executeStep jobCtx step st) = Err msg.
Proof.
  unfold knownStepType. intros Hk. apply bool_decide_eq_false in Hk.
  unfold executeStep, bind. simpl.
  repeat match goal with |- context [decide ?P] => destruct (decide P) end;
    try (exfalso; apply Hk; tauto).
  eexists. reflexivity.
Qed.

Lemma executeSteps_unknown jobCtx steps0 step :
  step ∈ steps0 -> knownStepType (step_Type step) = false ->
  forall st, exists msg, fst (executeSteps jobCtx steps0 st) = Err msg.
Proof.
  intros Hin Hk. induction steps0 as [| other more IH]; intros st; [inversion Hin |].
  apply elem_of_cons in Hin as [Heq | Hin]; [subst other |]; simpl.
  - unfold bind, wrap_err.
    destruct (executeStep_unknown jobCtx step st Hk) as [msg Hmsg].
    destruct (executeStep jobCtx step st) as [[[] | m] st']; simpl in *; [discriminate |].
    eexists. reflexivity.
  - unfold bind, wrap_err.
    destruct (executeStep jobCtx other st) as [[[] | m] st']; simpl.
    + apply IH, Hin.
    + eexists. reflexivity.
Qed.

Lemma executeStages_unknown jobCtx stages stage step :
  stage ∈ stages -> step ∈ stage_Steps stage -> knownStepType (step_Type step) = false ->
  forall i st, exists msg, fst (executeStages jobCtx i stages st) = Err msg.
Proof.
  intros Hin Hstep Hk.
  induction stages as [| other more IH]; intros i st; [inversion Hin |].
  apply elem_of_cons in Hin as [Heq | Hin]; [subst other |]; simpl.
  - unfold bind at 1. simpl. unfold bind at 1. unfold wrap_err, executeStage.
    set (st0 := mkExec _ _ _).
    destruct (executeSteps_unknown jobCtx _ step Hstep Hk st0) as [msg Hmsg].
    destruct (executeSteps jobCtx (stage_Steps stage) st0) as [[[] | m] st']; simpl in *;
      [discriminate |].
    eexists. reflexivity.
  - unfold bind at 1. simpl. unfold bind at 1. unfold wrap_err, executeStage.
    set (st0 := mkExec _ _ _).
    destruct (executeSteps jobCtx (stage_Steps other) st0) as [[[] | m] st']; simpl.
    + unfold bind at 1. simpl. apply IH, Hin.
    + eexists. reflexivity.
Qed.

Lemma runOutcome_invalid jobCtx st :
  invalid_spec (pl_Config (job_Pipeline jobCtx)) ->
  fst (fst (runOutcome jobCtx st)) = RunStatusFailed.
Proof.
  unfold invalid_spec, runOutcome.
  destruct (json_Unmarshal (pl_Config (job_Pipeline jobCtx))) as [config | msg];
    [| reflexivity].
  intros (stage & step & Hstage & Hstep & Hk).
  unfold bind at 1. simpl.
  set (st0 := mkExec _ _ _).
  destruct (executeStages_unknown jobCtx _ _ _ Hstage Hstep Hk 0%nat st0) as [msg Hmsg].
  destruct (executeStages jobCtx 0 (Stages config) st0) as [[[] | m] st']; simpl in *;
    [discriminate | reflexivity].
Qed.

(** A step of unknown type lies ahead of the goroutine. *)
Definition unknown_in_steps (steps0 : list PipelineStep) : Prop :=
  exists step, step ∈ steps0 /\ knownStepType (step_Type step) = false.

Definition unknown_in_stages (stages : list PipelineStage) : Prop :=
  exists stage, stage ∈ stages /\ unknown_in_steps (stage_Steps stage).

Definition unknown_ahead (f : Frame) : Prop :=
  unknown_in_steps (fr_steps f) \/ unknown_in_stages (fr_more f).

(** The goroutine of a run whose document is invalid cannot end in success:
    either a step of unknown type is still ahead of it, or it has failed. *)
Definition doomed (ph : Phase) : Prop :=
  match ph with
  | AtParse => True
  | AtStages _ stages => unknown_in_stages stages
  | AtSteps f => unknown_ahead f
  | AtSwitch step f => knownStepType (step_Type step) = false \/ unknown_ahead f
  | AfterClone f => unknown_ahead f
  | InExecute step _ _ _ f =>
      (step_Type step = "script" \/ step_Type step = "build" \/ step_Type step = "deploy")
      /\ unknown_ahead f
  | AtFinish status _ => status = RunStatusFailed
  | AtFinishLog status _ => status = RunStatusFailed
  | AtCleanup => True
  end.

Lemma scriptStepOf_known jobCtx step e scriptStep :
  scriptStepOf jobCtx step e = Ok scriptStep ->
  step_Type step = "script" \/ step_Type step = "build" \/ step_Type step = "deploy".
Proof.
  unfold scriptStepOf.
  repeat match goal with |- context [decide ?P] => destruct (decide P) end;
    try tauto; try discriminate.
Qed.

Lemma advance_doomed jobCtx ph st :
  invalid_spec (pl_Config (job_Pipeline jobCtx)) ->
  doomed ph -> doomed (fst (advance jobCtx ph st)).
Proof.
  intros Hinv Hd. destruct ph as [| i stages | f | step f | f | step lines res e' f | | |];
    cbn [advance].
  - unfold invalid_spec in Hinv.
    destruct (json_Unmarshal (pl_Config (job_Pipeline jobCtx))) as [config | msg];
      [| reflexivity].
    destruct Hinv as (stage & step & Hstage & Hstep & Hk).
    exists stage. split; [exact Hstage |]. exists step. split; assumption.
  - destruct stages as [| stage more]; cbn [fst doomed].
    + destruct Hd as (stage & Hin & _). inversion Hin.
    + destruct Hd as (bad & Hin & Hbad).
      apply elem_of_cons in Hin as [-> | Hin]; [left; exact Hbad |].
      right. exists bad. split; assumption.
  - destruct f as [stage steps0 i more]. cbn [fr_steps fr_stage fr_index fr_more].
    destruct steps0 as [| step steps0]; cbn [fst doomed].
    + destruct Hd as [(step & Hin & _) | Hd]; [inversion Hin | exact Hd].
    + destruct Hd as [(bad & Hin & Hbad) | Hd].
      * apply elem_of_cons in Hin as [-> | Hin]; [left; exact Hbad |].
        right. left. exists bad. split; assumption.
      * right. right. exact Hd.
  - destruct (decide (step_Type step = "git_clone")) as [Hg | Hng].
    + destruct (git_CloneOrPull _ _ _ _) as [[err |] e']; cbn [fst doomed stepFailure];
        [reflexivity |].
      destruct Hd as [Hk | Hd]; [| exact Hd].
      unfold knownStepType in Hk. apply bool_decide_eq_false in Hk. tauto.
    + destruct (scriptStepOf jobCtx step (ext st)) as [scriptStep | msg] eqn:Hs;
        [| reflexivity].
      pose proof (scriptStepOf_known _ _ _ _ Hs) as Hknown.
      destruct (step_Config scriptStep !! "script") as [[| | | script | |] |];
        try reflexivity.
      destruct (scripts_Execute _ _ _ _) as [[res lines] e']. cbn [fst doomed].
      split; [exact Hknown |].
      destruct Hd as [Hk | Hd]; [| exact Hd].
      unfold knownStepType in Hk. apply bool_decide_eq_false in Hk. tauto.
  - exact Hd.
  - destruct Hd as [Hknown Hd]. destruct lines as [| line lines]; cbn [fst doomed].
    + destruct res as [r | msg]; [| reflexivity].
      destruct (decide (Scripts.ExitCode r <> 0%Z)); [reflexivity | exact Hd].
    + split; assumption.
  - exact Hd.
  - exact Hd.
  - exact Hd.
Qed.

Definition doomed_inv (w : Engine) : Prop :=
  forall id jobCtx ph,
    runningJobs w !! id = Some jobCtx -> goroutines w !! id = Some ph ->
    invalid_spec (pl_Config (job_Pipeline jobCtx)) -> doomed ph.

Lemma step_doomed a w w' : doomed_inv w -> step a w = Some w' -> doomed_inv w'.
Proof.
  intros Hinv Hstep.
  destruct a as [pid tt tb | r | r res e' | addr | r | r | r | k | e]; cbn [step] in Hstep.
  - inversion Hstep; subst w'; clear Hstep. unfold RunPipeline.
    destruct (db_First_err (world w)); [exact Hinv |].
    destruct (db_pipelines w !! pid) as [pipeline |]; [| exact Hinv].
    destruct (db_Create_err _); [exact Hinv |].
    intros id jobCtx ph. cbn [snd runningJobs goroutines].
    destruct (decide (db_lastRunID w + 1 = id)) as [<- | Hne].
    + rewrite !lookup_insert_eq. intros _ Hph _. inversion Hph. exact I.
    + rewrite !lookup_insert_ne by exact Hne. apply Hinv.
  - unfold goroutine_step in Hstep.
    destruct (goroutines w !! r) as [ph0 |] eqn:Hg; [| discriminate].
    destruct (runningJobs w !! r) as [job0 |] eqn:Hj; [| discriminate].
    assert (Hkeep : forall ph1 w1,
              runningJobs w1 = runningJobs w ->
              goroutines w1 = <[r := ph1]> (goroutines w) ->
              (invalid_spec (pl_Config (job_Pipeline job0)) -> doomed ph1) ->
              doomed_inv w1).
    { intros ph1 w1 Hr Hgs Hph1 id jobCtx ph. rewrite Hr, Hgs.
      destruct (decide (r = id)) as [<- | Hne].
      - rewrite lookup_insert_eq, Hj. intros E1 E2. inversion E1; inversion E2; subst.
        exact Hph1.
      - rewrite lookup_insert_ne by exact Hne. apply Hinv. }
    destruct ph0;
      try (destruct (chans w !! job_LogChan job0) as [c |]; [| discriminate];
           try (match type of Hstep with
                | context [advance ?j ?p ?s] => remember (advance j p s) as adv eqn:Hadv
                end);
           injection Hstep as <-;
           eapply Hkeep; [reflexivity | reflexivity |];
           intros Hbad;
           first [exact I
                 | rewrite Hadv; apply advance_doomed; [exact Hbad |];
                   apply (Hinv r job0 _ Hj Hg Hbad)]).
    + injection Hstep as <-.
      eapply Hkeep.
      * unfold finishPipelineRun_update. cbn [snd]. destruct (db_Update_err _); reflexivity.
      * unfold finishPipelineRun_update. cbn [snd]. destruct (db_Update_err _); reflexivity.
      * intros Hbad. apply (Hinv r job0 _ Hj Hg Hbad).
    + injection Hstep as <-.
      intros id jobCtx ph. cbn [deregister runningJobs goroutines].
      destruct (decide (r = id)) as [<- | Hne].
      * rewrite lookup_delete_eq. discriminate.
      * rewrite !lookup_delete_ne by exact Hne. apply Hinv.
  - unfold interrupt in Hstep.
    destruct (goroutines w !! r) as [[] |] eqn:Hg; try discriminate.
    destruct (runningJobs w !! r) as [job0 |] eqn:Hj; try discriminate.
    destruct (job_Cancelled job0); [| discriminate].
    inversion Hstep; subst w'; clear Hstep.
    intros id jobCtx ph. cbn [with_goroutines runningJobs goroutines].
    destruct (decide (r = id)) as [<- | Hne].
    + rewrite lookup_insert_eq, Hj. intros E1 E2 Hbad. inversion E1; inversion E2; subst.
      apply (Hinv r jobCtx _ Hj Hg Hbad).
    + rewrite lookup_insert_ne by exact Hne. apply Hinv.
  - unfold close_chan in Hstep. destruct (decide (addr ∈ closing w)); [| discriminate].
    inversion Hstep; subst w'. exact Hinv.
  - inversion Hstep; subst w'; clear Hstep. unfold cancel_lookup.
    destruct (runningJobs w !! r) as [job0 |] eqn:Hj; [| exact Hinv].
    intros id jobCtx ph. cbn [snd runningJobs goroutines].
    destruct (decide (r = id)) as [<- | Hne].
    + rewrite lookup_insert_eq. intros E Hph Hbad. inversion E; subst jobCtx.
      apply (Hinv r job0 ph Hj Hph Hbad).
    + rewrite lookup_insert_ne by exact Hne. apply Hinv.
  - unfold cancel_write in Hstep. destruct (decide (r ∈ cancelling w)); [| discriminate].
    destruct (db_Update_err _); cbn in Hstep; inversion Hstep; subst w'; exact Hinv.
  - inversion Hstep; subst w'; clear Hstep. unfold GetJobLogs_lookup.
    destruct (runningJobs w !! r) as [jobCtx |]; [exact Hinv |].
    destruct (db_First_err (world w)); [exact Hinv |].
    destruct (db_runs w !! r); exact Hinv.
  - unfold GetJobLogs_receive in Hstep.
    destruct (draining w !! k) as [[addr logs] |]; [| discriminate].
    destruct (chans w !! addr) as [c |]; [| discriminate].
    destruct (chan_tryrecv c) as [[line c'] |]; cbn in Hstep;
      inversion Hstep; subst w'; exact Hinv.
  - inversion Hstep; subst w'. exact Hinv.
Qed.

Lemma reachable_doomed w : reachable w -> doomed_inv w.
Proof.
  intros (pipelines & runs & lastRunID & e & acts & _ & Hs).
  assert (H0 : doomed_inv (NewEngine pipelines runs lastRunID e)).
  { intros id jobCtx ph H. cbn in H. rewrite lookup_empty in H. discriminate. }
  revert H0 Hs. generalize (NewEngine pipelines runs lastRunID e).
  induction acts as [| a acts IH]; simpl; intros w0 H0 Hs.
  - inversion Hs; subst. exact H0.
  - destruct (step a w0) as [w1 |] eqn:Ha; [| discriminate].
    apply (IH w1); [eapply step_doomed; eauto | exact Hs].
Qed.

(** The step that the goroutine takes at the call of [finishPipelineRun]. *)
Lemma goroutine_step_finish id w jobCtx status message :
  live_inv w ->
  runningJobs w !! id = Some jobCtx ->
  goroutines w !! id = Some (AtFinish status message) ->
  exists w',
    step (ActGo id) w = Some w' /\
    (db_Update_err (snd (time_Now (world w))) = None -> statusOf w' id = Some status) /\
    (db_Update_err (snd (time_Now (world w))) <> None -> db_runs w' = db_runs w).
Proof.
  intros Hlive Hj Hg. cbn [step]. unfold goroutine_step. rewrite Hg, Hj.
  eexists. split; [reflexivity |].
  unfold finishPipelineRun_update, statusOf. cbn [snd].
  destruct (lv_job _ Hlive _ _ Hj) as [Hid _].
  destruct (lv_live _ Hlive id) as [run Hrun]; [eauto |].
  destruct (db_Update_err _); cbn [with_goroutines with_runs with_world db_runs]; split.
  - discriminate.
  - reflexivity.
  - intros _. rewrite Hid, lookup_alter_eq, Hrun. reflexivity.
  - congruence.
Qed.

(** C3, amended: a stored pipeline whose document is invalid is not rejected
    at entry. [RunPipeline] does not look at the document: when the database
    serves its two statements it creates the run with status running,
    returns it and starts its goroutine. The document is parsed, and step
    types are checked, only by that goroutine, which never finishes such a
    run with another status than failed: left to run it reaches
    [finishPipelineRun] after finitely many steps with the status failed;
    in every reachable state in which it stands at [finishPipelineRun] the
    status it is about to write is failed; and its next step makes the
    row's status failed when the database serves the update, and leaves
    the rows as they are when it does not. *)
Theorem invalid_spec_run_ends_failed :
  (forall pipelineID triggerType triggerBy pipeline w,
     db_First_err (world w) = None ->
     db_pipelines w !! pipelineID = Some pipeline ->
     db_Create_err (snd (time_Now (world w))) = None ->
     invalid_spec (pl_Config pipeline) ->
     exists run,
       fst (RunPipeline pipelineID triggerType triggerBy w) = Ok run /\
       run_Status run = RunStatusRunning /\
       statusOf (snd (RunPipeline pipelineID triggerType triggerBy w)) (run_ID run)
         = Some RunStatusRunning /\
       goroutines (snd (RunPipeline pipelineID triggerType triggerBy w)) !! run_ID run
         = Some AtParse) /\
  (forall jobCtx st,
     invalid_spec (pl_Config (job_Pipeline jobCtx)) ->
     exists n message st',
       advance_n jobCtx n AtParse st = (AtFinish RunStatusFailed message, st')) /\
  (forall w id jobCtx status message,
     reachable w ->
     runningJobs w !! id = Some jobCtx ->
     invalid_spec (pl_Config (job_Pipeline jobCtx)) ->
     goroutines w !! id = Some (AtFinish status message) ->
     status = RunStatusFailed /\
     exists w',
       step (ActGo id) w = Some w' /\
       (db_Update_err (snd (time_Now (world w))) = None ->
        statusOf w' id = Some RunStatusFailed) /\
       (db_Update_err (snd (time_Now (world w))) <> None -> db_runs w' = db_runs w)).
Proof.
  split; [| split].
  - intros pipelineID triggerType triggerBy pipeline w Hf Hp Hc _.
    rewrite (RunPipeline_found _ _ _ _ _ Hf Hp Hc). cbn [fst snd].
    eexists. split; [reflexivity |]. split; [reflexivity |].
    unfold statusOf. cbn [db_runs goroutines newRun run_ID].
    rewrite !lookup_insert_eq. split; reflexivity.
  - intros jobCtx st Hbad.
    destruct (advance_runOutcome jobCtx st) as [n Hn].
    rewrite (runOutcome_invalid jobCtx st Hbad) in Hn.
    exists n. eexists _, _. exact Hn.
  - intros w id jobCtx status message Hreach Hj Hbad Hg.
    assert (Hst : status = RunStatusFailed)
      by apply (reachable_doomed w Hreach id jobCtx _ Hj Hg Hbad).
    split; [exact Hst |]. subst status.
    apply (goroutine_step_finish id w jobCtx _ message (reachable_live _ Hreach) Hj Hg).
Qed.

(** *** The two entry points, run without interruption *)


(** [CancelPipelineRun], run without interruption on a reachable engine: for
    a run that is not in the live registry it returns the error and changes
    nothing; for a live run it cancels the run's context, issues the update
    and returns the error of the update, if any. When the update is served
    the row's status is cancelled; when it is not, the rows are as before.
    Either way the run is still in the registry with its goroutine where it
    was: the goroutine is not stopped by the call. No other row or registry
    entry changes. *)
Theorem CancelPipelineRun_outcome (runID : N) (w : Engine) :
  reachable w ->
  match runningJobs w !! runID with
  | None => CancelPipelineRun runID w = (Some "流水线运行不存在或已完成", w)
  | Some jobCtx =>
      exists w',
        CancelPipelineRun runID w = (db_Update_err (snd (time_Now (world w))), w') /\
        (db_Update_err (snd (time_Now (world w))) = None ->
         statusOf w' runID = Some RunStatusCancelled) /\
        (db_Update_err (snd (time_Now (world w))) <> None -> db_runs w' = db_runs w) /\
        runningJobs w' !! runID = Some (withCancelled jobCtx) /\
        goroutines w' = goroutines w /\
        cancelling w' = cancelling w /\
        forall id, id <> runID ->
          db_runs w' !! id = db_runs w !! id /\
          runningJobs w' !! id = runningJobs w !! id
  end.
Proof.
  intros Hreach. pose proof (reachable_live _ Hreach) as Hlive.
  unfold CancelPipelineRun, cancel_lookup.
  destruct (runningJobs w !! runID) as [jobCtx |] eqn:Hj; [| reflexivity].
  destruct (lv_live _ Hlive runID) as [run Hrun]; [eauto |].
  unfold cancel_write. cbn [cancelling world]. rewrite decide_True by apply list_elem_of_here.
  assert (Hrem : remove_one runID (runID :: cancelling w) = cancelling w).
  { cbn [remove_one]. now rewrite decide_True by reflexivity. }
  destruct (db_Update_err (snd (time_Now (world w)))) as [err |].
  - eexists. split; [reflexivity |].
    cbn [with_cancelling with_world with_runs db_runs runningJobs goroutines cancelling].
    split; [discriminate |]. split; [reflexivity |].
    split; [apply lookup_insert_eq |]. split; [reflexivity |]. split; [exact Hrem |].
    intros id Hne. rewrite lookup_insert_ne by congruence. split; reflexivity.
  - eexists. split; [reflexivity |].
    cbn [with_cancelling with_world with_runs db_runs runningJobs goroutines cancelling].
    split.
    { intros _. unfold statusOf. cbn [db_runs with_runs]. rewrite lookup_alter_eq, Hrun.
      reflexivity. }
    split; [congruence |].
    split; [apply lookup_insert_eq |]. split; [reflexivity |]. split; [exact Hrem |].
    intros id Hne. rewrite lookup_alter_ne by congruence.
    rewrite lookup_insert_ne by congruence. split; reflexivity.
Qed.

(** *** How much a log channel holds *)

(** The lines that calls of [logMessage] offer to the channel for [lines],
    each stamped with its own reading of the clock, and the outside world
    after [n] readings. *)
Fixpoint stamped (lines : list string) (e : Ext) : list string :=
  match lines with
  | [] => []
  | line :: more =>
      ("[" +:+ time_Format (fst (time_Now e)) +:+ "] " +:+ line)
        :: stamped more (snd (time_Now e))
  end.

Fixpoint after_readings (n : nat) (e : Ext) : Ext :=
  match n with
  | O => e
  | S n' => after_readings n' (snd (time_Now e))
  end.


(** *** Reading the logs of a run *)

(** The receive loop on a channel by itself: [None] when [fuel] iterations
    do not reach the [default] case. *)
Fixpoint drain (fuel : nat) (c : Chan) (logs : list string) : option (list string * Chan) :=
  match fuel with
  | O => None
  | S fuel' =>
      match chan_tryrecv c with
      | Some (line, c') => drain fuel' c' (logs ++ [line])
      | None => Some (logs, c)
      end
  end.

(** A receive on a closed channel never blocks and never reaches [default]:
    it yields the next queued line, or the zero value when none is left. *)
Lemma chan_tryrecv_closed c :
  closed c = true ->
  exists line c', chan_tryrecv c = Some (line, c') /\ closed c' = true.
Proof.
  intros Hc. unfold chan_tryrecv. destruct (buf c) as [| line more].
  - rewrite Hc. eexists _, _. split; [reflexivity | exact Hc].
  - eexists _, _. split; [reflexivity | exact Hc].
Qed.

Lemma drain_closed (fuel : nat) : forall c logs, closed c = true -> drain fuel c logs = None.
Proof.
  induction fuel as [| fuel IH]; intros c logs Hc; [reflexivity |].
  cbn [drain]. destruct (chan_tryrecv_closed c Hc) as (line & c' & -> & Hc').
  apply IH, Hc'.
Qed.

(** On an open channel the loop returns the queued lines and leaves the
    channel empty, when nothing is sent in between. *)
Lemma drain_open (lines : list string) : forall (fuel : nat) (logs : list string),
  (length lines < fuel)%nat ->
  drain fuel (mkChan lines false) logs = Some (logs ++ lines, mkChan [] false).
Proof.
  induction lines as [| line more IH]; intros fuel logs Hfuel.
  - destruct fuel; [cbn in Hfuel; lia |]. cbn. now rewrite app_nil_r.
  - destruct fuel; [cbn in Hfuel; lia |]. cbn [drain chan_tryrecv buf closed].
    rewrite IH by (cbn in Hfuel; lia). now rewrite <- app_assoc.
Qed.

(** [GetJobLogs] for a run that is not in the live registry: the persisted
    log blob as a single line when the row can be read, an error when the
    row does not exist or the store fails; nothing changes. *)
Lemma GetJobLogs_stored fuel runID w :
  runningJobs w !! runID = None ->
  GetJobLogs fuel runID w =
    Some (match db_First_err (world w), db_runs w !! runID with
          | None, Some pipelineRun => Ok [run_Logs pipelineRun]
          | _, _ => Err "流水线运行不存在"
          end, w).
Proof.
  intros Hj. unfold GetJobLogs, GetJobLogs_lookup. rewrite Hj.
  destruct (db_First_err (world w)); [reflexivity |].
  destruct (db_runs w !! runID); reflexivity.
Qed.

(** Once the channel of a call in its loop has been closed, an iteration of
    the loop never returns: the call stays in flight, the channel stays
    closed, and the lines received grow by one. *)
Lemma GetJobLogs_receive_closed k w addr logs c :
  draining w !! k = Some (addr, logs) ->
  chans w !! addr = Some c ->
  closed c = true ->
  exists line c' w',
    GetJobLogs_receive k w = Some (None, w') /\
    draining w' !! k = Some (addr, logs ++ [line]) /\
    chans w' !! addr = Some c' /\ closed c' = true.
Proof.
  intros Hk Hc Hclosed. unfold GetJobLogs_receive. rewrite Hk, Hc.
  destruct (chan_tryrecv_closed c Hclosed) as (line & c' & -> & Hc').
  exists line, c'. eexists. split; [reflexivity |].
  cbn [with_draining with_chans draining chans].
  split.
  - rewrite list_lookup_insert_eq; [reflexivity |]. apply lookup_lt_Some in Hk. exact Hk.
  - split; [apply lookup_insert_eq | exact Hc'].
Qed.

(** The loop of [GetJobLogs] on a closed channel does not end. *)
Lemma GetJobLogs_loop_closed (fuel : nat) : forall k w addr logs c,
  draining w !! k = Some (addr, logs) ->
  chans w !! addr = Some c ->
  closed c = true ->
  GetJobLogs_loop fuel k w = None.
Proof.
  induction fuel as [| fuel IH]; intros k w addr logs c Hk Hc Hclosed; [reflexivity |].
  cbn [GetJobLogs_loop].
  destruct (GetJobLogs_receive_closed k w addr logs c Hk Hc Hclosed)
    as (line & c' & w' & -> & Hk' & Hc' & Hclosed').
  apply (IH k w' addr _ c' Hk' Hc' Hclosed').
Qed.

(** *** The log channels of the engine *)

Lemma chan_trysend_room line c :
  (length (buf c) <= logChanCap)%nat -> (length (buf (chan_trysend line c)) <= logChanCap)%nat.
Proof.
  intros H. unfold chan_trysend. destruct (decide _); cbn [buf]; [| exact H].
  rewrite length_app. cbn [length]. lia.
Qed.

Lemma chan_trysend_closed line c : closed (chan_trysend line c) = closed c.
Proof. unfold chan_trysend. destruct (decide _); reflexivity. Qed.

(** A step of the goroutine leaves the channel alone or offers it one line. *)
Lemma advance_logChan jobCtx ph st :
  logChan (snd (advance jobCtx ph st)) = logChan st \/
  exists line, logChan (snd (advance jobCtx ph st)) = chan_trysend line (logChan st).
Proof.
  destruct ph as [| i stages | f | step f | f | step lines res e' f | | |]; cbn [advance].
  - destruct (json_Unmarshal _); [right; eexists; reflexivity | left; reflexivity].
  - destruct stages; [left; reflexivity | right; eexists; reflexivity].
  - destruct (fr_steps f); right; eexists; reflexivity.
  - destruct (decide (step_Type step = "git_clone")).
    + destruct (git_CloneOrPull _ _ _ _) as [[err |] e']; left; reflexivity.
    + destruct (scriptStepOf jobCtx step (ext st)) as [scriptStep | msg]; [| left; reflexivity].
      destruct (step_Config scriptStep !! "script") as [[| | | script | |] |];
        try (left; reflexivity).
      destruct (scripts_Execute _ _ _ _) as [[res lines] e']. left. reflexivity.
  - right. eexists. reflexivity.
  - destruct lines as [| line lines]; [| right; eexists; reflexivity].
    destruct res as [r | msg]; [| left; reflexivity].
    destruct (decide (Scripts.ExitCode r <> 0%Z)); left; reflexivity.
  - left. reflexivity.
  - left. reflexivity.
  - left. reflexivity.
Qed.

Lemma advance_chan_kept jobCtx ph st :
  (length (buf (logChan st)) <= logChanCap)%nat ->
  (length (buf (logChan (snd (advance jobCtx ph st)))) <= logChanCap)%nat /\
  closed (logChan (snd (advance jobCtx ph st))) = closed (logChan st).
Proof.
  intros Hroom. destruct (advance_logChan jobCtx ph st) as [-> | [line ->]].
  - split; [exact Hroom | reflexivity].
  - split; [apply chan_trysend_room, Hroom | apply chan_trysend_closed].
Qed.

Lemma chan_tryrecv_kept c line c' :
  chan_tryrecv c = Some (line, c') ->
  (length (buf c') <= length (buf c))%nat /\ closed c' = closed c.
Proof.
  unfold chan_tryrecv. destruct (buf c) as [| l more] eqn:Hb.
  - destruct (closed c) eqn:Hcl; [| discriminate]. intros H. inversion H; subst.
    rewrite Hb. split; [cbn; lia | congruence].
  - intros H. inversion H; subst. cbn. split; [lia | reflexivity].
Qed.

(** No channel holds more than its capacity; the channel of a registered
    run is open; and a channel that is about to be closed belongs to a run
    that has left the registry. *)
Record chan_inv (w : Engine) : Prop := mkChanInv {
  ch_room : forall addr c, chans w !! addr = Some c -> (length (buf c) <= logChanCap)%nat;
  ch_open : forall id, is_Some (runningJobs w !! id) ->
              exists c, chans w !! id = Some c /\ closed c = false;
  ch_closing : forall addr, addr ∈ closing w ->
                 runningJobs w !! addr = None /\ addr <= db_lastRunID w
}.

Lemma insert_chan_room (cs : gmap N Chan) addr c0 :
  (length (buf c0) <= logChanCap)%nat ->
  (forall a c, cs !! a = Some c -> (length (buf c) <= logChanCap)%nat) ->
  forall a c, <[addr := c0]> cs !! a = Some c -> (length (buf c) <= logChanCap)%nat.
Proof.
  intros H0 H a c. destruct (decide (addr = a)) as [-> | Hne].
  - rewrite lookup_insert_eq. intros E. inversion E; subst. exact H0.
  - rewrite lookup_insert_ne by exact Hne. apply H.
Qed.

Lemma insert_chan_open (cs : gmap N Chan) (jobs : gmap N JobContext) addr c0 c1 :
  cs !! addr = Some c0 -> closed c1 = closed c0 ->
  (forall id, is_Some (jobs !! id) -> exists c, cs !! id = Some c /\ closed c = false) ->
  forall id, is_Some (jobs !! id) ->
    exists c, <[addr := c1]> cs !! id = Some c /\ closed c = false.
Proof.
  intros Hc Hsame H id Hid. destruct (H id Hid) as (c & Hlook & Hopen).
  destruct (decide (addr = id)) as [-> | Hne].
  - rewrite lookup_insert_eq. exists c1. split; [reflexivity |]. congruence.
  - rewrite lookup_insert_ne by exact Hne. eauto.
Qed.

Lemma step_chan a w w' : live_inv w -> chan_inv w -> step a w = Some w' -> chan_inv w'.
Proof.
  intros Hlive [Hroom Hopen Hclosing] Hstep.
  destruct a as [pid tt tb | r | r res e' | addr | r | r | r | k | e]; cbn [step] in Hstep.
  - injection Hstep as <-. unfold RunPipeline.
    destruct (db_First_err (world w)); [split; assumption |].
    destruct (db_pipelines w !! pid) as [pipeline |]; [| split; assumption].
    destruct (db_Create_err _); [split; assumption |].
    split; cbn [snd runningJobs chans closing db_lastRunID].
    + apply insert_chan_room; [cbn; lia | exact Hroom].
    + intros id. destruct (decide (db_lastRunID w + 1 = id)) as [<- | Hne].
      * rewrite !lookup_insert_eq. intros _. eexists. split; reflexivity.
      * rewrite !lookup_insert_ne by exact Hne. apply Hopen.
    + intros addr Hin. destruct (Hclosing addr Hin) as [Hnone Hle].
      rewrite lookup_insert_ne by lia. split; [exact Hnone | lia].
  - unfold goroutine_step in Hstep.
    destruct (goroutines w !! r) as [ph |] eqn:Hg; [| discriminate].
    destruct (runningJobs w !! r) as [jobCtx |] eqn:Hj; [| discriminate].
    destruct (lv_job _ Hlive _ _ Hj) as [_ Haddr].
    destruct (Hopen r) as (c & Hc & Hcopen); [eauto |].
    assert (Hsend : forall st' w1,
              (length (buf (logChan st')) <= logChanCap)%nat ->
              closed (logChan st') = closed c ->
              runningJobs w1 = runningJobs w -> closing w1 = closing w ->
              db_lastRunID w1 = db_lastRunID w ->
              chans w1 = <[r := logChan st']> (chans w) ->
              chan_inv w1).
    { intros st' w1 Hlen Hsame Hr Hcl Hlast Hcs. split.
      - rewrite Hcs. apply insert_chan_room; assumption.
      - rewrite Hr, Hcs. eapply insert_chan_open; eassumption.
      - rewrite Hr, Hcl, Hlast. exact Hclosing. }
    rewrite Haddr, Hc in Hstep.
    destruct ph;
      try (match type of Hstep with
           | context [advance ?j ?p ?s] =>
               destruct (advance_chan_kept j p s (Hroom _ _ Hc)) as [Hlen Hsame];
               remember (advance j p s) as adv eqn:Hadv
           end;
           injection Hstep as <-;
           apply (Hsend (snd adv)); [exact Hlen | exact Hsame | reflexivity ..]).
    + injection Hstep as <-. unfold finishPipelineRun_update. cbn [snd].
      destruct (db_Update_err _); split; assumption.
    + injection Hstep as <-.
      apply (Hsend (snd (logMessage (finishMessage status duration) (exec_of c w))));
        [apply chan_trysend_room, (Hroom _ _ Hc) | apply chan_trysend_closed
        | reflexivity ..].
    + injection Hstep as <-. split; cbn [deregister runningJobs chans closing db_lastRunID].
      * exact Hroom.
      * intros id [x Hx]. apply lookup_delete_Some in Hx as [_ Hx]. apply Hopen. eauto.
      * intros addr Hin. apply elem_of_cons in Hin as [-> | Hin].
        -- split; [apply lookup_delete_eq |]. apply (lv_chans _ Hlive). eauto.
        -- destruct (Hclosing addr Hin) as [Hnone Hle]. split; [| exact Hle].
           destruct (decide (r = addr)) as [-> | Hne];
             [apply lookup_delete_eq | now rewrite lookup_delete_ne].
  - unfold interrupt in Hstep.
    destruct (goroutines w !! r) as [[] |]; try discriminate.
    destruct (runningJobs w !! r) as [jobCtx |]; try discriminate.
    destruct (job_Cancelled jobCtx); [| discriminate].
    injection Hstep as <-. split; assumption.
  - unfold close_chan in Hstep.
    destruct (decide (addr ∈ closing w)) as [Hin |]; [| discriminate].
    injection Hstep as <-. destruct (Hclosing addr Hin) as [Hnone _].
    split; cbn [runningJobs chans closing db_lastRunID].
    + intros a c. destruct (decide (addr = a)) as [-> | Hne].
      * rewrite lookup_alter_eq. destruct (chans w !! a) as [c0 |] eqn:Hc0; [| discriminate].
        cbn. intros E. inversion E; subst. apply (Hroom _ _ Hc0).
      * rewrite lookup_alter_ne by exact Hne. apply Hroom.
    + intros id Hid. destruct (decide (addr = id)) as [-> | Hne].
      * rewrite Hnone in Hid. destruct Hid as [? ?]. discriminate.
      * rewrite lookup_alter_ne by exact Hne. apply Hopen, Hid.
    + intros a Ha. apply Hclosing. eapply elem_of_remove_one, Ha.
  - injection Hstep as <-. unfold cancel_lookup.
    destruct (runningJobs w !! r) as [jobCtx |] eqn:Hj; [| split; assumption].
    split; cbn [snd runningJobs chans closing db_lastRunID].
    + exact Hroom.
    + intros id. rewrite (is_Some_insert_same _ _ _ _ _ Hj). apply Hopen.
    + intros addr Hin. destruct (Hclosing addr Hin) as [Hnone Hle]. split; [| exact Hle].
      rewrite lookup_insert_ne; [exact Hnone | congruence].
  - unfold cancel_write in Hstep. destruct (decide (r ∈ cancelling w)); [| discriminate].
    destruct (db_Update_err _); cbn in Hstep; injection Hstep as <-; split; assumption.
  - injection Hstep as <-. unfold GetJobLogs_lookup.
    destruct (runningJobs w !! r) as [jobCtx |]; [split; assumption |].
    destruct (db_First_err (world w)); [split; assumption |].
    destruct (db_runs w !! r); split; assumption.
  - unfold GetJobLogs_receive in Hstep.
    destruct (draining w !! k) as [[addr logs] |]; [| discriminate].
    destruct (chans w !! addr) as [c |] eqn:Hc; [| discriminate].
    destruct (chan_tryrecv c) as [[line c'] |] eqn:Hrecv; cbn in Hstep;
      injection Hstep as <-; [| split; assumption].
    destruct (chan_tryrecv_kept _ _ _ Hrecv) as [Hlen Hsame].
    split; cbn [with_draining with_chans runningJobs chans closing db_lastRunID].
    + apply insert_chan_room; [| exact Hroom]. pose proof (Hroom _ _ Hc). lia.
    + eapply insert_chan_open; eassumption.
    + exact Hclosing.
  - injection Hstep as <-. split; assumption.
Qed.

Lemma reachable_chan w : reachable w -> chan_inv w.
Proof.
  intros (pipelines & runs & lastRunID & e & acts & Hok & Hs).
  assert (H0 : chan_inv (NewEngine pipelines runs lastRunID e)).
  { split; cbn.
    - intros addr c H. rewrite lookup_empty in H. discriminate.
    - intros id [x H]. rewrite lookup_empty in H. discriminate.
    - intros addr H. inversion H. }
  pose proof (NewEngine_live pipelines runs lastRunID e Hok) as L0.
  revert L0 H0 Hs. generalize (NewEngine pipelines runs lastRunID e).
  induction acts as [| a acts IH]; simpl; intros w0 L0 H0 Hs.
  - inversion Hs; subst. exact H0.
  - destruct (step a w0) as [w1 |] eqn:Ha; [| discriminate].
    apply (IH w1); [eapply step_live; eauto | eapply step_chan; eauto | exact Hs].
Qed.

(** In every reachable state a log channel holds at most [logChanCap] lines,
    however much its run has logged and however rarely it is read; the
    channel of a run in the live registry exists and is open; and a channel
    is closed only by a goroutine whose run has left the registry. *)
Theorem log_channels_bounded_and_open (w : Engine) :
  reachable w ->
  (forall addr c, chans w !! addr = Some c -> (length (buf c) <= logChanCap)%nat) /\
  (forall id jobCtx, runningJobs w !! id = Some jobCtx ->
     exists c, chans w !! job_LogChan jobCtx = Some c /\ closed c = false) /\
  (forall addr, addr ∈ closing w -> runningJobs w !! addr = None).
Proof.
  intros Hreach. pose proof (reachable_chan w Hreach) as Hch.
  pose proof (reachable_live w Hreach) as Hlive.
  split; [apply (ch_room _ Hch) |]. split.
  - intros id jobCtx Hj. destruct (lv_job _ Hlive _ _ Hj) as [_ ->].
    apply (ch_open _ Hch). eauto.
  - intros addr Hin. apply (ch_closing _ Hch addr Hin).
Qed.

End Engine.

(** *** A closed instance of the engine *)

(** Stand-ins for the collaborators, used to run the engine on concrete
    pipelines: no outside state, a clock that stands still, a database that
    serves every statement, a document decoder given by its graph on three
    documents, a script executor whose scripts print one line and exit with
    code 0 (and which fails to start a script when the context is already
    cancelled), and a source fetcher that always succeeds. *)
Module Demo.

Definition cfg : Config := mkCfg "/var/lib/flowforge" 5.

Definition emptyDocument : string := "{}".
(** [s] between double quotes. *)
Definition quoted (s : string) : string :=
  String (Ascii.ascii_of_nat 34) (s +:+ String (Ascii.ascii_of_nat 34) "").

(** A JSON document with one stage [release] whose only step [announce] has
    the type [notify]. *)
Definition notifyDocument : string :=
  "{" +:+ quoted "stages" +:+ ":[{" +:+ quoted "name" +:+ ":" +:+ quoted "release" +:+ ","
      +:+ quoted "steps" +:+ ":[{" +:+ quoted "name" +:+ ":" +:+ quoted "announce" +:+ ","
      +:+ quoted "type" +:+ ":" +:+ quoted "notify" +:+ "}]}]}".
Definition brokenDocument : string := "stages: [".

Definition decode (text : string) : result PipelineConfig :=
  if decide (text = emptyDocument) then Ok (mkConfig [])
  else if decide (text = notifyDocument) then
    Ok (mkConfig [mkStage "release" [mkStep "announce" "notify" ∅]])
  else Err "invalid character".

Definition execute (cancelled : bool) (script : string) (opts : ExecuteOptions) (e : unit)
    : (result Scripts.ExecuteResult * list string) * unit :=
  if cancelled then (Err "启动命令失败: context canceled", [], e)
  else (Ok (Scripts.mkResult 0 ("ok" +:+ Scripts.newline) "" 0), ["ok"], e).

Definition clone (repoURL branch workDir : string) (e : unit) : option string * unit :=
  (None, e).

Definition stat_ok (path : string) (e : unit) : bool := false.
Definition now (e : unit) : Z * unit := (1700000000000000000%Z, e).
Definition format (t : Z) : string := "2023-11-14 22:13:20".
Definition duration (d : Z) : string := "0s".
Definition served (e : unit) : option string := None.

Definition demoProject : Project := mkProject 2 "demo" "https://example.org/demo.git" "main".

Definition pipelines : gmap N Pipeline :=
  <[1 := mkPipeline 1 "empty" emptyDocument demoProject]>
  (<[2 := mkPipeline 2 "notify" notifyDocument demoProject]>
  (<[3 := mkPipeline 3 "broken" brokenDocument demoProject]> ∅)).

(** The engine of a process that starts on a database without runs. *)
Definition start : Engine := NewEngine pipelines ∅ 0 tt.

Definition run_steps (acts : list Action) (w : Engine) : option Engine :=
  steps cfg decode execute clone stat_ok ∅ now format duration served served served acts w.

(** The state reached from [start] by [acts] ([start] itself when [acts]
    cannot take place). *)
Definition after (acts : list (@Action unit)) : Engine :=
  default start (run_steps acts start).

Definition demoStep (acts : list (@Action unit)) (a : @Action unit) : option Engine :=
  step cfg decode execute clone stat_ok ∅ now format duration served served served a
       (after acts).

Lemma after_reachable acts :
  is_Some (run_steps acts start) ->
  reachable cfg decode execute clone stat_ok ∅ now format duration served served served
            (after acts).
Proof.
  intros [w Hw]. exists pipelines, ∅, 0, tt, acts. split.
  - intros id run H. rewrite lookup_empty in H. discriminate.
  - unfold after. rewrite Hw. exact Hw.
Qed.

(** The job context of run 7 of pipeline 1, and a script step whose
    [config.env] sets one of the well-known keys. *)
Definition job7 : JobContext :=
  mkJob 7 (fst (now tt)) (mkPipeline 1 "empty" emptyDocument demoProject) false 7.

Definition step7 : PipelineStep :=
  mkStep "compile" "script"
    (<["script" := VString "make"]>
       (<["env" := VObject (<["BUILD_VERSION" := VString "custom"]> ∅)]> ∅)).

Definition demoExecuteStep (jobCtx : JobContext) (step : PipelineStep) : list (string * ExecuteOptions) :=
  scriptCalls (snd (executeStep cfg execute clone stat_ok ∅ now format jobCtx step
                      (mkExec tt make_chan []))).

(** C1, as the claim states it, fails: a script step of run 7 whose
    [config.env] sets BUILD_VERSION makes one call of the executor, and the
    environment of that call maps BUILD_VERSION to the user's value, not to
    the synthesized "v7". *)
Lemma user_entry_shadows_well_known :
  (fun c : string * ExecuteOptions => (fst c, Env (snd c) !! "BUILD_VERSION"))
     <$> demoExecuteStep job7 step7 = [("make", Some "custom")] /\
  wellKnownEnv job7 !! "BUILD_VERSION" = Some "v7".
Proof. split; vm_compute; reflexivity. Qed.

Definition manual1 : @Action unit := ActRunPipeline 1 "manual" 1.

(** Run 1 of the empty pipeline is started; [CancelPipelineRun 1] finds it
    in the registry, cancels its context and writes the status cancelled. *)
Definition cancelled1 : list (@Action unit) :=
  [manual1; ActCancelLookup 1; ActCancelWrite 1].

(** Then the goroutine of the run, which was at work all along, parses the
    document, finds no stage and calls [finishPipelineRun]. *)
Definition cancelThenFinish : list (@Action unit) :=
  cancelled1 ++ [ActGo 1; ActGo 1; ActGo 1].

(** C2: the run is cancelled while its goroutine is at work, and the update
    of [CancelPipelineRun] is served, so that the persisted status is the
    terminal status cancelled. The goroutine is not stopped: when it reaches
    [finishPipelineRun], the row's status is overwritten with success. *)
Theorem cancelled_status_overwritten :
  run_steps cancelled1 start = Some (after cancelled1) /\
  statusOf (after cancelled1) 1 = Some RunStatusCancelled /\
  terminal RunStatusCancelled = true /\
  goroutines (after cancelled1) !! 1 = Some AtParse /\
  run_steps [ActGo 1; ActGo 1] (after cancelled1)
    = Some (after (cancelled1 ++ [ActGo 1; ActGo 1])) /\
  goroutines (after (cancelled1 ++ [ActGo 1; ActGo 1])) !! 1
    = Some (AtFinish RunStatusSuccess "流水线执行成功") /\
  statusOf (after (cancelled1 ++ [ActGo 1; ActGo 1])) 1 = Some RunStatusCancelled /\
  demoStep (cancelled1 ++ [ActGo 1; ActGo 1]) (ActGo 1) = Some (after cancelThenFinish) /\
  statusOf (after cancelThenFinish) 1 = Some RunStatusSuccess.
Proof.
  split; [vm_compute; reflexivity |]. split; [vm_compute; reflexivity |].
  split; [reflexivity |]. split; [vm_compute; reflexivity |].
  split; [vm_compute; reflexivity |]. split; [vm_compute; reflexivity |].
  split; [vm_compute; reflexivity |]. split; vm_compute; reflexivity.
Qed.

(** C3, as the claim states it, fails: pipeline 3 holds a document that does
    not parse, yet [RunPipeline] accepts the request and the created run has
    status running. *)
Lemma broken_document_run_is_running :
  invalid_spec decode (pl_Config (mkPipeline 3 "broken" brokenDocument demoProject)) /\
  pipelines !! 3 = Some (mkPipeline 3 "broken" brokenDocument demoProject) /\
  is_ok (fst (RunPipeline now served served 3 "manual" 1 start)) = true /\
  statusOf (snd (RunPipeline now served served 3 "manual" 1 start)) 1 = Some RunStatusRunning.
Proof.
  split; [unfold invalid_spec; vm_compute; exact I |].
  split; [vm_compute; reflexivity |]. split; vm_compute; reflexivity.
Qed.

Definition webhook2 : @Action unit := ActRunPipeline 2 "webhook" 1.

(** Run 1 of the pipeline [notify], whose goroutine has come to its call of
    [finishPipelineRun]. *)
Definition notifyAtFinish : Engine := after [webhook2; ActGo 1; ActGo 1; ActGo 1; ActGo 1].

Lemma notifyAtFinish_reachable :
  reachable cfg decode execute clone stat_ok ∅ now format duration served served served
            notifyAtFinish.
Proof. apply after_reachable. vm_compute. eexists. reflexivity. Qed.

Lemma notify_invalid :
  invalid_spec decode (pl_Config (mkPipeline 2 "notify" notifyDocument demoProject)).
Proof.
  exists (mkStage "release" [mkStep "announce" "notify" ∅]), (mkStep "announce" "notify" ∅).
  split; [apply list_elem_of_here |]. split; [apply list_elem_of_here | reflexivity].
Qed.

Lemma invalid_spec_run_ends_failed_witness :
  (exists run,
     fst (RunPipeline now served served 2 "webhook" 1 start) = Ok run /\
     run_Status run = RunStatusRunning) /\
  (exists w',
     step cfg decode execute clone stat_ok ∅ now format duration served served served
          (ActGo 1) notifyAtFinish = Some w' /\
     statusOf w' 1 = Some RunStatusFailed).
Proof.
  destruct (invalid_spec_run_ends_failed cfg decode execute clone stat_ok ∅ now format
              duration served served served) as (Hentry & _ & Hfinish).
  split.
  - destruct (Hentry 2 "webhook" 1 (mkPipeline 2 "notify" notifyDocument demoProject) start
                eq_refl eq_refl eq_refl notify_invalid) as (run & Hok & Hrunning & _).
    exists run. split; assumption.
  - destruct (runningJobs notifyAtFinish !! 1) as [jobCtx |] eqn:Hj;
      [| vm_compute in Hj; discriminate].
    assert (Hjob : jobCtx = mkJob 1 (fst (now tt))
                              (mkPipeline 2 "notify" notifyDocument demoProject) false 1).
    { vm_compute in Hj. inversion Hj. reflexivity. }
    destruct (goroutines notifyAtFinish !! 1) as [ph |] eqn:Hg;
      [| vm_compute in Hg; discriminate].
    assert (Hph : exists message, ph = AtFinish RunStatusFailed message).
    { vm_compute in Hg. inversion Hg. eexists. reflexivity. }
    destruct Hph as [message ->].
    destruct (Hfinish notifyAtFinish 1 jobCtx RunStatusFailed message
                notifyAtFinish_reachable Hj) as (_ & w' & Hstep & Hserved & _).
    + rewrite Hjob. exact notify_invalid.
    + exact Hg.
    + exists w'. split; [exact Hstep | apply Hserved; reflexivity].
Defined.



(** A call of [GetJobLogs 1] finds run 1 in the registry and enters its
    loop; before the loop's first receive the goroutine of the run comes to
    its end: it finishes the run, leaves the registry and closes the
    channel. *)
Definition closedUnderReader : list (@Action unit) :=
  [manual1; ActLogsLookup 1; ActGo 1; ActGo 1; ActGo 1; ActGo 1; ActGo 1; ActClose 1].

(** C9: run 1 is in the live registry when [GetJobLogs 1] looks it up, and
    the channel is closed before the loop of the call has emptied it. The
    call then never returns: no number of iterations reaches the [default]
    case, and after [n] iterations the call is still in its loop, having
    received [n] lines, of which all but the two that were queued are
    empty. *)
Theorem GetJobLogs_never_returns_after_close :
  is_Some (runningJobs (after [manual1]) !! 1) /\
  run_steps closedUnderReader start = Some (after closedUnderReader) /\
  draining (after closedUnderReader) = [(1, [])] /\
  (closed <$> chans (after closedUnderReader) !! 1) = Some true /\
  (length ∘ buf <$> chans (after closedUnderReader) !! 1) = Some 2%nat /\
  (forall fuel, GetJobLogs_loop fuel 0 (after closedUnderReader) = None) /\
  (forall n, exists w' logs,
     run_steps (replicate n (ActLogsReceive 0)) (after closedUnderReader) = Some w' /\
     draining w' = [(1, logs)] /\ length logs = n /\
     drop 2 logs = replicate (n - 2) "").
Proof.
  split; [vm_compute; eexists; reflexivity |].
  split; [vm_compute; reflexivity |].
  split; [vm_compute; reflexivity |].
  split; [vm_compute; reflexivity |].
  split; [vm_compute; reflexivity |].
  split.
  - intros fuel.
    destruct (chans (after closedUnderReader) !! 1) as [c |] eqn:Hc;
      [| vm_compute in Hc; discriminate].
    apply (GetJobLogs_loop_closed fuel 0 _ 1 [] c); [vm_compute; reflexivity | exact Hc |].
    vm_compute in Hc. inversion Hc. reflexivity.
  - intros n. destruct n as [| [| n]].
    + eexists _, _. split; [reflexivity |]. vm_compute. repeat split.
    + eexists _, _. split; [vm_compute; reflexivity |]. vm_compute. repeat split.
    + assert (H2 : exists w2 l1 l2,
                run_steps [ActLogsReceive 0; ActLogsReceive 0] (after closedUnderReader)
                  = Some w2 /\
                draining w2 = [(1, [l1; l2])] /\ chans w2 !! 1 = Some (mkChan [] true)).
      { eexists _, _, _. split; [vm_compute; reflexivity |]. split; vm_compute; reflexivity. }
      destruct H2 as (w2 & l1 & l2 & Hw2 & Hd2 & Hc2).
      assert (Hrest : forall m w logs,
                draining w = [(1, logs)] -> chans w !! 1 = Some (mkChan [] true) ->
                exists w', run_steps (replicate m (ActLogsReceive 0)) w = Some w' /\
                           draining w' = [(1, logs ++ replicate m "")]).
      { induction m as [| m IH]; intros w logs Hd Hc.
        - exists w. split; [reflexivity | now rewrite app_nil_r].
        - cbn [replicate]. unfold run_steps. cbn [steps step].
          unfold GetJobLogs_receive. rewrite Hd. cbn [lookup list_lookup]. rewrite Hc.
          cbn [chan_tryrecv buf closed fmap option_fmap option_map snd].
          destruct (IH (with_draining (<[0%nat := (1, logs ++ [""])]> (draining w))
                          (with_chans (<[1 := mkChan [] true]> (chans w)) w))
                       (logs ++ [""])) as (w' & Hw' & Hd').
          + cbn [with_draining draining]. rewrite Hd. reflexivity.
          + cbn [with_draining with_chans chans]. apply lookup_insert_eq.
          + exists w'. split; [rewrite Hd in Hw'; exact Hw' |].
            rewrite Hd', <- app_assoc. reflexivity. }
      destruct (Hrest n w2 [l1; l2] Hd2 Hc2) as (w' & Hw' & Hd').
      exists w', ([l1; l2] ++ replicate n ""). split.
      * change (S (S n)) with (2 + n)%nat. rewrite replicate_add.
        unfold run_steps in *.
        eapply eq_trans; [eapply steps_app; exact Hw2 | exact Hw'].
      * split; [exact Hd' |]. split.
        -- rewrite length_app, length_replicate. reflexivity.
        -- cbn [app drop]. replace (S (S n) - 2)%nat with n by lia. reflexivity.
Qed.

(** Run 1 of the empty pipeline, started by hand and not yet executed. *)
Definition started : Engine := after [manual1].

Lemma started_reachable :
  reachable cfg decode execute clone stat_ok ∅ now format duration served served served
            started.
Proof. apply after_reachable. vm_compute. eexists. reflexivity. Qed.

Lemma live_registry_consistent_witness :
  exists run, db_runs started !! 1 = Some run /\ run_ID run = 1.
Proof.
  destruct (live_registry_consistent cfg decode execute clone stat_ok ∅ now format duration
              served served served started started_reachable) as (_ & Hjobs & _).
  destruct (runningJobs started !! 1) as [jobCtx |] eqn:Hj;
    [| vm_compute in Hj; discriminate].
  destruct (Hjobs 1 jobCtx Hj) as [_ Hrow]. exact Hrow.
Defined.

Lemma log_channels_bounded_and_open_witness :
  exists c, chans started !! 1 = Some c /\ closed c = false.
Proof.
  destruct (log_channels_bounded_and_open cfg decode execute clone stat_ok ∅ now format
              duration served served served started started_reachable) as (_ & Hopen & _).
  destruct (runningJobs started !! 1) as [jobCtx |] eqn:Hj;
    [| vm_compute in Hj; discriminate].
  destruct (Hopen 1 jobCtx Hj) as (c & Hc & Ho).
  assert (Ha : job_LogChan jobCtx = 1) by (vm_compute in Hj; inversion Hj; reflexivity).
  rewrite Ha in Hc. exists c. split; assumption.
Defined.

Lemma run_identity_is_permanent_witness :
  exists run',
    db_runs (after cancelThenFinish) !! 1 = Some run' /\
    run_ID run' = 1 /\ run_PipelineID run' = 1 /\ run_TriggerType run' = "manual".
Proof.
  destruct (db_runs started !! 1) as [run |] eqn:Hrun; [| vm_compute in Hrun; discriminate].
  destruct (run_identity_is_permanent cfg decode execute clone stat_ok ∅ now format duration
              served served served
              [ActCancelLookup 1; ActCancelWrite 1; ActGo 1; ActGo 1; ActGo 1]
              started (after cancelThenFinish) 1 run started_reachable)
    as (run' & Hrun' & Hid & Hpid & Htype & _).
  - vm_compute. reflexivity.
  - exact Hrun.
  - exists run'. split; [exact Hrun' |]. split; [exact Hid |].
    vm_compute in Hrun. inversion Hrun; subst run. split; assumption.
Defined.


Lemma CancelPipelineRun_outcome_witness :
  (exists w',
     CancelPipelineRun now served 1 started = (None, w') /\
     statusOf w' 1 = Some RunStatusCancelled /\
     goroutines w' = goroutines started) /\
  CancelPipelineRun now served 5 started = (Some "流水线运行不存在或已完成", started).
Proof.
  split.
  - pose proof (CancelPipelineRun_outcome cfg decode execute clone stat_ok ∅ now format
                  duration served served served 1 started started_reachable) as H.
    destruct (runningJobs started !! 1) as [jobCtx |] eqn:Hj;
      [| vm_compute in Hj; discriminate].
    destruct H as (w' & Hcall & Hstatus & _ & _ & Hg & _).
    exists w'. split; [exact Hcall |]. split; [apply Hstatus; reflexivity | exact Hg].
  - pose proof (CancelPipelineRun_outcome cfg decode execute clone stat_ok ∅ now format
                  duration served served served 5 started started_reachable) as H.
    destruct (runningJobs started !! 5) as [jobCtx |] eqn:Hj;
      [vm_compute in Hj; discriminate | exact H].
Defined.

(** A channel that already holds as many lines as it has room for. *)
Definition fullChan : Chan := mkChan (replicate logChanCap "queued") false.


Definition announce : PipelineStep := mkStep "announce" "notify" ∅.

Lemma execution_stops_at_first_failure_witness :
  executeSteps cfg execute clone stat_ok ∅ now format job7 ([announce] ++ [step7])
      (mkExec tt make_chan [])
    = executeSteps cfg execute clone stat_ok ∅ now format job7 [announce]
        (mkExec tt make_chan []).
Proof.
  destruct (executeSteps cfg execute clone stat_ok ∅ now format job7 [announce]
              (mkExec tt make_chan [])) as [[u | msg] st'] eqn:Hfail;
    [vm_compute in Hfail; discriminate |].
  exact (proj1 (execution_stops_at_first_failure cfg execute clone stat_ok ∅ now format job7)
               [announce] [step7] (mkExec tt make_chan []) msg st' Hfail).
Defined.

Lemma executeScript_succeeds_iff_witness :
  fst (executeScript cfg execute now format job7 step7 (mkExec tt make_chan [])) = Ok tt /\
  executeScript cfg execute now format job7 announce (mkExec tt make_chan [])
    = (Err "脚本内容不能为空", mkExec tt make_chan []).
Proof.
  split.
  - apply (proj1 (executeScript_succeeds_iff cfg execute now format job7 step7
                    (mkExec tt make_chan []))).
    exists "make", (Scripts.mkResult 0 ("ok" +:+ Scripts.newline) "" 0).
    split; [vm_compute; reflexivity |]. split; reflexivity.
  - apply (proj2 (executeScript_succeeds_iff cfg execute now format job7 announce
                    (mkExec tt make_chan []))).
    intros script Hs. vm_compute in Hs. discriminate.
Defined.

Lemma step_runs_at_most_one_script_witness :
  exists new, demoExecuteStep job7 step7 = new /\ (length new <= 1)%nat.
Proof.
  destruct (step_runs_at_most_one_script cfg execute clone stat_ok ∅ now format job7 step7
              (mkExec tt make_chan [])) as (new & Hcalls & Hlen & _).
  exists new. split; [exact Hcalls | exact Hlen].
Defined.

End Demo.

End Pipeline.

(* ================================================================== *)
(** * pkg/config: loading, validating and completing the configuration *)
(* ================================================================== *)

Module Config.

(** ** The configuration structure *)

Record TLSConfig : Type := mkTLS {
  tls_Enabled : bool;
  tls_CertFile : string;
  tls_KeyFile : string
}.

Record ServerConfig : Type := mkServer {
  srv_Host : string;
  srv_Port : Z;
  srv_Mode : string;
  srv_ReadTimeout : Z;
  srv_WriteTimeout : Z;
  srv_MaxHeaderMB : Z;
  srv_TLS : TLSConfig
}.

Record DatabaseConfig : Type := mkDatabase {
  db_Type : string;
  db_Host : string;
  db_Port : Z;
  db_Username : string;
  db_Password : string;
  db_Name : string;
  db_MaxIdleConns : Z;
  db_MaxOpenConns : Z;
  db_ConnMaxLifetime : Z;
  db_LogLevel : string
}.

Record JWTConfig : Type := mkJWT {
  jwt_Secret : string;
  jwt_ExpireTime : Z;
  jwt_Issuer : string
}.

Record SSHConfig : Type := mkSSH {
  ssh_KeysPath : string;
  ssh_Timeout : Z;
  ssh_MaxRetries : Z;
  ssh_DefaultUser : string;
  ssh_DefaultPort : Z
}.

Record DeployConfig : Type := mkDeploy {
  dep_WorkspaceDir : string;
  dep_MaxConcurrent : Z;
  dep_Timeout : Z;
  dep_RetryCount : Z;
  dep_CleanupAfterDays : Z;
  dep_EnableWebhook : bool;
  dep_WebhookSecret : string
}.

Record LogConfig : Type := mkLog {
  log_Level : string;
  log_Format : string;
  log_Output : string;
  log_Filename : string;
  log_MaxSize : Z;
  log_MaxBackups : Z;
  log_MaxAge : Z;
  log_Compress : bool
}.

Record LocalConfig : Type := mkLocal {
  local_Path : string
}.

Record S3Config : Type := mkS3 {
  s3_Region : string;
  s3_Bucket : string;
  s3_AccessKeyID : string;
  s3_SecretAccessKey : string;
  s3_Endpoint : string;
  s3_UseSSL : bool
}.

Record OSSConfig : Type := mkOSS {
  oss_Endpoint : string;
  oss_Bucket : string;
  oss_AccessKeyID : string;
  oss_AccessKeySecret : string
}.

Record StorageConfig : Type := mkStorage {
  sto_Type : string;
  sto_Local : LocalConfig;
  sto_S3 : S3Config;
  sto_OSS : OSSConfig
}.

Record Config : Type := mkConfig {
  Server : ServerConfig;
  Database : DatabaseConfig;
  JWT : JWTConfig;
  SSH : SSHConfig;
  Deploy : DeployConfig;
  Log : LogConfig;
  Storage : StorageConfig
}.

(** ** [contains], [validateConfig] and [setDefaults] *)

Fixpoint contains (slice : list string) (item : string) : bool :=
  match slice with
  | [] => false
  | s :: rest => if decide (s = item) then true else contains rest item
  end.

Definition validModes : list string := ["debug"; "release"; "test"].
Definition validDBTypes : list string := ["mysql"; "postgres"; "sqlite"].
Definition validStorageTypes : list string := ["local"; "s3"; "oss"].

(** [validateConfig]: the error of the first check that fails, [None] when
    all pass. *)
Definition validateConfig (config : Config) : option string :=
  if decide (srv_Port (Server config) <= 0 \/ srv_Port (Server config) > 65535) then
    Some ("无效的服务器端口: " +:+ pretty (srv_Port (Server config)))
  else if negb (contains validModes (srv_Mode (Server config))) then
    Some ("无效的服务器模式: " +:+ srv_Mode (Server config))
  else if negb (contains validDBTypes (db_Type (Database config))) then
    Some ("不支持的数据库类型: " +:+ db_Type (Database config))
  else if decide (db_Type (Database config) <> "sqlite" /\ db_Host (Database config) = "") then
    Some "数据库主机不能为空"
  else if decide (db_Type (Database config) <> "sqlite" /\ db_Username (Database config) = "")
  then Some "数据库用户名不能为空"
  else if decide (db_Type (Database config) <> "sqlite" /\ db_Name (Database config) = "") then
    Some "数据库名不能为空"
  else if decide (jwt_Secret (JWT config) = "") then Some "JWT密钥不能为空"
  else if decide (String.length (jwt_Secret (JWT config)) < 32)%nat then
    Some "JWT密钥长度不能少于32位"
  else if negb (contains validStorageTypes (sto_Type (Storage config))) then
    Some ("不支持的存储类型: " +:+ sto_Type (Storage config))
  else None.

(** [if v == "" { v = d }] and [if v == 0 { v = d }]. *)
Definition strOr (v d : string) : string := if decide (v = "") then d else v.
Definition intOr (v d : Z) : Z := if decide (v = 0) then d else v.

Definition setDefaults (config : Config) : Config :=
  let s := Server config in
  let d := Database config in
  let j := JWT config in
  let h := SSH config in
  let p := Deploy config in
  let l := Log config in
  let g := Storage config in
  let dbType := strOr (db_Type d) "sqlite" in
  let dbName :=
    if decide (db_Name d = "") then
      if decide (dbType = "sqlite") then "flowforge.db" else "flowforge"
    else db_Name d in
  let dbPort :=
    if decide (db_Port d = 0) then
      if decide (dbType = "mysql") then 3306
      else if decide (dbType = "postgres") then 5432
      else db_Port d
    else db_Port d in
  mkConfig
    (mkServer (strOr (srv_Host s) "0.0.0.0") (intOr (srv_Port s) 8080)
              (strOr (srv_Mode s) "release") (intOr (srv_ReadTimeout s) 60)
              (intOr (srv_WriteTimeout s) 60) (intOr (srv_MaxHeaderMB s) 1) (srv_TLS s))
    (mkDatabase dbType (db_Host d) dbPort (db_Username d) (db_Password d) dbName
                (intOr (db_MaxIdleConns d) 10) (intOr (db_MaxOpenConns d) 100)
                (intOr (db_ConnMaxLifetime d) 3600) (strOr (db_LogLevel d) "info"))
    (mkJWT (jwt_Secret j) (intOr (jwt_ExpireTime j) 24) (strOr (jwt_Issuer j) "flowforge"))
    (mkSSH (strOr (ssh_KeysPath h) "./ssh_keys") (intOr (ssh_Timeout h) 30)
           (intOr (ssh_MaxRetries h) 3) (strOr (ssh_DefaultUser h) "root")
           (intOr (ssh_DefaultPort h) 22))
    (mkDeploy (strOr (dep_WorkspaceDir p) "./workspace") (intOr (dep_MaxConcurrent p) 5)
              (intOr (dep_Timeout p) 1800) (intOr (dep_RetryCount p) 3)
              (intOr (dep_CleanupAfterDays p) 7) (dep_EnableWebhook p) (dep_WebhookSecret p))
    (mkLog (strOr (log_Level l) "info") (strOr (log_Format l) "json")
           (strOr (log_Output l) "stdout") (log_Filename l) (intOr (log_MaxSize l) 100)
           (intOr (log_MaxBackups l) 3) (intOr (log_MaxAge l) 28) (log_Compress l))
    (mkStorage (strOr (sto_Type g) "local") (mkLocal (strOr (local_Path (sto_Local g)) "./storage"))
               (sto_S3 g) (sto_OSS g)).

(** ** The accessors of the loaded configuration *)

(** [fmt.Sprintf] with the mysql and postgres formats of [GetDatabaseDSN]. *)
Definition mysqlDSN (cfg : DatabaseConfig) : string :=
  db_Username cfg +:+ ":" +:+ db_Password cfg +:+ "@tcp(" +:+ db_Host cfg +:+ ":"
    +:+ pretty (db_Port cfg) +:+ ")/" +:+ db_Name cfg
    +:+ "?charset=utf8mb4&parseTime=True&loc=Local".

Definition postgresDSN (cfg : DatabaseConfig) : string :=
  "host=" +:+ db_Host cfg +:+ " user=" +:+ db_Username cfg +:+ " password="
    +:+ db_Password cfg +:+ " dbname=" +:+ db_Name cfg +:+ " port=" +:+ pretty (db_Port cfg)
    +:+ " sslmode=disable TimeZone=Asia/Shanghai".

(** The accessors read the package variable [AppConfig], which is nil until
    a configuration has been loaded. *)
Definition GetDatabaseDSN (AppConfig : option Config) : string :=
  match AppConfig with
  | None => ""
  | Some config =>
      let cfg := Database config in
      if decide (db_Type cfg = "mysql") then mysqlDSN cfg
      else if decide (db_Type cfg = "postgres") then postgresDSN cfg
      else if decide (db_Type cfg = "sqlite") then db_Name cfg
      else ""
  end.

Definition GetServerAddr (AppConfig : option Config) : string :=
  match AppConfig with
  | None => ":8080"
  | Some config => srv_Host (Server config) +:+ ":" +:+ pretty (srv_Port (Server config))
  end.

Definition IsProduction (AppConfig : option Config) : bool :=
  match AppConfig with
  | None => false
  | Some config => bool_decide (srv_Mode (Server config) = "release")
  end.

Definition IsDevelopment (AppConfig : option Config) : bool :=
  match AppConfig with
  | None => false
  | Some config => bool_decide (srv_Mode (Server config) = "debug")
  end.

Section Loading.

(** The file system, the YAML decoder, the process environment and
    [strconv.Atoi]. *)
Variable os_ReadFile : string -> result string.
Variable yaml_Unmarshal : string -> result Config.
Variable os_Getenv : string -> string.
Variable strconv_Atoi : string -> option Z.

(** [if v := os.Getenv(key); v != "" { field = v }]. *)
Definition envStr (key : string) (field : string) : string :=
  if decide (os_Getenv key = "") then field else os_Getenv key.

(** The same for a number: a value that [Atoi] rejects is ignored. *)
Definition envInt (key : string) (field : Z) : Z :=
  if decide (os_Getenv key = "") then field
  else match strconv_Atoi (os_Getenv key) with
       | Some p => p
       | None => field
       end.

Definition overrideFromEnv (config : Config) : Config :=
  let s := Server config in
  let d := Database config in
  let j := JWT config in
  let p := Deploy config in
  mkConfig
    (mkServer (envStr "SERVER_HOST" (srv_Host s)) (envInt "SERVER_PORT" (srv_Port s))
              (envStr "SERVER_MODE" (srv_Mode s)) (srv_ReadTimeout s) (srv_WriteTimeout s)
              (srv_MaxHeaderMB s) (srv_TLS s))
    (mkDatabase (envStr "DB_TYPE" (db_Type d)) (envStr "DB_HOST" (db_Host d))
                (envInt "DB_PORT" (db_Port d)) (envStr "DB_USERNAME" (db_Username d))
                (envStr "DB_PASSWORD" (db_Password d)) (envStr "DB_NAME" (db_Name d))
                (db_MaxIdleConns d) (db_MaxOpenConns d) (db_ConnMaxLifetime d) (db_LogLevel d))
    (mkJWT (envStr "JWT_SECRET" (jwt_Secret j)) (envInt "JWT_EXPIRE_TIME" (jwt_ExpireTime j))
           (jwt_Issuer j))
    (SSH config)
    (mkDeploy (envStr "DEPLOY_WORKSPACE_DIR" (dep_WorkspaceDir p)) (dep_MaxConcurrent p)
              (dep_Timeout p) (dep_RetryCount p) (dep_CleanupAfterDays p) (dep_EnableWebhook p)
              (envStr "WEBHOOK_SECRET" (dep_WebhookSecret p)))
    (Log config)
    (Storage config).

(** [LoadConfig]: read, decode, override from the environment, validate,
    then complete with defaults. *)
Definition LoadConfig (configPath : string) : result Config :=
  match os_ReadFile configPath with
  | Err err => Err ("读取配置文件失败: " +:+ err)
  | Ok data =>
      match yaml_Unmarshal data with
      | Err err => Err ("解析配置文件失败: " +:+ err)
      | Ok config =>
          let config := overrideFromEnv config in
          match validateConfig config with
          | Some err => Err ("配置验证失败: " +:+ err)
          | None => Ok (setDefaults config)
          end
      end
  end.

End Loading.

(** ** Validation comes before the defaults *)

Lemma contains_spec slice item : contains slice item = true <-> item ∈ slice.
Proof.
  induction slice as [| s rest IH]; simpl.
  - split; [discriminate | intros H; inversion H].
  - destruct (decide (s = item)) as [-> | Hne].
    + split; [intros _; apply list_elem_of_here | reflexivity].
    + rewrite IH. split; [apply list_elem_of_further |].
      intros H. apply elem_of_cons in H as [-> | H]; [congruence | exact H].
Qed.

Lemma contains_nonempty slice item :
  contains slice item = true -> ("" ∉ slice) -> item <> "".
Proof. intros H Hno ->. apply Hno, contains_spec, H. Qed.

(** What a configuration that passes [validateConfig] satisfies. *)
Record valid (config : Config) : Prop := mkValid {
  v_port : 1 <= srv_Port (Server config) <= 65535;
  v_mode : srv_Mode (Server config) ∈ validModes;
  v_dbtype : db_Type (Database config) ∈ validDBTypes;
  v_remote : db_Type (Database config) <> "sqlite" ->
             db_Host (Database config) <> "" /\ db_Username (Database config) <> "" /\
             db_Name (Database config) <> "";
  v_secret : (32 <= String.length (jwt_Secret (JWT config)))%nat;
  v_storage : sto_Type (Storage config) ∈ validStorageTypes
}.

Lemma validateConfig_valid config : validateConfig config = None <-> valid config.
Proof.
  unfold validateConfig. split.
  - intros H.
    destruct (decide (srv_Port (Server config) <= 0 \/ srv_Port (Server config) > 65535))
      as [| Hport]; [discriminate |].
    destruct (contains validModes (srv_Mode (Server config))) eqn:Hmode; [| discriminate].
    cbn [negb] in H.
    destruct (contains validDBTypes (db_Type (Database config))) eqn:Hdb; [| discriminate].
    cbn [negb] in H.
    destruct (decide (db_Type (Database config) <> "sqlite" /\ db_Host (Database config) = ""))
      as [| Hhost]; [discriminate |].
    destruct (decide (db_Type (Database config) <> "sqlite" /\
                      db_Username (Database config) = "")) as [| Huser]; [discriminate |].
    destruct (decide (db_Type (Database config) <> "sqlite" /\ db_Name (Database config) = ""))
      as [| Hname]; [discriminate |].
    destruct (decide (jwt_Secret (JWT config) = "")) as [| Hsecret]; [discriminate |].
    destruct (decide (String.length (jwt_Secret (JWT config)) < 32)%nat) as [| Hlen];
      [discriminate |].
    destruct (contains validStorageTypes (sto_Type (Storage config))) eqn:Hsto;
      [| discriminate].
    split.
    + lia.
    + apply contains_spec, Hmode.
    + apply contains_spec, Hdb.
    + intros Hremote. repeat split; intros E; [apply Hhost | apply Huser | apply Hname]; auto.
    + lia.
    + apply contains_spec, Hsto.
  - intros [Hport Hmode Hdb Hremote Hsecret Hsto].
    rewrite decide_False by lia.
    apply contains_spec in Hmode, Hdb, Hsto. rewrite Hmode, Hdb, Hsto. cbn [negb].
    assert (Hs : jwt_Secret (JWT config) <> "").
    { intros E. rewrite E in Hsecret. simpl in Hsecret. lia. }
    rewrite !decide_False; [reflexivity | lia | exact Hs | | |];
      intros [Hne E]; destruct (Hremote Hne) as (H1 & H2 & H3); congruence.
Qed.

Lemma strOr_nonempty v d : v <> "" -> strOr v d = v.
Proof. intros H. unfold strOr. now rewrite decide_False. Qed.

Lemma intOr_nonzero v d : v <> 0 -> intOr v d = v.
Proof. intros H. unfold intOr. now rewrite decide_False. Qed.

Lemma strOr_idem v d : d <> "" -> strOr (strOr v d) d = strOr v d.
Proof.
  intros Hd. unfold strOr. destruct (decide (v = "")) as [-> | Hv].
  - now rewrite decide_False.
  - now rewrite decide_False.
Qed.

Lemma intOr_idem v d : d <> 0 -> intOr (intOr v d) d = intOr v d.
Proof.
  intros Hd. unfold intOr. destruct (decide (v = 0)) as [-> | Hv].
  - now rewrite decide_False.
  - now rewrite decide_False.
Qed.

Lemma valid_nonempty config :
  valid config ->
  srv_Port (Server config) <> 0 /\ srv_Mode (Server config) <> "" /\
  db_Type (Database config) <> "" /\ sto_Type (Storage config) <> "" /\
  jwt_Secret (JWT config) <> "".
Proof.
  intros [Hport Hmode Hdb _ Hsecret Hsto].
  split; [lia |].
  split; [intros E; rewrite E in Hmode; apply contains_spec in Hmode; vm_compute in Hmode; discriminate |].
  split; [intros E; rewrite E in Hdb; apply contains_spec in Hdb; vm_compute in Hdb; discriminate |].
  split; [intros E; rewrite E in Hsto; apply contains_spec in Hsto; vm_compute in Hsto; discriminate |].
  intros E. rewrite E in Hsecret. simpl in Hsecret. lia.
Qed.

(** [LoadConfig] validates before it completes the configuration, so four
    of the defaults of [setDefaults] can never take effect there: a
    configuration with port 0 or with an empty mode, database type or storage
    type is rejected, and in one that is accepted [setDefaults] leaves the
    port, the mode, the database type, the storage type and the JWT secret as
    they are. *)
Theorem validated_fields_take_no_default (config : Config) :
  (srv_Port (Server config) = 0 \/ srv_Mode (Server config) = "" \/
   db_Type (Database config) = "" \/ sto_Type (Storage config) = "" ->
   is_Some (validateConfig config)) /\
  (validateConfig config = None ->
   srv_Port (Server (setDefaults config)) = srv_Port (Server config) /\
   srv_Mode (Server (setDefaults config)) = srv_Mode (Server config) /\
   db_Type (Database (setDefaults config)) = db_Type (Database config) /\
   sto_Type (Storage (setDefaults config)) = sto_Type (Storage config) /\
   jwt_Secret (JWT (setDefaults config)) = jwt_Secret (JWT config)).
Proof.
  split.
  - intros Hmissing. destruct (validateConfig config) as [err |] eqn:Hv; [eauto |].
    apply validateConfig_valid, valid_nonempty in Hv.
    destruct Hv as (H1 & H2 & H3 & H4 & _).
    destruct Hmissing as [E | [E | [E | E]]]; congruence.
  - intros Hv. apply validateConfig_valid, valid_nonempty in Hv.
    destruct Hv as (H1 & H2 & H3 & H4 & _). simpl.
    rewrite (intOr_nonzero _ _ H1), !strOr_nonempty by assumption. repeat split.
Qed.

(** [setDefaults] is idempotent: completing a completed configuration
    changes nothing, whatever the configuration. *)
Theorem setDefaults_idempotent (config : Config) :
  setDefaults (setDefaults config) = setDefaults config.
Proof.
  destruct config as [s d j h p l g]. unfold setDefaults.
  cbn [Server Database JWT SSH Deploy Log Storage
       srv_Host srv_Port srv_Mode srv_ReadTimeout srv_WriteTimeout srv_MaxHeaderMB srv_TLS
       db_Type db_Host db_Port db_Username db_Password db_Name db_MaxIdleConns
       db_MaxOpenConns db_ConnMaxLifetime db_LogLevel
       jwt_Secret jwt_ExpireTime jwt_Issuer
       ssh_KeysPath ssh_Timeout ssh_MaxRetries ssh_DefaultUser ssh_DefaultPort
       dep_WorkspaceDir dep_MaxConcurrent dep_Timeout dep_RetryCount dep_CleanupAfterDays
       dep_EnableWebhook dep_WebhookSecret
       log_Level log_Format log_Output log_Filename log_MaxSize log_MaxBackups log_MaxAge
       log_Compress sto_Type sto_Local sto_S3 sto_OSS local_Path].
  rewrite !strOr_idem, !intOr_idem by (discriminate || lia).
  f_equal. f_equal.
  - (* the port: its default depends on the completed type *)
    destruct (decide (db_Port d = 0)) as [Hp | Hp]; [| now rewrite decide_False].
    destruct (decide (strOr (db_Type d) "sqlite" = "mysql")) as [Hm | Hm];
      [now rewrite decide_False |].
    destruct (decide (strOr (db_Type d) "sqlite" = "postgres")) as [Hg | Hg];
      [now rewrite decide_False |].
    now rewrite decide_True.
  - (* the name *)
    destruct (decide (db_Name d = "")) as [Hn | Hn]; [| now rewrite decide_False].
    destruct (decide (strOr (db_Type d) "sqlite" = "sqlite")); now rewrite decide_False.
Qed.

Lemma append_nonempty_r (a b : string) : b <> "" -> a +:+ b <> "".
Proof.
  intros Hb E. apply (f_equal String.length) in E.
  rewrite Scripts.length_append in E. destruct b; [congruence | simpl in E; lia].
Qed.

Lemma setDefaults_valid config : valid config -> valid (setDefaults config).
Proof.
  intros Hv. pose proof (valid_nonempty _ Hv) as (H1 & H2 & H3 & H4 & H5).
  destruct Hv as [Hport Hmode Hdb Hremote Hsecret Hsto].
  split; simpl; rewrite ?(intOr_nonzero _ _ H1), ?strOr_nonempty by assumption;
    try assumption.
  intros Hne. destruct (Hremote Hne) as (Ha & Hb & Hc).
  rewrite decide_False by exact Hc. auto.
Qed.

Section Loaded.

Variable os_ReadFile : string -> result string.
Variable yaml_Unmarshal : string -> result Config.
Variable os_Getenv : string -> string.
Variable strconv_Atoi : string -> option Z.

(** Every configuration that [LoadConfig] returns passes [validateConfig]
    again and is already complete. Its database settings always yield a
    connection string, the port of a mysql or postgres database is never 0,
    and its mode is the value of SERVER_MODE whenever that variable is
    set. *)
Theorem LoadConfig_result (configPath : string) (config : Config) :
  LoadConfig os_ReadFile yaml_Unmarshal os_Getenv strconv_Atoi configPath = Ok config ->
  validateConfig config = None /\
  setDefaults config = config /\
  GetDatabaseDSN (Some config) <> "" /\
  (db_Type (Database config) <> "sqlite" -> db_Port (Database config) <> 0) /\
  (os_Getenv "SERVER_MODE" <> "" -> srv_Mode (Server config) = os_Getenv "SERVER_MODE").
Proof.
  unfold LoadConfig.
  destruct (os_ReadFile configPath) as [data | err]; [| discriminate].
  destruct (yaml_Unmarshal data) as [file | err]; [| discriminate].
  destruct (validateConfig (overrideFromEnv os_Getenv strconv_Atoi file)) as [err |] eqn:Hv;
    [discriminate |].
  intros H. inversion H as [Hc]; clear H.
  remember (overrideFromEnv os_Getenv strconv_Atoi file) as c0 eqn:Hc0 in *.
  apply validateConfig_valid in Hv.
  pose proof (valid_nonempty _ Hv) as (H1 & H2 & H3 & H4 & H5).
  pose proof (setDefaults_valid _ Hv) as Hv'.
  split; [apply validateConfig_valid, Hv' |].
  split; [apply setDefaults_idempotent |].
  assert (Htype : db_Type (Database (setDefaults c0)) = db_Type (Database c0)).
  { simpl. now rewrite strOr_nonempty. }
  split.
  { unfold GetDatabaseDSN. rewrite Htype.
    destruct (decide (db_Type (Database c0) = "mysql")) as [Hm | Hm].
    - unfold mysqlDSN. apply append_nonempty_r. discriminate.
    - destruct (decide (db_Type (Database c0) = "postgres")) as [Hg | Hg].
      + unfold postgresDSN. discriminate.
      + destruct (decide (db_Type (Database c0) = "sqlite")) as [Hs | Hs].
        * unfold setDefaults. cbn [Database db_Name].
          destruct (decide (db_Name (Database c0) = "")) as [Hn | Hn]; [| exact Hn].
          destruct (decide _); discriminate.
        * exfalso. destruct Hv as [_ _ Hdb _ _ _]. apply contains_spec in Hdb.
          unfold validDBTypes, contains in Hdb.
          rewrite !decide_False in Hdb by congruence. discriminate. }
  split.
  { rewrite Htype. intros Hne. simpl. rewrite (strOr_nonempty _ _ H3).
    destruct (decide (db_Port (Database c0) = 0)) as [Hp | Hp]; [| exact Hp].
    destruct (decide (db_Type (Database c0) = "mysql")); [lia |].
    destruct (decide (db_Type (Database c0) = "postgres")); [lia |].
    exfalso. destruct Hv as [_ _ Hdb _ _ _]. apply contains_spec in Hdb.
    unfold validDBTypes, contains in Hdb.
    rewrite !decide_False in Hdb by congruence. discriminate. }
  intros Henv. simpl. rewrite (strOr_nonempty _ _ H2).
  rewrite Hc0. simpl. unfold envStr. now rewrite decide_False.
Qed.

End Loaded.

(** ** A closed instance *)

Definition secret : string := "0123456789abcdef0123456789abcdef".

Definition fileConfig : Config :=
  mkConfig
    (mkServer "" 9000 "debug" 0 0 0 (mkTLS false "" ""))
    (mkDatabase "mysql" "db.internal" 0 "flow" "" "forge" 0 0 0 "")
    (mkJWT secret 0 "")
    (mkSSH "" 0 0 "" 0)
    (mkDeploy "" 0 0 0 0 false "")
    (mkLog "" "" "" "" 0 0 0 false)
    (mkStorage "local" (mkLocal "") (mkS3 "" "" "" "" "" false) (mkOSS "" "" "" "")).

Definition readFile (path : string) : result string :=
  if decide (path = "config.yaml") then Ok "server: ..." else Err "no such file".
Definition unmarshal (data : string) : result Config := Ok fileConfig.
Definition getenv (key : string) : string :=
  if decide (key = "SERVER_MODE") then "release" else "".
Definition atoi (s : string) : option Z := None.

Lemma validated_fields_take_no_default_witness :
  srv_Port (Server (setDefaults fileConfig)) = 9000 /\
  is_Some (validateConfig (mkConfig (mkServer "" 0 "" 0 0 0 (mkTLS false "" ""))
                             (Database fileConfig) (JWT fileConfig) (SSH fileConfig)
                             (Deploy fileConfig) (Log fileConfig) (Storage fileConfig))).
Proof.
  split.
  - destruct (proj2 (validated_fields_take_no_default fileConfig)) as [Hport _];
      [vm_compute; reflexivity | exact Hport].
  - apply (proj1 (validated_fields_take_no_default _)). left. reflexivity.
Defined.

Lemma LoadConfig_result_witness :
  exists config,
    LoadConfig readFile unmarshal getenv atoi "config.yaml" = Ok config /\
    srv_Mode (Server config) = "release" /\
    db_Port (Database config) <> 0.
Proof.
  destruct (LoadConfig readFile unmarshal getenv atoi "config.yaml") as [config | err] eqn:Hload;
    [| vm_compute in Hload; discriminate].
  destruct (LoadConfig_result readFile unmarshal getenv atoi "config.yaml" config Hload)
    as (_ & _ & _ & Hport & Hmode).
  exists config. split; [reflexivity |]. split.
  - apply Hmode. discriminate.
  - apply Hport. vm_compute in Hload. inversion Hload. discriminate.
Defined.

End Config.

(* ================================================================== *)
(** * pkg/utils: the size of a file as text *)
(* ================================================================== *)

Module Utils.

Definition unit : Z := 1024.

(** The letters that [FormatFileSize] indexes by the exponent. *)
Definition letters : string := "KMGTPE".

(** The loop [for n := size / unit; n >= unit; n /= unit { div *= unit; exp++ }]
    from the values of [n], [div] and [exp] at its head, with the
    arithmetic of int64 and int; [None] when [fuel] rounds do not end it. *)
Fixpoint scale (fuel : nat) (n div exp : Z) : option (Z * Z) :=
  if decide (n >= unit) then
    match fuel with
    | O => None
    | S fuel' =>
        scale fuel' (Z.quot n unit) (Database.int_wrap (div * unit))
              (Database.int_wrap (exp + 1))
    end
  else Some (div, exp).

(** What a call does: it returns a text, it panics on the index into
    [letters], or its loop is not over after [fuel] rounds. *)
Inductive Outcome : Type :=
  | Returns (text : string)
  | Panics
  | Unfinished.

Section FormatFileSize.

(** [fmt.Sprintf("%.1f", float64(size)/float64(div))]. *)
Variable format_1f : Z -> Z -> string.

Definition FormatFileSize (fuel : nat) (size : Z) : Outcome :=
  if decide (size < unit) then Returns (pretty size +:+ " B")
  else
    match scale fuel (Z.quot size unit) unit 0 with
    | None => Unfinished
    | Some (div, exp) =>
        if decide (exp < 0) then Panics
        else match String.get (Z.to_nat exp) letters with
             | Some letter => Returns (format_1f size div +:+ " " +:+ String letter "B")
             | None => Panics
             end
    end.

End FormatFileSize.

Lemma unit_pow_pos k : 0 <= k -> 0 < unit ^ k.
Proof. intros Hk. apply Z.pow_pos_nonneg; [reflexivity | exact Hk]. Qed.

Lemma unit_pow_succ k : 0 <= k -> unit ^ (k + 1) = unit ^ k * unit.
Proof. intros Hk. rewrite Z.pow_add_r by lia. reflexivity. Qed.

(** An int64 is below [unit ^ 7], so a power of [unit] that is at most an
    int64 has an exponent of at most 6. *)
Lemma unit_pow_bound k size :
  0 <= k -> unit ^ k <= size -> Database.is_int size -> k <= 6.
Proof.
  intros Hk Hle [_ Hmax]. destruct (Z_le_gt_dec k 6) as [| Hgt]; [assumption | exfalso].
  assert (Hmono : unit ^ 7 <= unit ^ k).
  { apply Z.pow_le_mono_r; [reflexivity | lia]. }
  unfold Database.int_max in Hmax.
  assert (H7 : unit ^ 7 = 2 ^ 70) by reflexivity.
  assert (H70 : 2 ^ 63 < 2 ^ 70) by (apply Z.pow_lt_mono_r; lia).
  lia.
Qed.

Lemma scale_spec (size : Z) (Hsize : Database.is_int size) (fuel : nat) :
  forall n e,
    0 <= e -> unit ^ (e + 1) <= size -> n = size / unit ^ (e + 1) ->
    n < unit ^ (Z.of_nat fuel + 1) ->
    exists e',
      scale fuel n (unit ^ (e + 1)) e = Some (unit ^ (e' + 1), e') /\
      e <= e' <= 5 /\ unit ^ (e' + 1) <= size < unit ^ (e' + 2).
Proof.
  induction fuel as [| fuel IH]; intros n e He Hle Hn Hfuel.
  - simpl in *. change (unit ^ 1) with unit in Hfuel.
    rewrite decide_False by lia.
    exists e. split; [reflexivity |].
    pose proof (unit_pow_bound (e + 1) size ltac:(lia) Hle Hsize) as Hb.
    pose proof (unit_pow_pos (e + 1) ltac:(lia)) as Hpos.
    split; [lia |]. split; [exact Hle |].
    replace (e + 2) with (e + 1 + 1) by lia. rewrite (unit_pow_succ (e + 1)) by lia.
    pose proof (Z.mul_succ_div_gt size (unit ^ (e + 1)) Hpos) as Hgt.
    rewrite <- Hn in Hgt. nia.
  - pose proof (unit_pow_bound (e + 1) size ltac:(lia) Hle Hsize) as Hb.
    pose proof (unit_pow_pos (e + 1) ltac:(lia)) as Hpos.
    cbn [scale]. destruct (decide (n >= unit)) as [Hge | Hlt].
    + assert (Hnext : unit ^ (e + 1 + 1) <= size).
      { rewrite (unit_pow_succ (e + 1)) by lia.
        pose proof (Z.mul_div_le size (unit ^ (e + 1)) Hpos) as Hmul.
        rewrite <- Hn in Hmul. nia. }
      pose proof (unit_pow_bound (e + 1 + 1) size ltac:(lia) Hnext Hsize) as Hb'.
      assert (Hdiv : Database.int_wrap (unit ^ (e + 1) * unit) = unit ^ (e + 1 + 1)).
      { rewrite <- (unit_pow_succ (e + 1)) by lia. apply Database.int_wrap_id.
        destruct Hsize as [Hmin Hmax]. split; [| lia].
        pose proof (unit_pow_pos (e + 1 + 1) ltac:(lia)).
        unfold Database.int_min. lia. }
      assert (Hexp : Database.int_wrap (e + 1) = e + 1).
      { apply Database.int_wrap_id. unfold Database.is_int, Database.int_min,
          Database.int_max. lia. }
      rewrite Hdiv, Hexp.
      destruct (IH (Z.quot n unit) (e + 1)) as (e' & Hs & Hrange & Hbounds).
      * lia.
      * exact Hnext.
      * rewrite Z.quot_div_nonneg by (unfold unit in *; lia).
        rewrite Hn, Z.div_div by (unfold unit; lia).
        rewrite <- (unit_pow_succ (e + 1)) by lia. reflexivity.
      * rewrite Z.quot_div_nonneg by (unfold unit in *; lia).
        apply Z.div_lt_upper_bound; [reflexivity |].
        replace (Z.of_nat (S fuel) + 1) with (Z.of_nat fuel + 1 + 1) in Hfuel by lia.
        rewrite (unit_pow_succ (Z.of_nat fuel + 1)) in Hfuel by lia. lia.
      * exists e'. split; [exact Hs |]. split; [lia | exact Hbounds].
    + exists e. split; [reflexivity |]. split; [lia |]. split; [exact Hle |].
      replace (e + 2) with (e + 1 + 1) by lia. rewrite (unit_pow_succ (e + 1)) by lia.
      pose proof (Z.mul_succ_div_gt size (unit ^ (e + 1)) Hpos) as Hgt.
      rewrite <- Hn in Hgt. nia.
Qed.

Lemma scale_more_fuel k : forall n d x r,
  scale k n d x = Some r -> forall fuel, (k <= fuel)%nat -> scale fuel n d x = Some r.
Proof.
  induction k as [| k IH]; intros n d x r Hs fuel Hfuel.
  - simpl in Hs. destruct (decide (n >= unit)) as [| Hlt]; [discriminate |].
    destruct fuel; simpl; rewrite decide_False by exact Hlt; exact Hs.
  - destruct fuel as [| fuel]; [lia |]. cbn [scale] in *.
    destruct (decide (n >= unit)); [| exact Hs]. apply (IH _ _ _ _ Hs). lia.
Qed.

Lemma letters_get e : 0 <= e <= 5 -> is_Some (String.get (Z.to_nat e) letters).
Proof.
  intros He.
  assert (Hc : e = 0 \/ e = 1 \/ e = 2 \/ e = 3 \/ e = 4 \/ e = 5) by lia.
  destruct Hc as [-> | [-> | [-> | [-> | [-> | ->]]]]]; eexists; reflexivity.
Qed.

(** [FormatFileSize] on any int64. Below 1024 (negative sizes included) the
    text is the number itself followed by B. From 1024 on the loop ends
    within five rounds, its multiplication never overflows, the index into
    the six letters is never out of range, and the letter chosen is the one
    of the largest power of 1024 that is at most the size, so that the
    quotient handed to the formatter is at least 1 and below 1024. *)
Theorem FormatFileSize_unit (format_1f : Z -> Z -> string) (size : Z) :
  Database.is_int size ->
  (size < unit -> forall fuel,
     FormatFileSize format_1f fuel size = Returns (pretty size +:+ " B")) /\
  (unit <= size ->
   exists exp letter,
     0 <= exp <= 5 /\
     String.get (Z.to_nat exp) letters = Some letter /\
     unit ^ (exp + 1) <= size < unit * unit ^ (exp + 1) /\
     forall fuel, (5 <= fuel)%nat ->
       FormatFileSize format_1f fuel size =
         Returns (format_1f size (unit ^ (exp + 1)) +:+ " " +:+ String letter "B")).
Proof.
  intros Hsize. split.
  - intros Hlt fuel. unfold FormatFileSize. now rewrite decide_True.
  - intros Hge.
    assert (Hstart : exists e',
              (forall fuel, (5 <= fuel)%nat ->
                 scale fuel (Z.quot size unit) unit 0 = Some (unit ^ (e' + 1), e')) /\
              0 <= e' <= 5 /\ unit ^ (e' + 1) <= size < unit ^ (e' + 2)).
    { destruct (scale_spec size Hsize 5 (Z.quot size unit) 0) as (e' & Hs & Hr & Hb).
      - lia.
      - change (unit ^ (0 + 1)) with unit. exact Hge.
      - change (unit ^ (0 + 1)) with unit. apply Z.quot_div_nonneg; unfold unit in *; lia.
      - rewrite Z.quot_div_nonneg by (unfold unit in *; lia).
        apply Z.div_lt_upper_bound; [reflexivity |].
        destruct Hsize as [_ Hmax]. unfold Database.int_max in Hmax.
        change (unit * unit ^ (Z.of_nat 5 + 1)) with (2 ^ 70).
        assert (H70 : 2 ^ 63 < 2 ^ 70) by (apply Z.pow_lt_mono_r; lia). lia.
      - exists e'. split; [| split; assumption].
        intros fuel Hfuel. change (unit ^ (0 + 1)) with unit in Hs.
        apply (scale_more_fuel 5 _ _ _ _ Hs fuel Hfuel). }
    destruct Hstart as (e' & Hscale & Hr & Hb).
    destruct (letters_get e' Hr) as [letter Hletter].
    exists e', letter. split; [exact Hr |]. split; [exact Hletter |]. split.
    + replace (e' + 2) with (e' + 1 + 1) in Hb by lia.
      rewrite (unit_pow_succ (e' + 1)) in Hb by lia. lia.
    + intros fuel Hfuel. unfold FormatFileSize.
      rewrite decide_False by lia. rewrite (Hscale fuel Hfuel).
      rewrite decide_False by lia. rewrite Hletter. reflexivity.
Qed.

(** A stand-in for the rendering of the quotient: its integer part. *)
Definition whole (size div : Z) : string := pretty (size / div).

Lemma FormatFileSize_unit_witness :
  FormatFileSize whole 5 1023 = Returns "1023 B" /\
  exists exp letter,
    String.get (Z.to_nat exp) letters = Some letter /\
    FormatFileSize whole 5 5242880
      = Returns (whole 5242880 (unit ^ (exp + 1)) +:+ " " +:+ String letter "B").
Proof.
  split.
  - destruct (FormatFileSize_unit whole 1023) as [Hsmall _].
    + split; vm_compute; discriminate.
    + rewrite Hsmall by reflexivity. reflexivity.
  - destruct (FormatFileSize_unit whole 5242880) as [_ Hlarge].
    + split; vm_compute; discriminate.
    + destruct Hlarge as (exp & letter & _ & Hletter & _ & Hcall); [vm_compute; discriminate |].
      exists exp, letter. split; [exact Hletter | apply Hcall; lia].
Defined.

End Utils.

(* ================================================================== *)
(** * pkg/deploy: the deploy manager and its tasks *)
(* ================================================================== *)

Module Deploy.

#[local] Open Scope nat_scope.

(** A [DeployTask]. Times are instants of the clock. *)
Record DeployTask : Type := mkTask {
  ID : string;
  ProjectID : N;
  Status : string;
  StartTime : Z;
  EndTime : option Z;
  Logs : list string
}.

(** The manager: its flag, whether its context has been cancelled, the
    [tasks] map from task id to task pointer, the tasks allocated so far (a
    pointer is an index into [heap]) and, for every goroutine started by
    [ExecuteDeploy], the task it works on and where it stands in
    [runDeployTask]. *)
Record DeployManager : Type := mkManager {
  running : bool;
  ctxCancelled : bool;
  tasks : gmap string nat;
  heap : list DeployTask;
  goroutines : gmap nat nat
}.

Definition NewDeployManager : DeployManager := mkManager false false ∅ [] ∅.

Definition deploySteps : list string :=
  ["Initializing deployment..."; "Cloning repository..."; "Installing dependencies...";
   "Building application..."; "Deploying to server..."; "Deployment completed successfully"].

Section WithClock.

(** [Time.Unix] and [Time.Format] with the layout 15:04:05. *)
Variable time_Unix : Z -> Z.
Variable time_Format : Z -> string.

Definition Start (dm : DeployManager) : option string * DeployManager :=
  if running dm then (Some "deploy manager is already running", dm)
  else (None, mkManager true (ctxCancelled dm) (tasks dm) (heap dm) (goroutines dm)).

Definition Stop (dm : DeployManager) : option string * DeployManager :=
  if running dm then (None, mkManager false true (tasks dm) (heap dm) (goroutines dm))
  else (Some "deploy manager is not running", dm).

Definition taskIDFor (projectID : N) (now : Z) : string :=
  "deploy_" +:+ pretty projectID +:+ "_" +:+ pretty (time_Unix now).

(** [CreateDeployTask]; [now] and [now'] are the two readings of the clock,
    for the id and for the start time. *)
Definition CreateDeployTask (projectID : N) (now now' : Z) (dm : DeployManager)
    : nat * DeployManager :=
  let taskID := taskIDFor projectID now in
  let task := mkTask taskID projectID "pending" now' None [] in
  (length (heap dm),
   mkManager (running dm) (ctxCancelled dm) (<[taskID := length (heap dm)]> (tasks dm))
             (heap dm ++ [task]) (goroutines dm)).

Definition GetDeployTask (taskID : string) (dm : DeployManager) : result nat :=
  match tasks dm !! taskID with
  | Some task => Ok task
  | None => Err ("deploy task not found: " +:+ taskID)
  end.

(** [ExecuteDeploy]: create the task and start its goroutine. *)
Definition ExecuteDeploy (projectID : N) (now now' : Z) (dm : DeployManager)
    : option string * DeployManager :=
  let '(task, dm') := CreateDeployTask projectID now now' dm in
  (None,
   mkManager (running dm') (ctxCancelled dm') (tasks dm') (heap dm')
             (<[task := 0]> (goroutines dm'))).

Definition logEntry (now : Z) (message : string) : string :=
  "[" +:+ time_Format now +:+ "] " +:+ message.

Definition setStatus (status : string) (t : DeployTask) : DeployTask :=
  mkTask (ID t) (ProjectID t) status (StartTime t) (EndTime t) (Logs t).
Definition appendLog (line : string) (t : DeployTask) : DeployTask :=
  mkTask (ID t) (ProjectID t) (Status t) (StartTime t) (EndTime t) (Logs t ++ [line]).
Definition complete (now : Z) (t : DeployTask) : DeployTask :=
  mkTask (ID t) (ProjectID t) "completed" (StartTime t) (Some now) (Logs t).

Definition withHeap (h : list DeployTask) (g : gmap nat nat) (dm : DeployManager)
    : DeployManager :=
  mkManager (running dm) (ctxCancelled dm) (tasks dm) h g.

(** One critical section of [runDeployTask] for the goroutine of [task]:
    the status becomes running, then one line is logged per step, then the
    task is completed and the goroutine ends. *)
Definition runDeployTask (task : nat) (now : Z) (dm : DeployManager) : option DeployManager :=
  match goroutines dm !! task with
  | None => None
  | Some 0 =>
      Some (withHeap (alter (setStatus "running") task (heap dm))
                     (<[task := 1]> (goroutines dm)) dm)
  | Some (S i) =>
      match deploySteps !! i with
      | Some step =>
          Some (withHeap (alter (appendLog (logEntry now step)) task (heap dm))
                         (<[task := S (S i)]> (goroutines dm)) dm)
      | None =>
          Some (withHeap (alter (complete now) task (heap dm))
                         (delete task (goroutines dm)) dm)
      end
  end.

(** The task methods, on the task at a pointer. *)
Definition AddLog (task : nat) (message : string) (now : Z) (dm : DeployManager)
    : option DeployManager :=
  match heap dm !! task with
  | Some _ =>
      Some (withHeap (alter (appendLog (logEntry now message)) task (heap dm))
                     (goroutines dm) dm)
  | None => None
  end.

Definition GetLogs (task : nat) (dm : DeployManager) : option (list string) :=
  Logs <$> heap dm !! task.
Definition GetStatus (task : nat) (dm : DeployManager) : option string :=
  Status <$> heap dm !! task.

(** What the callers and the goroutines can do, one critical section at a
    time. *)
Inductive Action : Type :=
  | ActStart
  | ActStop
  | ActCreate (projectID : N) (now now' : Z)
  | ActExecute (projectID : N) (now now' : Z)
  | ActRun (task : nat) (now : Z)
  | ActAddLog (task : nat) (message : string) (now : Z).

Definition step (a : Action) (dm : DeployManager) : option DeployManager :=
  match a with
  | ActStart => Some (snd (Start dm))
  | ActStop => Some (snd (Stop dm))
  | ActCreate projectID now now' => Some (snd (CreateDeployTask projectID now now' dm))
  | ActExecute projectID now now' => Some (snd (ExecuteDeploy projectID now now' dm))
  | ActRun task now => runDeployTask task now dm
  | ActAddLog task message now => AddLog task message now dm
  end.

Fixpoint steps (acts : list Action) (dm : DeployManager) : option DeployManager :=
  match acts with
  | [] => Some dm
  | a :: acts' =>
      match step a dm with
      | Some dm' => steps acts' dm'
      | None => None
      end
  end.

Definition reachable (dm : DeployManager) : Prop :=
  exists acts, steps acts NewDeployManager = Some dm.

(** ** The tasks over time *)

(** What holds of a task, given where its goroutine stands ([None]: no
    goroutine works on it). *)
Definition task_ok (pc : option nat) (t : DeployTask) : Prop :=
  match pc with
  | Some 0 => Status t = "pending" /\ EndTime t = None
  | Some (S i) => Status t = "running" /\ EndTime t = None /\ i <= length (Logs t) /\ i <= 6
  | None =>
      (Status t = "pending" /\ EndTime t = None) \/
      (Status t = "completed" /\ is_Some (EndTime t) /\ 6 <= length (Logs t))
  end.

Record deploy_inv (dm : DeployManager) : Prop := mkDeployInv {
  di_map : forall id ptr, tasks dm !! id = Some ptr ->
             exists t, heap dm !! ptr = Some t /\ ID t = id;
  di_latest : forall ptr t, heap dm !! ptr = Some t ->
                exists ptr', tasks dm !! ID t = Some ptr' /\ ptr <= ptr';
  di_task : forall ptr t, heap dm !! ptr = Some t -> task_ok (goroutines dm !! ptr) t;
  di_goroutine : forall ptr pc, goroutines dm !! ptr = Some pc -> ptr < length (heap dm)
}.

Lemma NewDeployManager_inv : deploy_inv NewDeployManager.
Proof.
  split; simpl.
  - intros id ptr H. rewrite lookup_empty in H. discriminate.
  - intros ptr t H. rewrite lookup_nil in H. discriminate.
  - intros ptr t H. rewrite lookup_nil in H. discriminate.
  - intros ptr pc H. rewrite lookup_empty in H. discriminate.
Qed.

Lemma CreateDeployTask_inv projectID now now' dm :
  deploy_inv dm -> deploy_inv (snd (CreateDeployTask projectID now now' dm)).
Proof.
  intros [Hmap Hlatest Htask Hgo]. unfold CreateDeployTask.
  split; cbn [snd tasks heap goroutines].
  - intros id ptr. destruct (decide (taskIDFor projectID now = id)) as [<- | Hne].
    + rewrite lookup_insert_eq. intros H. inversion H; subst ptr.
      eexists. split; [apply list_lookup_middle; reflexivity | reflexivity].
    + rewrite lookup_insert_ne by exact Hne. intros H.
      destruct (Hmap _ _ H) as (t & Ht & Hid). exists t. split; [| exact Hid].
      apply lookup_app_l_Some, Ht.
  - intros ptr t Ht. apply lookup_app_Some in Ht as [Ht | [Hlen Ht]].
    + destruct (decide (taskIDFor projectID now = ID t)) as [E | Hne].
      * rewrite <- E, lookup_insert_eq. eexists. split; [reflexivity |].
        apply lookup_lt_Some in Ht. lia.
      * rewrite lookup_insert_ne by exact Hne. apply (Hlatest _ _ Ht).
    + destruct (ptr - length (heap dm)) as [| k] eqn:Hk; [| destruct k; discriminate].
      simpl in Ht. inversion Ht; subst t. simpl. rewrite lookup_insert_eq.
      eexists. split; [reflexivity | lia].
  - intros ptr t Ht. apply lookup_app_Some in Ht as [Ht | [Hlen Ht]].
    + apply (Htask _ _ Ht).
    + destruct (ptr - length (heap dm)) as [| k] eqn:Hk; [| destruct k; discriminate].
      simpl in Ht. inversion Ht; subst t.
      destruct (goroutines dm !! ptr) as [pc |] eqn:Hg.
      * apply Hgo in Hg. lia.
      * left. split; reflexivity.
  - intros ptr pc Hg. apply Hgo in Hg. rewrite length_app. simpl. lia.
Qed.

(** A change of one task that keeps its id, given what it does to the
    goroutines. *)
Lemma alter_inv (f : DeployTask -> DeployTask) (task : nat) (g : gmap nat nat)
    (dm : DeployManager) :
  deploy_inv dm ->
  (forall t, ID (f t) = ID t) ->
  (forall ptr, ptr <> task -> g !! ptr = goroutines dm !! ptr) ->
  (forall t, heap dm !! task = Some t -> task_ok (g !! task) (f t)) ->
  (forall pc, g !! task = Some pc -> task < length (heap dm)) ->
  deploy_inv (withHeap (alter f task (heap dm)) g dm).
Proof.
  intros [Hmap Hlatest Htask Hgo] Hid Hother Hself Hlive.
  assert (Hlook : forall ptr t', alter f task (heap dm) !! ptr = Some t' ->
            exists t, heap dm !! ptr = Some t /\ ID t' = ID t /\
                      (ptr <> task -> t' = t) /\ (ptr = task -> t' = f t)).
  { intros ptr t'. destruct (decide (task = ptr)) as [<- | Hne].
    - rewrite list_lookup_alter, decide_True by reflexivity.
      destruct (heap dm !! task) as [t |]; [| discriminate].
      simpl. intros H. inversion H. exists t. repeat split; auto. congruence.
    - rewrite list_lookup_alter_ne by exact Hne. intros H. exists t'.
      repeat split; auto. congruence. }
  split; cbn [withHeap tasks heap goroutines].
  - intros id ptr H. destruct (Hmap _ _ H) as (t & Ht & Hidt).
    destruct (decide (task = ptr)) as [<- | Hne].
    + exists (f t). rewrite list_lookup_alter, decide_True by reflexivity.
      rewrite Ht. split; [reflexivity |]. now rewrite Hid.
    + exists t. rewrite list_lookup_alter_ne by exact Hne. split; assumption.
  - intros ptr t' H. destruct (Hlook _ _ H) as (t & Ht & Hidt & _).
    rewrite Hidt. apply (Hlatest _ _ Ht).
  - intros ptr t' H. destruct (Hlook _ _ H) as (t & Ht & _ & Hne & Heq).
    destruct (decide (ptr = task)) as [-> | Hd].
    + rewrite (Heq eq_refl). apply Hself, Ht.
    + rewrite (Hne Hd), (Hother _ Hd). apply (Htask _ _ Ht).
  - intros ptr pc Hg. rewrite length_alter.
    destruct (decide (ptr = task)) as [-> | Hd]; [eapply Hlive, Hg |].
    rewrite (Hother _ Hd) in Hg. apply (Hgo _ _ Hg).
Qed.

Lemma flags_inv r c dm :
  deploy_inv dm -> deploy_inv (mkManager r c (tasks dm) (heap dm) (goroutines dm)).
Proof. intros [H1 H2 H3 H4]. split; assumption. Qed.

Lemma deploy_step_inv a dm dm' : deploy_inv dm -> step a dm = Some dm' -> deploy_inv dm'.
Proof.
  intros Hinv Hstep. destruct a as [| | p now now' | p now now' | task now | task msg now];
    simpl in Hstep.
  - inversion Hstep; subst dm'. unfold Start. destruct (running dm); [exact Hinv |].
    apply flags_inv, Hinv.
  - inversion Hstep; subst dm'. unfold Stop. destruct (running dm); [| exact Hinv].
    apply flags_inv, Hinv.
  - inversion Hstep; subst dm'. apply CreateDeployTask_inv, Hinv.
  - inversion Hstep; subst dm'; clear Hstep.
    pose proof (CreateDeployTask_inv p now now' dm Hinv) as Hc.
    unfold ExecuteDeploy, CreateDeployTask in *. cbn [snd] in *.
    destruct Hc as [Hmap Hlatest Htk Hgo1]. cbn [tasks heap goroutines] in *.
    split; cbn [tasks heap goroutines]; [exact Hmap | exact Hlatest | |].
    + intros ptr t Ht. destruct (decide (length (heap dm) = ptr)) as [<- | Hne].
      * rewrite lookup_insert_eq.
        rewrite list_lookup_middle in Ht by reflexivity. inversion Ht. split; reflexivity.
      * rewrite lookup_insert_ne by exact Hne. apply (Htk _ _ Ht).
    + intros ptr pc. destruct (decide (length (heap dm) = ptr)) as [<- | Hne].
      * intros _. rewrite length_app. simpl. lia.
      * rewrite lookup_insert_ne by exact Hne. apply Hgo1.
  - unfold runDeployTask in Hstep.
    destruct (goroutines dm !! task) as [[| i] |] eqn:Hg; [| | discriminate].
    + inversion Hstep; subst dm'; clear Hstep. apply alter_inv; auto.
      * intros ptr Hne. apply lookup_insert_ne. congruence.
      * intros t Ht. rewrite lookup_insert_eq. pose proof (di_task _ Hinv _ _ Ht) as Hok.
        rewrite Hg in Hok. destruct Hok as [_ He]. simpl. repeat split; [exact He | lia | lia].
      * intros pc _. apply (di_goroutine _ Hinv _ _ Hg).
    + destruct (deploySteps !! i) as [line |] eqn:Hline;
        inversion Hstep; subst dm'; clear Hstep; apply alter_inv; auto.
      * intros ptr Hne. apply lookup_insert_ne. congruence.
      * intros t Ht. rewrite lookup_insert_eq. pose proof (di_task _ Hinv _ _ Ht) as Hok.
        rewrite Hg in Hok. destruct Hok as (Hs & He & Hlen & _). simpl.
        apply lookup_lt_Some in Hline. simpl in Hline.
        rewrite length_app. simpl. repeat split; [exact Hs | exact He | lia | lia].
      * intros pc _. apply (di_goroutine _ Hinv _ _ Hg).
      * intros ptr Hne. apply lookup_delete_ne. congruence.
      * intros t Ht. rewrite lookup_delete_eq. pose proof (di_task _ Hinv _ _ Ht) as Hok.
        rewrite Hg in Hok. destruct Hok as (Hs & He & Hlen & Hsix). simpl.
        apply lookup_ge_None in Hline. simpl in Hline.
        right. split; [reflexivity |]. split; [eauto | lia].
      * intros pc. rewrite lookup_delete_eq. discriminate.
  - unfold AddLog in Hstep. destruct (heap dm !! task) as [t0 |] eqn:Ht0; [| discriminate].
    inversion Hstep; subst dm'; clear Hstep. apply alter_inv; auto.
    + intros t Ht. pose proof (di_task _ Hinv _ _ Ht) as Hok.
      destruct (goroutines dm !! task) as [[| i] |]; simpl in *.
      * exact Hok.
      * destruct Hok as (Hs & He & Hlen & Hsix). rewrite length_app. simpl.
        repeat split; [exact Hs | exact He | lia | lia].
      * destruct Hok as [Hok | (Hs & He & Hlen)]; [left; exact Hok | right].
        rewrite length_app. simpl. repeat split; [exact Hs | exact He | lia].
    + intros pc _. apply lookup_lt_Some in Ht0. exact Ht0.
Qed.

Lemma deploy_reachable_inv dm : reachable dm -> deploy_inv dm.
Proof.
  intros [acts Hs]. revert Hs. generalize NewDeployManager_inv.
  generalize NewDeployManager. induction acts as [| a acts IH]; simpl; intros dm0 H0 Hs.
  - inversion Hs; subst. exact H0.
  - destruct (step a dm0) as [dm1 |] eqn:Ha; [| discriminate].
    apply (IH dm1); [eapply deploy_step_inv; eauto | exact Hs].
Qed.

(** In every state the manager can reach, whatever its callers and its
    goroutines do and in whatever order. [GetDeployTask] finds a task exactly
    for the ids under which a task was created, and the task found carries
    that id and is the last one created under it: an earlier task with the
    same id (same project, same second) can no longer be found. Every task
    ever created has status pending, running or completed; it is completed
    exactly when its end time is set, and then it holds at least the six
    lines of the run; and a running task always has a goroutine at work. *)
Theorem deploy_tasks_invariant (dm : DeployManager) :
  reachable dm ->
  (forall taskID,
     match GetDeployTask taskID dm with
     | Ok ptr =>
         exists t, heap dm !! ptr = Some t /\ ID t = taskID /\
                   forall ptr' t', heap dm !! ptr' = Some t' -> ID t' = taskID -> ptr' <= ptr
     | Err _ => forall ptr t, heap dm !! ptr = Some t -> ID t <> taskID
     end) /\
  (forall ptr t, heap dm !! ptr = Some t ->
     (Status t = "pending" \/ Status t = "running" \/ Status t = "completed") /\
     (Status t = "completed" <-> is_Some (EndTime t)) /\
     (Status t = "completed" -> 6 <= length (Logs t)) /\
     (Status t = "running" -> is_Some (goroutines dm !! ptr))).
Proof.
  intros Hreach. destruct (deploy_reachable_inv _ Hreach) as [Hmap Hlatest Htask Hgo].
  split.
  - intros taskID. unfold GetDeployTask.
    destruct (tasks dm !! taskID) as [ptr |] eqn:Hp.
    + destruct (Hmap _ _ Hp) as (t & Ht & Hid). exists t. split; [exact Ht |].
      split; [exact Hid |]. intros ptr' t' Ht' Hid'.
      destruct (Hlatest _ _ Ht') as (ptr2 & Hp2 & Hle). rewrite Hid', Hp in Hp2.
      inversion Hp2. lia.
    + intros ptr t Ht Hid. destruct (Hlatest _ _ Ht) as (ptr2 & Hp2 & _).
      rewrite Hid, Hp in Hp2. discriminate.
  - intros ptr t Ht. pose proof (Htask _ _ Ht) as Hok.
    destruct (goroutines dm !! ptr) as [[| i] |]; simpl in Hok.
    + destruct Hok as [Hs He]. rewrite Hs, He. split; [auto |].
      split; [split; [discriminate | intros [x Hx]; discriminate] |].
      split; discriminate.
    + destruct Hok as (Hs & He & _). rewrite Hs, He. split; [auto |].
      split; [split; [discriminate | intros [x Hx]; discriminate] |].
      split; [discriminate | eauto].
    + destruct Hok as [[Hs He] | (Hs & He & Hlen)]; rewrite Hs.
      * rewrite He. split; [auto |].
        split; [split; [discriminate | intros [x Hx]; discriminate] |].
        split; discriminate.
      * split; [auto |]. split; [split; auto |]. split; [auto | discriminate].
Qed.

End WithClock.

(** ** A closed instance: two deployments of one project in one second *)

Definition unixSeconds (t : Z) : Z := (t / 1000)%Z.
Definition clockText (t : Z) : string := "12:00:00".

Definition twiceActs : list Action :=
  [ActExecute 4 1700000000100 1700000000101; ActExecute 4 1700000000900 1700000000901;
   ActRun 0 1700000001000].

Definition twice : DeployManager :=
  default NewDeployManager (steps unixSeconds clockText twiceActs NewDeployManager).

Lemma twice_reachable : reachable unixSeconds clockText twice.
Proof.
  exists twiceActs. unfold twice.
  destruct (steps unixSeconds clockText twiceActs NewDeployManager) as [dm |] eqn:E;
    [reflexivity | vm_compute in E; discriminate].
Qed.

Lemma deploy_tasks_invariant_witness :
  length (heap twice) = 2 /\
  GetStatus 0 twice = Some "running" /\
  GetDeployTask "deploy_4_1700000000" twice = Ok 1 /\
  is_Some (goroutines twice !! 0).
Proof.
  destruct (deploy_tasks_invariant unixSeconds clockText twice twice_reachable)
    as [_ Htasks].
  split; [vm_compute; reflexivity |].
  split; [vm_compute; reflexivity |].
  split; [vm_compute; reflexivity |].
  destruct (heap twice !! 0) as [t |] eqn:Ht; [| vm_compute in Ht; discriminate].
  destruct (Htasks 0 t Ht) as (_ & _ & _ & Hrunning).
  apply Hrunning. vm_compute in Ht. inversion Ht. reflexivity.
Defined.

End Deploy.
